(** * Akinator de Hollow Knight: the decision-tree engine of
    [hollow_akinator_gui_blur.py], embedded in Rocq.

    Python values live in a store of mutable [dict] objects; a [str] is a
    sequence of Unicode code points; the knowledge file holds the UTF-8
    text written by [json.dump] and read back by [json.load]. *)

From Stdlib Require Import String Ascii NArith ZArith List Lia QArith.
From Stdlib Require DecimalPos SpecFloat.
From stdpp Require Import base list option gmap strings.
Import ListNotations.

Local Open Scope N_scope.
Set Warnings "-clear-no-such-hyp".

(** ** Python strings *)

(** A code point; a Python [str] is a list of them. *)
Definition char := N.
Definition str := list N.

(** ** UTF-8, the encoding of the files and of the source

    Strict, as Python's codec is: no surrogate is encoded, and no overlong
    form, surrogate or code point above U+10FFFF is decoded. *)

Definition is_surrogate (c : char) : bool := (0xD800 <=? c) && (c <=? 0xDFFF).

Definition utf8_encode_char (c : char) : option (list N) :=
  if c <? 0x80 then Some [c]
  else if c <? 0x800 then Some [0xC0 + c / 64; 0x80 + c mod 64]
  else if c <? 0x10000 then
    if is_surrogate c then None
    else Some [0xE0 + c / 4096; 0x80 + (c / 64) mod 64; 0x80 + c mod 64]
  else if c <? 0x110000 then
    Some [0xF0 + c / 262144; 0x80 + (c / 4096) mod 64;
          0x80 + (c / 64) mod 64; 0x80 + c mod 64]
  else None.

(** [s.encode("utf-8")]; [None] stands for [UnicodeEncodeError]. *)
Fixpoint utf8_encode (s : str) : option (list N) :=
  match s with
  | [] => Some []
  | c :: s' =>
    match utf8_encode_char c, utf8_encode s' with
    | Some bs, Some bs' => Some (bs ++ bs')
    | _, _ => None
    end
  end.

Definition is_cont (b : N) : bool := (0x80 <=? b) && (b <=? 0xBF).

(** [bs.decode("utf-8")]; [None] stands for [UnicodeDecodeError]. *)
Fixpoint utf8_decode (bs : list N) : option str :=
  match bs with
  | [] => Some []
  | b0 :: r =>
    if b0 <? 0x80 then cons b0 <$> utf8_decode r
    else if (0xC2 <=? b0) && (b0 <=? 0xDF) then
      match r with
      | b1 :: r =>
        if is_cont b1
        then cons ((b0 - 0xC0) * 64 + (b1 - 0x80)) <$> utf8_decode r
        else None
      | _ => None
      end
    else if (0xE0 <=? b0) && (b0 <=? 0xEF) then
      match r with
      | b1 :: b2 :: r =>
        let c := (b0 - 0xE0) * 4096 + (b1 - 0x80) * 64 + (b2 - 0x80) in
        if is_cont b1 && is_cont b2 && (0x800 <=? c) && negb (is_surrogate c)
        then cons c <$> utf8_decode r
        else None
      | _ => None
      end
    else if (0xF0 <=? b0) && (b0 <=? 0xF4) then
      match r with
      | b1 :: b2 :: b3 :: r =>
        let c := (b0 - 0xF0) * 262144 + (b1 - 0x80) * 4096
                 + (b2 - 0x80) * 64 + (b3 - 0x80) in
        if is_cont b1 && is_cont b2 && is_cont b3
           && (0x10000 <=? c) && (c <? 0x110000)
        then cons c <$> utf8_decode r
        else None
      | _ => None
      end
    else None
  end.

(** A literal of the source, whose file is declared
    [# -*- coding: utf-8 -*-]. *)
Definition lit (s : string) : str :=
  default [] (utf8_decode (map N_of_ascii (list_ascii_of_string s))).

(** [str.isspace] on one code point, the set [str.strip()] removes. *)
Definition isspace (c : char) : bool :=
  ((9 <=? c) && (c <=? 13)) || ((28 <=? c) && (c <=? 32))
  || (c =? 0x85) || (c =? 0xA0) || (c =? 0x1680)
  || ((0x2000 <=? c) && (c <=? 0x200A))
  || (c =? 0x2028) || (c =? 0x2029) || (c =? 0x202F) || (c =? 0x205F)
  || (c =? 0x3000).

Fixpoint lstrip (s : str) : str :=
  match s with
  | c :: s' => if isspace c then lstrip s' else s
  | [] => []
  end.

Definition rstrip (s : str) : str := rev (lstrip (rev s)).

(** [s.strip()] *)
Definition strip (s : str) : str := rstrip (lstrip s).

(** [s.endswith(suffix)] *)
Definition endswith (s suffix : str) : bool :=
  bool_decide (drop (length s - length suffix) s = suffix).

(** [s.startswith(prefix)] *)
Definition startswith (s pre : str) : bool :=
  bool_decide (take (length pre) s = pre).

(** ** [normalize_question] *)

Definition normalize_question (q : str) : str :=
  let q := strip q in
  if negb (endswith q (lit "?")) then q ++ lit "?" else q.

(** ** Python values and the object store *)

(** Every [dict] and [list] is an object of the store, named by its
    address; the other values are immutable and carried as they are. *)
Definition addr := nat.

Inductive value : Type :=
| VNone
| VBool (b : bool)
| VInt (n : Z)
| VStr (s : str)
| VRef (a : addr).

(** A [dict] keeps its keys in insertion order. *)
Definition dict := list (str * value).

Inductive obj : Type :=
| ODict (d : dict)
| OList (l : list value).

(** The store: the object at address [a] is the [a]-th element; a new
    object is appended. *)
Abbreviation heap := (list obj).

(** [d.get(k)] *)
Fixpoint dict_get (d : dict) (k : str) : option value :=
  match d with
  | [] => None
  | (k', v) :: d' => if decide (k' = k) then Some v else dict_get d' k
  end.

(** [k in d] *)
Definition dict_in (k : str) (d : dict) : bool :=
  match dict_get d k with Some _ => true | None => false end.

(** [d[k] = v]: in place for a key already there, at the end otherwise. *)
Fixpoint dict_set (d : dict) (k : str) (v : value) : dict :=
  match d with
  | [] => [(k, v)]
  | (k', v') :: d' =>
    if decide (k' = k) then (k', v) :: d' else (k', v') :: dict_set d' k v
  end.

(** [dict(pairs)] *)
Definition dict_of_pairs (ps : list (str * value)) : dict :=
  fold_left (fun d kv => dict_set d kv.1 kv.2) ps [].

Definition alloc (o : obj) (h : heap) : value * heap :=
  (VRef (length h), h ++ [o]).

(** [isinstance(v, dict)], with the dict itself *)
Definition as_dict (h : heap) (v : value) : option dict :=
  match v with
  | VRef a => match h !! a with Some (ODict d) => Some d | _ => None end
  | _ => None
  end.

(** ** Exceptions and effects *)

Inductive exn : Type :=
| AttributeError
| KeyError
| TypeError
| ValueError (msg : string)
| RecursionError
| UnicodeEncodeError
| UnicodeDecodeError
| JSONDecodeError
| FileNotFoundError
| ZeroDivisionError
| OverflowError.

Inductive res (A : Type) : Type :=
| Ok (a : A)
| Raise (e : exn).
Arguments Ok {A} a.
Arguments Raise {A} e.

(** A computation over a state [S] that returns or raises, and leaves a
    state behind in both cases. *)
Definition M (S A : Type) : Type := S -> res A * S.

Definition ret {S A} (a : A) : M S A := fun s => (Ok a, s).
Definition raise {S A} (e : exn) : M S A := fun s => (Raise e, s).
Definition bind {S A B} (m : M S A) (k : A -> M S B) : M S B :=
  fun s => match m s with
           | (Ok a, s') => k a s'
           | (Raise e, s') => (Raise e, s')
           end.
Definition get {S} : M S S := fun s => (Ok s, s).
Definition put {S} (s : S) : M S unit := fun _ => (Ok tt, s).
Definition modify {S} (f : S -> S) : M S unit := fun s => (Ok tt, f s).

(** [try: m except Exception as e: h e] *)
Definition try_except {S A} (m : M S A) (h : exn -> M S A) : M S A :=
  fun s => match m s with
           | (Ok a, s') => (Ok a, s')
           | (Raise e, s') => h e s'
           end.

Declare Scope py_scope.
Delimit Scope py_scope with py.
Notation "x <- m ;; k" := (bind m (fun x => k))
  (at level 100, m at next level, right associativity) : py_scope.
Notation "m ;;; k" := (bind m (fun _ => k))
  (at level 100, right associativity) : py_scope.

(** ** [json.dump(obj, fp, ensure_ascii=False, indent=2)]

    The encoder of the [json] module as [json.dump] runs it: the pure-Python
    [_make_iterencode] generator, which yields the document chunk by chunk.
    With [ensure_ascii=False] only the quote, the backslash and the control
    characters are escaped. *)

Definition hex_digit (n : N) : char := if n <? 10 then 48 + n else 87 + n.

Definition escape_char (c : char) : str :=
  if c =? 34 then [92; 34]            (* quote *)
  else if c =? 92 then [92; 92]       (* backslash *)
  else if c =? 10 then [92; 110]      (* \n *)
  else if c =? 13 then [92; 114]      (* \r *)
  else if c =? 9 then [92; 116]       (* \t *)
  else if c =? 8 then [92; 98]        (* \b *)
  else if c =? 12 then [92; 102]      (* \f *)
  else if c <? 32 then [92; 117; 48; 48; hex_digit (c / 16); hex_digit (c mod 16)]
  else [c].

(** [encode_basestring(s)] *)
Definition encode_basestring (s : str) : str :=
  34 :: concat (map escape_char s) ++ [34].

Fixpoint uint_chars (d : Decimal.uint) : str :=
  match d with
  | Decimal.Nil => []
  | Decimal.D0 d => 48 :: uint_chars d
  | Decimal.D1 d => 49 :: uint_chars d
  | Decimal.D2 d => 50 :: uint_chars d
  | Decimal.D3 d => 51 :: uint_chars d
  | Decimal.D4 d => 52 :: uint_chars d
  | Decimal.D5 d => 53 :: uint_chars d
  | Decimal.D6 d => 54 :: uint_chars d
  | Decimal.D7 d => 55 :: uint_chars d
  | Decimal.D8 d => 56 :: uint_chars d
  | Decimal.D9 d => 57 :: uint_chars d
  end.

(** [int.__repr__] *)
Definition intstr (z : Z) : str :=
  match z with
  | Z0 => [48]
  | Zpos p => uint_chars (Pos.to_uint p)
  | Zneg p => 45 :: uint_chars (Pos.to_uint p)
  end.

(** The chunks a generator yields, and the exception that ended it, if
    one did. *)
Definition out : Type := list str * option exn.

Definition yield (c : str) : out := ([c], None).
Definition out_cat (o1 o2 : out) : out :=
  match o1 with
  | (c1, Some e) => (c1, Some e)
  | (c1, None) => (c1 ++ o2.1, o2.2)
  end.
Definition out_raise (e : exn) : out := ([], Some e).

(** ['\n' + _indent * _current_indent_level] *)
Definition newline_indent (lvl : nat) : str :=
  10 :: concat (repeat [32; 32] lvl).

(** The values [_iterencode_dict] and [_iterencode_list] encode in place. *)
Definition encode_atom (v : value) : option str :=
  match v with
  | VStr s => Some (encode_basestring s)
  | VNone => Some (lit "null")
  | VBool true => Some (lit "true")
  | VBool false => Some (lit "false")
  | VInt n => Some (intstr n)
  | VRef _ => None
  end.

(** The loop of [_iterencode_dict] over the items. *)
Fixpoint encode_items (enc : value -> out) (sep : str) (first : bool)
    (d : dict) : out :=
  match d with
  | [] => ([], None)
  | (k, v) :: d' =>
    out_cat (if first then ([], None) else yield sep)
   (out_cat (yield (encode_basestring k))
   (out_cat (yield [58; 32])
   (out_cat (enc v)
            (encode_items enc sep false d'))))
  end.

(** The loop of [_iterencode_list]: [buf] is glued to an atom. *)
Fixpoint encode_elems (enc : value -> out) (sep : str) (buf : str)
    (l : list value) : out :=
  match l with
  | [] => ([], None)
  | v :: l' =>
    out_cat
      match encode_atom v with
      | Some c => yield (buf ++ c)
      | None => out_cat (yield buf) (enc v)
      end
      (encode_elems enc sep sep l')
  end.

(** [_iterencode(o, _current_indent_level)].  [markers] are the containers
    being encoded, the check for circular references.  The nesting of the
    generators is bounded by [fuel]. *)
Fixpoint iterencode (fuel : nat) (h : heap) (markers : list addr)
    (lvl : nat) (v : value) : out :=
  match encode_atom v, v with
  | Some c, _ => yield c
  | None, VRef a =>
    match fuel with
    | O => out_raise RecursionError
    | S fuel =>
      let nl := newline_indent (S lvl) in
      let enc := iterencode fuel h (a :: markers) (S lvl) in
      match h !! a with
      | None => out_raise TypeError
      | Some (ODict []) => yield [123; 125]
      | Some (ODict d) =>
        if bool_decide (a ∈ markers)
        then out_raise (ValueError "Circular reference detected")
        else
          out_cat (yield [123])
         (out_cat (yield nl)
         (out_cat (encode_items enc (44 :: nl) true d)
         (out_cat (yield (newline_indent lvl))
                  (yield [125]))))
      | Some (OList []) => yield [91; 93]
      | Some (OList l) =>
        if bool_decide (a ∈ markers)
        then out_raise (ValueError "Circular reference detected")
        else
          out_cat (encode_elems enc (44 :: nl) (91 :: nl) l)
         (out_cat (yield (newline_indent lvl))
                  (yield [93]))
      end
    end
  | None, _ => ([], None)
  end.

(** ** Files

    The world outside the interpreter is the file system: the bytes of
    each file that exists.  A file is opened in text mode with
    [encoding="utf-8"], so each [write] encodes its chunk and a [read]
    decodes the whole content.  (On reading, text mode also turns "\r\n"
    and "\r" into "\n"; [json.load] gives the same document with or
    without it, and it is left out.) *)

Record World : Type := mkWorld {
  w_heap : heap;
  w_files : gmap string (list N);
}.

Definition DATA_FILE : string := "hk_knowledge.json".
Definition STATS_FILE : string := "hk_stats.json".

(** [os.path.exists(path)] *)
Definition path_exists (path : string) : M World bool :=
  fun w => (Ok (bool_decide (is_Some (w_files w !! path))), w).

(** [open(path, "w", encoding="utf-8")]: the file is created, or cut to
    length zero. *)
Definition open_w (path : string) : M World unit :=
  modify (fun w => mkWorld (w_heap w) (<[path := []]> (w_files w))).

(** [f.write(chunk)] *)
Definition write_chunk (path : string) (c : str) : M World unit :=
  fun w =>
    match utf8_encode c with
    | Some bs =>
      (Ok tt,
       mkWorld (w_heap w)
               (<[path := default [] (w_files w !! path) ++ bs]> (w_files w)))
    | None => (Raise UnicodeEncodeError, w)
    end.

(** [for chunk in iterable: fp.write(chunk)] *)
Fixpoint write_chunks (path : string) (cs : list str) : M World unit :=
  match cs with
  | [] => ret tt
  | c :: cs' => bind (write_chunk path c) (fun _ => write_chunks path cs')
  end.

(** [json.dump(v, f, ensure_ascii=False, indent=2)], [f] open on [path] *)
Definition json_dump (v : value) (path : string) : M World unit :=
  fun w =>
    let '(chunks, e) := iterencode (S (length (w_heap w))) (w_heap w) [] 0 v in
    bind (write_chunks path chunks)
         (fun _ => match e with Some e => raise e | None => ret tt end) w.

(** [open(path, "r", encoding="utf-8")] and [f.read()] *)
Definition read_text (path : string) : M World str :=
  fun w =>
    match w_files w !! path with
    | None => (Raise FileNotFoundError, w)
    | Some bs =>
      match utf8_decode bs with
      | Some s => (Ok s, w)
      | None => (Raise UnicodeDecodeError, w)
      end
    end.

(** ** [save_tree] *)

Definition save_tree (tree : value) : M World unit :=
  bind (open_w DATA_FILE) (fun _ => json_dump tree DATA_FILE).

(** ** [json.load]

    The document [json.loads] reads: objects, arrays, strings, integers,
    [true], [false] and [null], as the C scanner of the [json] module
    accepts them.  A number with a fraction or an exponent, [NaN] and
    [Infinity] are Python floats, which are not modelled: such a document is
    outside the domain of [json_loads], where it is reported as an error. *)

#[warnings="-register-all"] Inductive json : Type :=
| JNull
| JBool (b : bool)
| JInt (n : Z)
| JStr (s : str)
| JList (l : list json)
| JDict (d : list (str * json)).

Definition is_ws (c : char) : bool :=
  (c =? 32) || (c =? 9) || (c =? 10) || (c =? 13).

Fixpoint skip_ws (s : str) : str :=
  match s with
  | c :: r => if is_ws c then skip_ws r else s
  | [] => []
  end.

Definition hex_value (c : char) : option N :=
  if (48 <=? c) && (c <=? 57) then Some (c - 48)
  else if (97 <=? c) && (c <=? 102) then Some (c - 87)
  else if (65 <=? c) && (c <=? 70) then Some (c - 55)
  else None.

Definition decode_uXXXX (s : str) : option (N * str) :=
  match s with
  | a :: b :: c :: d :: r =>
    match hex_value a, hex_value b, hex_value c, hex_value d with
    | Some a, Some b, Some c, Some d =>
      Some (a * 4096 + b * 256 + c * 16 + d, r)
    | _, _, _, _ => None
    end
  | _ => None
  end.

(** The [BACKSLASH] table of the decoder. *)
Definition backslash (e : char) : option char :=
  if e =? 34 then Some 34
  else if e =? 92 then Some 92
  else if e =? 47 then Some 47
  else if e =? 98 then Some 8
  else if e =? 102 then Some 12
  else if e =? 110 then Some 10
  else if e =? 114 then Some 13
  else if e =? 116 then Some 9
  else None.

(** [scanstring(s, end, strict=True)], from the character after the
    opening quote: the string and what follows its closing quote. *)
Fixpoint scanstring (fuel : nat) (s : str) : option (str * str) :=
  match fuel with
  | O => None
  | S fuel =>
    match s with
    | [] => None
    | c :: r =>
      if c =? 34 then Some ([], r)
      else if c =? 92 then
        match r with
        | [] => None
        | e :: r1 =>
          if e =? 117 then
            match decode_uXXXX r1 with
            | None => None
            | Some (uni, r2) =>
              let lone := '(t, r') ← scanstring fuel r2; Some (uni :: t, r') in
              if (0xD800 <=? uni) && (uni <=? 0xDBFF) then
                match r2 with
                | 92 :: 117 :: r3 =>
                  match decode_uXXXX r3 with
                  | None => None
                  | Some (uni2, r4) =>
                    if (0xDC00 <=? uni2) && (uni2 <=? 0xDFFF) then
                      '(t, r') ← scanstring fuel r4;
                      Some ((0x10000 + (uni - 0xD800) * 1024 + (uni2 - 0xDC00))
                              :: t, r')
                    else lone
                  end
                | _ => lone
                end
              else lone
            end
          else
            match backslash e with
            | None => None
            | Some ch => '(t, r') ← scanstring fuel r1; Some (ch :: t, r')
            end
        end
      else if c <? 32 then None
      else '(t, r') ← scanstring fuel r; Some (c :: t, r')
    end
  end.

Definition is_digit (c : char) : bool := (48 <=? c) && (c <=? 57).

Fixpoint span_digits (s : str) : str * str :=
  match s with
  | c :: r =>
    if is_digit c then let '(ds, rest) := span_digits r in (c :: ds, rest)
    else ([], s)
  | [] => ([], [])
  end.

Definition digits_value (ds : str) : Z :=
  fold_left (fun acc c => (10 * acc + Z.of_N (c - 48))%Z) ds 0%Z.

(** What follows the integer part makes the number a float. *)
Definition float_tail (s : str) : bool :=
  match s with
  | 46 :: d :: _ => is_digit d
  | e :: r =>
    if (e =? 101) || (e =? 69) then
      match r with
      | sg :: d :: _ =>
        if (sg =? 43) || (sg =? 45) then is_digit d else is_digit sg
      | [d] => is_digit d
      | [] => false
      end
    else false
  | [] => false
  end.

Definition match_number (s : str) : option (json * str) :=
  let '(neg, s1) :=
    match s with
    | c :: r => if c =? 45 then (true, r) else (false, s)
    | [] => (false, s)
    end in
  let finish (ds rest : str) : option (json * str) :=
    if float_tail rest then None
    else Some (JInt (if neg then - digits_value ds else digits_value ds)%Z,
               rest) in
  match s1 with
  | c :: r =>
    if (49 <=? c) && (c <=? 57) then
      let '(ds, rest) := span_digits r in finish (c :: ds) rest
    else if c =? 48 then finish [48] r
    else None
  | [] => None
  end.

Section Containers.
(** The scanner for the values inside a container. *)
Variable scan : str -> option (json * str).

(** The loop of [JSONObject], from the character after the opening quote
    of a key. *)
Fixpoint object_loop (fuel : nat) (s : str)
    : option (list (str * json) * str) :=
  match fuel with
  | O => None
  | S fuel =>
    '(key, s1) ← scanstring (length s) s;
    match skip_ws s1 with
    | c :: s2 =>
      if c =? 58 then
        '(v, s3) ← scan (skip_ws s2);
        match skip_ws s3 with
        | c' :: s4 =>
          if c' =? 125 then Some ([(key, v)], s4)
          else if c' =? 44 then
            match skip_ws s4 with
            | q :: s5 =>
              if q =? 34 then
                '(ps, s6) ← object_loop fuel s5; Some ((key, v) :: ps, s6)
              else None
            | [] => None
            end
          else None
        | [] => None
        end
      else None
    | [] => None
    end
  end.

(** [JSONObject], from the character after the brace. *)
Definition parse_object (fuel : nat) (s : str) : option (json * str) :=
  match skip_ws s with
  | c :: r =>
    if c =? 125 then Some (JDict [], r)
    else if c =? 34 then
      '(ps, r') ← object_loop fuel r; Some (JDict ps, r')
    else None
  | [] => None
  end.

(** The loop of [JSONArray], from the first character of a value. *)
Fixpoint array_loop (fuel : nat) (s : str) : option (list json * str) :=
  match fuel with
  | O => None
  | S fuel =>
    '(v, s1) ← scan s;
    match skip_ws s1 with
    | c :: s2 =>
      if c =? 93 then Some ([v], s2)
      else if c =? 44 then
        '(vs, s3) ← array_loop fuel (skip_ws s2); Some (v :: vs, s3)
      else None
    | [] => None
    end
  end.

(** [JSONArray], from the character after the bracket. *)
Definition parse_array (fuel : nat) (s : str) : option (json * str) :=
  match skip_ws s with
  | c :: r =>
    if c =? 93 then Some (JList [], r)
    else '(vs, r') ← array_loop fuel (c :: r); Some (JList vs, r')
  | [] => None
  end.
End Containers.

(** [scan_once(string, idx)] *)
Fixpoint scan_once (fuel : nat) (s : str) : option (json * str) :=
  match fuel with
  | O => None
  | S fuel =>
    match s with
    | [] => None
    | c :: r =>
      if c =? 34 then '(t, r') ← scanstring (length r) r; Some (JStr t, r')
      else if c =? 123 then parse_object (scan_once fuel) fuel r
      else if c =? 91 then parse_array (scan_once fuel) fuel r
      else if startswith s (lit "null") then Some (JNull, drop 4 s)
      else if startswith s (lit "true") then Some (JBool true, drop 4 s)
      else if startswith s (lit "false") then Some (JBool false, drop 5 s)
      else match_number s
    end
  end.

(** [json.loads(s)] *)
Definition json_loads (s : str) : res json :=
  if startswith s [0xFEFF] then Raise JSONDecodeError
  else
    match scan_once (S (length s)) (skip_ws s) with
    | Some (j, r) =>
      match skip_ws r with
      | [] => Ok j
      | _ => Raise JSONDecodeError
      end
    | None => Raise JSONDecodeError
    end.

(** The objects the decoder builds for a document: the members of a
    container first, then the container, an object through [dict(pairs)]. *)
Fixpoint build (j : json) (h : heap) : value * heap :=
  match j with
  | JNull => (VNone, h)
  | JBool b => (VBool b, h)
  | JInt n => (VInt n, h)
  | JStr s => (VStr s, h)
  | JList l =>
    let '(vs, h') :=
      (fix elems (l : list json) (h : heap) : list value * heap :=
         match l with
         | [] => ([], h)
         | x :: l' =>
           let '(v, h1) := build x h in
           let '(vs, h2) := elems l' h1 in
           (v :: vs, h2)
         end) l h in
    alloc (OList vs) h'
  | JDict d =>
    let '(ps, h') :=
      (fix members (d : list (str * json)) (h : heap) : dict * heap :=
         match d with
         | [] => ([], h)
         | (k, x) :: d' =>
           let '(v, h1) := build x h in
           let '(ps, h2) := members d' h1 in
           ((k, v) :: ps, h2)
         end) d h in
    alloc (ODict (dict_of_pairs ps)) h'
  end.

(** The two loops of [build], by name. *)
Fixpoint build_elems (l : list json) (h : heap) : list value * heap :=
  match l with
  | [] => ([], h)
  | x :: l' =>
    let '(v, h1) := build x h in
    let '(vs, h2) := build_elems l' h1 in
    (v :: vs, h2)
  end.

Fixpoint build_members (d : list (str * json)) (h : heap) : dict * heap :=
  match d with
  | [] => ([], h)
  | (k, x) :: d' =>
    let '(v, h1) := build x h in
    let '(ps, h2) := build_members d' h1 in
    ((k, v) :: ps, h2)
  end.

(** [json.load(f)], [f] open on [path] *)
Definition json_load (path : string) : M World value :=
  bind (read_text path) (fun s w =>
    match json_loads s with
    | Ok j =>
      let '(v, h) := build j (w_heap w) in
      (Ok v, mkWorld h (w_files w))
    | Raise e => (Raise e, w)
    end).

(** ** [default_tree] *)

Definition leaf (g : string) : json :=
  JDict [(lit "guess", JStr (lit g))].

Definition question (q : string) (y n : json) : json :=
  JDict [(lit "q", JStr (lit q)); (lit "yes", y); (lit "no", n)].

(** The dict display [default_tree] returns. *)
Definition default_tree_doc : json :=
  question "¿Es un jefe o te enfrentas a él/ella en combate principal?"
    (question "¿Es una entidad divina o regente del Reino?"
      (question "¿Está asociada directamente a la luz y los sueños?"
        (leaf "Radiancia")
        (leaf "Rey Pálido"))
      (question "¿Se presenta en plural o en equipo durante el combate?"
        (leaf "Señores Mantis")
        (question "¿Usa una aguja e hilo en combate?"
          (leaf "Hornet")
          (question "¿Lidera una troupe y es teatral?"
            (leaf "Grimm")
            (question "¿Es un recipiente silencioso sellado?"
              (leaf "Hollow Knight")
              (leaf "Nosk"))))))
    (question "¿Es cartógrafo y tararea mientras hace mapas?"
      (leaf "Cornifer")
      (question "¿Es fanfarrón y presume 57 preceptos?"
        (leaf "Zote el Poderoso")
        (question "¿Es un artista y maestro del aguijón retirado?"
          (leaf "Maestro del Aguijón Sheo")
          (question "¿Es aventurera con gran armadura?"
            (leaf "Cloth")
            (question "¿Es un explorador amable con casco azul?"
              (leaf "Quirrel")
              (question "¿Es una joven romántica que admira a Zote?"
                (leaf "Bretta")
                (question
                   "¿Busca gloria en el coliseo y tiene un destino trágico?"
                   (leaf "Tiso")
                   (leaf "El Caballero")))))))).

(** Evaluating a display builds its objects, the inner ones first. *)
Definition eval_display (j : json) : M World value :=
  fun w => let '(v, h) := build j (w_heap w) in (Ok v, mkWorld h (w_files w)).

Definition default_tree : M World value := eval_display default_tree_doc.

(** ** [load_tree], [load_stats], [save_stats] *)

Definition load_tree : M World value :=
  bind (path_exists DATA_FILE) (fun e =>
    if negb e then
      bind default_tree (fun t =>
      bind (save_tree t) (fun _ =>
      ret t))
    else json_load DATA_FILE).

Definition save_stats (stats : value) : M World unit :=
  bind (open_w STATS_FILE) (fun _ => json_dump stats STATS_FILE).

Definition load_stats : M World value :=
  bind (path_exists STATS_FILE) (fun e =>
    if negb e then
      bind (eval_display (JDict [(lit "played", JInt 0);
                                 (lit "wins", JInt 0);
                                 (lit "learned", JInt 0)])) (fun stats =>
      bind (save_stats stats) (fun _ =>
      ret stats))
    else json_load STATS_FILE).

(** ** [is_leaf] *)

Definition is_leaf (h : heap) (node : value) : bool :=
  match as_dict h node with
  | Some d => dict_in (lit "guess") d
  | None => false
  end.

(** ** [GameState] *)

Record GameState : Type := mkGameState {
  tree : value;
  path : list (value * str);
  node : value;
}.

(** [GameState(tree)] *)
Definition GameState_init (t : value) : GameState := mkGameState t [] t.

(** A method runs on its object and the world. *)
Definition Method (Self A : Type) : Type := M (Self * World) A.

(** A computation on the world, run from inside a method. *)
Definition in_world {Self A} (m : M World A) : Method Self A :=
  fun '(self, w) => let '(r, w') := m w in (r, (self, w')).

Definition restart : Method GameState unit :=
  fun '(self, w) => (Ok tt, (mkGameState (tree self) [] (tree self), w)).

Definition answer (ans : str) : Method GameState unit :=
  fun '(self, w) =>
    if is_leaf (w_heap w) (node self) then (Ok tt, (self, w))
    else
      let branch := if decide (ans = lit "yes") then lit "yes" else lit "no" in
      let self1 :=
        mkGameState (tree self) (path self ++ [(node self, branch)])
                    (node self) in
      match as_dict (w_heap w) (node self) with
      | None => (Raise AttributeError, (self1, w))
      | Some d =>
        match dict_get d branch with
        | Some child =>
          (Ok tt, (mkGameState (tree self1) (path self1) child, w))
        | None =>
          (* the default of [get], a new empty dict *)
          let '(child, h) := alloc (ODict []) (w_heap w) in
          (Ok tt, (mkGameState (tree self1) (path self1) child,
                   mkWorld h (w_files w)))
        end
      end.

(** [parent[side] = new_node] *)
Definition setitem (target : value) (k : str) (v : value) : M World unit :=
  fun w =>
    match target with
    | VRef a =>
      match w_heap w !! a with
      | Some (ODict d) =>
        (Ok tt, mkWorld (<[a := ODict (dict_set d k v)]> (w_heap w))
                        (w_files w))
      | _ => (Raise TypeError, w)
      end
    | _ => (Raise TypeError, w)
    end.

(** [target[k]] *)
Definition getitem (target : value) (k : str) : M World value :=
  fun w =>
    match target with
    | VRef a =>
      match w_heap w !! a with
      | Some (ODict d) =>
        match dict_get d k with
        | Some v => (Ok v, w)
        | None => (Raise KeyError, w)
        end
      | _ => (Raise TypeError, w)
      end
    | _ => (Raise TypeError, w)
    end.

(** A dict display with evaluated members. *)
Definition new_dict (d : dict) : M World value :=
  fun w => let '(v, h) := alloc (ODict d) (w_heap w) in
           (Ok v, mkWorld h (w_files w)).

Definition learn (true_name new_question : str) (answer_yes_for_new : bool)
    : Method GameState unit :=
  fun '(self, w) =>
    if negb (is_leaf (w_heap w) (node self)) then (Ok tt, (self, w))
    else
      let body : M World GameState :=
        bind (getitem (node self) (lit "guess")) (fun old_guess =>
        let q := normalize_question new_question in
        bind (new_dict [(lit "guess",
                         if answer_yes_for_new then VStr true_name
                         else old_guess)]) (fun yes =>
        bind (new_dict [(lit "guess",
                         if answer_yes_for_new then old_guess
                         else VStr true_name)]) (fun no =>
        bind (new_dict [(lit "q", VStr q); (lit "yes", yes); (lit "no", no)])
             (fun new_node =>
        match list.last (path self) with
        | None => ret (mkGameState new_node (path self) new_node)
        | Some (parent, side) =>
          bind (setitem parent side new_node) (fun _ =>
          ret (mkGameState (tree self) (path self) new_node))
        end)))) in
      match body w with
      | (Ok self', w') =>
        let '(r, w'') := save_tree (tree self') w' in (r, (self', w''))
      | (Raise e, w') => (Raise e, (self, w'))
      end.

(** The contents of the knowledge file while [save_tree] runs: after the
    [open], which cuts it to length zero, and after each [write].  These
    are the states in which a crash of the process can leave it. *)
Fixpoint write_trace (acc : list N) (cs : list str) : list (list N) :=
  match cs with
  | [] => []
  | c :: cs' =>
    match utf8_encode c with
    | Some bs => (acc ++ bs) :: write_trace (acc ++ bs) cs'
    | None => []
    end
  end.

Definition save_tree_trace (tree : value) (w : World) : list (list N) :=
  [] :: write_trace []
          (iterencode (S (length (w_heap w))) (w_heap w) [] 0 tree).1.

(** ** Statistics *)

(** [v + 1] *)
Definition add1 (v : value) : M World value :=
  match v with
  | VInt n => ret (VInt (n + 1))
  | VBool b => ret (VInt (Z.b2z b + 1))
  | _ => raise TypeError
  end.

(** [stats[k] += 1] *)
Definition incr (stats : value) (k : str) : M World unit :=
  bind (getitem stats k) (fun v =>
  bind (add1 v) (fun v' =>
  setitem stats k v')).

(** [stats.get(k, 0)] *)
Definition get_or_zero (stats : value) (k : str) : M World value :=
  fun w =>
    match as_dict (w_heap w) stats with
    | Some d => (Ok (default (VInt 0) (dict_get d k)), w)
    | None => (Raise AttributeError, w)
    end.

(** The counters of a correct guess: [on_button], lines 320-321. *)
Definition count_win (stats : value) : M World unit :=
  bind (incr stats (lit "played")) (fun _ =>
  incr stats (lit "wins")).

(** The counters of a learning: [learn_dialog], lines 348-349. *)
Definition count_learned (stats : value) : M World unit :=
  bind (incr stats (lit "played")) (fun _ =>
  bind (get_or_zero stats (lit "learned")) (fun v =>
  bind (add1 v) (fun v' =>
  setitem stats (lit "learned") v'))).

(** ** Floats

    The floats of [_update_status] and [show_stats] are IEEE 754 binary64
    numbers; their operations are those of the Standard Library's
    specification of floating-point arithmetic, which round to nearest,
    ties to even. *)

Definition float : Type := SpecFloat.spec_float.

Definition DBL_MANT_DIG : Z := 53%Z.
Definition DBL_MAX_EXP : Z := 1024%Z.

(** An [int] as the operand of a division: exact, whatever its size. *)
Definition int_operand (z : Z) : float :=
  match z with
  | Z0 => SpecFloat.S754_zero false
  | Zpos p => SpecFloat.S754_finite false p 0%Z
  | Zneg p => SpecFloat.S754_finite true p 0%Z
  end.

(** [a / b] on two [int]s ([long_true_divide]): the float nearest to the
    quotient; [ZeroDivisionError] on a zero divisor, [OverflowError] when
    the rounded quotient is too large for a float. *)
Definition int_true_divide (a b : Z) : res float :=
  if (b =? 0)%Z then Raise ZeroDivisionError
  else
    match SpecFloat.SFdiv DBL_MANT_DIG DBL_MAX_EXP
                          (int_operand a) (int_operand b) with
    | SpecFloat.S754_infinity _ => Raise OverflowError
    | f => Ok f
    end.

(** The float [100.0], to which [float * 100] converts its right operand. *)
Definition float_100 : float :=
  SpecFloat.binary_normalize DBL_MANT_DIG DBL_MAX_EXP 100%Z 0%Z false.

(** [x * 100] on a float: never raises, an overflow gives an infinity. *)
Definition times_100 (x : float) : float :=
  SpecFloat.SFmul DBL_MANT_DIG DBL_MAX_EXP x float_100.

(** The number a finite float stands for. *)
Definition float_value (x : float) : option Q :=
  match x with
  | SpecFloat.S754_zero _ => Some 0%Q
  | SpecFloat.S754_finite s m e =>
    let n := if s then Z.neg m else Z.pos m in
    Some (match e with
          | Z0 => inject_Z n
          | Zpos k => inject_Z (n * 2 ^ Z.pos k)%Z
          | Zneg k => Qmake n (2 ^ k)%positive
          end)
  | _ => None
  end.

(** A shifted mantissa that lost no digit. *)
Definition shr_exact (r : SpecFloat.shr_record) : Prop :=
  SpecFloat.shr_r r = false /\ SpecFloat.shr_s r = false.

(** A float that is zero or positive, finite, and not above [c * 2 ^ K]. *)
Definition float_below (c K : Z) (x : float) : Prop :=
  match x with
  | SpecFloat.S754_zero s => s = false
  | SpecFloat.S754_finite s m e =>
    s = false /\ (e <= K)%Z /\ (Z.pos m <= c * 2 ^ (K - e))%Z
    /\ (e <= 900)%Z /\ (Z.pos (SpecFloat.digits2_pos m) + e <= 900)%Z
  | _ => False
  end.

(** An [int] or a [bool], as a number. *)
Definition as_int (v : value) : option Z :=
  match v with
  | VInt n => Some n
  | VBool b => Some (Z.b2z b)
  | _ => None
  end.

(** [bool(v)] *)
Definition truthy (h : heap) (v : value) : bool :=
  match v with
  | VNone => false
  | VBool b => b
  | VInt n => negb (n =? 0)%Z
  | VStr s => negb (bool_decide (s = []))
  | VRef a =>
    match h !! a with
    | Some (ODict d) => negb (bool_decide (d = []))
    | Some (OList l) => negb (bool_decide (l = []))
    | None => false
    end
  end.

(** [x / y]: defined on [int] and [bool] operands; [None], a [str], a
    [dict] or a [list] as an operand raise [TypeError]. *)
Definition true_divide (x y : value) : res float :=
  match as_int x, as_int y with
  | Some a, Some b => int_true_divide a b
  | _, _ => Raise TypeError
  end.

(** [acc] of [_update_status] and [show_stats], lines 374-377 and 381-384:
    [(wins / played * 100) if played else 0.0], after the three [get]. *)
Definition accuracy (stats : value) : M World float :=
  bind (get_or_zero stats (lit "played")) (fun played =>
  bind (get_or_zero stats (lit "wins")) (fun wins =>
  bind (get_or_zero stats (lit "learned")) (fun learned w =>
    if truthy (w_heap w) played then
      match true_divide wins played with
      | Ok q => (Ok (times_100 q), w)
      | Raise e => (Raise e, w)
      end
    else (Ok (SpecFloat.S754_zero false), w)))).

(** The accuracy as the specification words it: [wins / played * 100] when
    [played > 0], else [0.0]. *)
Definition accuracy_spec (played wins : Z) : float :=
  if (0 <? played)%Z then
    times_100 (SpecFloat.SFdiv DBL_MANT_DIG DBL_MAX_EXP
                               (int_operand wins) (int_operand played))
  else SpecFloat.S754_zero false.

(** ** [App]: the commands behind the window *)

Record App : Type := mkApp {
  app_tree : value;
  state : GameState;
  stats : value;
}.

(** The message box a command ends with. *)
Inductive dialog : Type :=
| ShowInfo (title : string)
| ShowError (e : exn).

(** What the user types into the dialogs of [learn_dialog]. *)
Record Replies : Type := mkReplies {
  reply_name : option str;
  reply_question : option str;
  reply_yes : bool;
}.

(** A method of [self.state], run from a method of the application. *)
Definition on_state {A} (m : Method GameState A) : Method App A :=
  fun '(app, w) =>
    let '(r, (gs, w')) := m (state app, w) in
    (r, (mkApp (app_tree app) gs (stats app), w')).

(** What [current_text] returns: the prompt built around the guess of a
    leaf, or what a question node holds under [q]. *)
Inductive label : Type :=
| Prompt (guess : value)
| Text (q : value).

Definition current_text : Method GameState label :=
  fun '(self, w) =>
    if is_leaf (w_heap w) (node self) then
      bind (in_world (getitem (node self) (lit "guess")))
           (fun guess => ret (Prompt guess)) (self, w)
    else
      match as_dict (w_heap w) (node self) with
      | Some d =>
        (Ok (Text (default (VStr (lit "¿...?")) (dict_get d (lit "q")))),
         (self, w))
      | None => (Raise AttributeError, (self, w))
      end.

(** [_update_status]: the counters are read and the accuracy computed for
    the text of the status line. *)
Definition update_status : Method App unit :=
  fun '(app, w) =>
    in_world (bind (accuracy (stats app)) (fun _ => ret tt)) (app, w).

(** [self.label.config(text=self.state.current_text())] and
    [self._update_status()], the end of [_render], [new_game] and
    [on_button]; the widgets themselves are not modelled. *)
Definition show_state : Method App unit :=
  bind (on_state current_text) (fun _ => update_status).

Definition new_game : Method App unit :=
  bind (fun '(app, w) =>
          (Ok tt,
           (mkApp (app_tree app) (GameState_init (tree (state app)))
                  (stats app), w))) (fun _ =>
  show_state).

(** [not s] for an optional string *)
Definition falsy (s : option str) : bool :=
  match s with
  | None | Some [] => true
  | Some _ => false
  end.

Definition learn_dialog (wrong_guess : value) (r : Replies)
    : Method App (option dialog) :=
  if falsy (reply_name r) then ret None
  else if falsy (reply_question r) then ret None
  else
    let true_name := default [] (reply_name r) in
    let q := default [] (reply_question r) in
    bind (on_state (learn (strip true_name) (strip q) (reply_yes r))) (fun _ =>
    bind (fun '(app, w) => in_world (count_learned (stats app)) (app, w))
         (fun _ =>
    bind (fun '(app, w) => in_world (save_tree (tree (state app))) (app, w))
         (fun _ =>
    bind (fun '(app, w) => in_world (save_stats (stats app)) (app, w))
         (fun _ =>
    bind new_game (fun _ =>
    ret (Some (ShowInfo "Aprendido"))))))).

(** The box of a correct guess, like the one of [learn_dialog], is shown
    before [new_game] runs: when [new_game] raises, the exception is the
    result of the command. *)
Definition on_button (which : str) (r : Replies)
    : Method App (option dialog) :=
  fun '(app, w) =>
    if is_leaf (w_heap w) (node (state app)) then
      bind (in_world (getitem (node (state app)) (lit "guess"))) (fun guess =>
        if decide (which = lit "yes") then
          bind (in_world (count_win (stats app))) (fun _ =>
          bind (in_world (save_stats (stats app))) (fun _ =>
          bind new_game (fun _ =>
          ret (Some (ShowInfo "¡Adiviné!")))))
        else learn_dialog guess r) (app, w)
    else
      bind (on_state (answer which)) (fun _ =>
      bind show_state (fun _ =>
      ret None)) (app, w).

(** [isinstance(new_tree, dict) and ("q" in new_tree or "guess" in new_tree)] *)
Definition looks_like_tree (h : heap) (v : value) : bool :=
  match as_dict h v with
  | Some d => dict_in (lit "q") d || dict_in (lit "guess") d
  | None => false
  end.

(** [import_tree]; [fname] is the answer of the file dialog. *)
Definition import_tree (fname : string) : Method App (option dialog) :=
  if decide (fname = EmptyString) then ret None
  else
    try_except
      (bind (in_world (json_load fname)) (fun new_tree =>
       bind get (fun '(_, w) =>
       if negb (looks_like_tree (w_heap w) new_tree)
       then raise (ValueError
                     "El archivo no parece un árbol de decisiones válido.")
       else
         bind (fun '(app, w) =>
                 (Ok tt,
                  (mkApp (app_tree app)
                         (mkGameState new_tree (path (state app))
                                      (node (state app)))
                         (stats app), w))) (fun _ =>
         bind (in_world (save_tree new_tree)) (fun _ =>
         bind new_game (fun _ =>
         ret (Some (ShowInfo "Importado"))))))))
      (fun e => ret (Some (ShowError e))).


(** [App.__init__], without the window: the tree and the statistics are
    loaded, and [_render] shows the first text and the status line. *)
Definition App_init : M World App :=
  bind load_tree (fun t =>
  bind load_stats (fun s w =>
    let app := mkApp t (GameState_init t) s in
    let '(r, (app', w')) := show_state (app, w) in
    (match r with Ok _ => Ok app' | Raise e => Raise e end, w'))).

(** ** The states of a session *)

(** The two states of a session. *)
Definition Guessing (self : GameState) (w : World) : Prop :=
  is_leaf (w_heap w) (node self) = true.

(** The current node is a question node: a dict without [guess] whose
    [yes] and [no] children are [y] and [n]. *)
Definition Asking (self : GameState) (w : World) (y n : value) : Prop :=
  exists d, as_dict (w_heap w) (node self) = Some d
            /\ dict_in (lit "guess") d = false
            /\ dict_get d (lit "yes") = Some y
            /\ dict_get d (lit "no") = Some n.

(** The store with nothing in it and no file, and the store once
    [default_tree()] has been evaluated there: its root is the last object
    built. *)
Definition empty_world : World := mkWorld [] ∅.
Definition seed_world : World := (default_tree empty_world).2.
Definition seed_root : value := VRef 28%nat.

(** ** Terminal outcomes of a game *)

Inductive outcome : Type := Win | Learned.

Definition count (stats : value) (o : outcome) : M World unit :=
  match o with
  | Win => count_win stats
  | Learned => count_learned stats
  end.

Fixpoint count_all (stats : value) (os : list outcome) : M World unit :=
  match os with
  | [] => ret tt
  | o :: os' => bind (count stats o) (fun _ => count_all stats os')
  end.

(** The statistics dict with the given counters, in the order [load_stats]
    creates it. *)
Definition stats_dict (played wins learned : Z) : dict :=
  [(lit "played", VInt played); (lit "wins", VInt wins);
   (lit "learned", VInt learned)].

(** The number of correct guesses and of learnings in a sequence. *)
Fixpoint wins_of (os : list outcome) : Z :=
  match os with
  | [] => 0
  | Win :: os' => 1 + wins_of os'
  | Learned :: os' => wins_of os'
  end.

Fixpoint learned_of (os : list outcome) : Z :=
  match os with
  | [] => 0
  | Win :: os' => learned_of os'
  | Learned :: os' => 1 + learned_of os'
  end.

(** The root of the document has neither a [q] nor a [guess] member. *)
Definition lacks_both (j : json) : Prop :=
  match j with
  | JDict d => (lit "q" ∉ d.*1) /\ (lit "guess" ∉ d.*1)
  | _ => True
  end.

(** [save_tree] is atomic when a crash leaves the knowledge file either as
    it was or completely rewritten. *)
Definition atomic_save (tree : value) (w : World) : Prop :=
  forall c, c ∈ save_tree_trace tree w ->
    w_files w !! DATA_FILE = Some c
    \/ w_files (save_tree tree w).2 !! DATA_FILE = Some c.

(** The world after the first start of the program: the default tree is in
    the store and in the knowledge file. *)
Definition first_run_world : World := (load_tree empty_world).2.

(** ** The decision tree in the store

    The tree the nested dicts stand for: a leaf is a dict with the single
    key [guess], a question a dict with the keys [q], [yes] and [no], in any
    order. *)

Inductive TreeNode : Type :=
| Leaf (guess : str)
| Question (q : str) (yes no : TreeNode).

(** [repr h v t F]: in the store [h] the value [v] is the root of the tree
    [t], whose dicts are the objects at the addresses [F]; no dict is
    reached twice. *)
Inductive repr (h : heap) : value -> TreeNode -> gset addr -> Prop :=
| repr_leaf (a : addr) (g : str) :
    h !! a = Some (ODict [(lit "guess", VStr g)]) ->
    repr h (VRef a) (Leaf g) {[a]}
| repr_question (a : addr) (d : dict) (q : str) (vy vn : value)
    (y n : TreeNode) (Fy Fn : gset addr) :
    h !! a = Some (ODict d) ->
    d ≡ₚ [(lit "q", VStr q); (lit "yes", vy); (lit "no", vn)] ->
    repr h vy y Fy ->
    repr h vn n Fn ->
    a ∉ Fy -> a ∉ Fn -> Fy ## Fn ->
    repr h (VRef a) (Question q y n) ({[a]} ∪ Fy ∪ Fn).

(** [walk h v p v']: the path [p] records a descent from [v] to [v']: each
    entry holds a question node and the branch taken from it. *)
Inductive walk (h : heap) : value -> list (value * str) -> value -> Prop :=
| walk_nil (v : value) : walk h v [] v
| walk_cons (v : value) (d : dict) (b : str) (child : value)
    (p : list (value * str)) (v' : value) :
    as_dict h v = Some d ->
    dict_in (lit "guess") d = false ->
    b = lit "yes" \/ b = lit "no" ->
    dict_get d b = Some child ->
    walk h child p v' ->
    walk h v ((v, b) :: p) v'.

(** The subtree reached by a sequence of branches. *)
Fixpoint subtree (t : TreeNode) (bs : list str) : option TreeNode :=
  match bs, t with
  | [], _ => Some t
  | b :: bs', Question _ y n =>
    if decide (b = lit "yes") then subtree y bs' else subtree n bs'
  | _ :: _, Leaf _ => None
  end.

(** The tree with the subtree at [bs] replaced by [new]. *)
Fixpoint graft (t : TreeNode) (bs : list str) (new : TreeNode) : TreeNode :=
  match bs, t with
  | [], _ => new
  | b :: bs', Question q y n =>
    if decide (b = lit "yes") then Question q (graft y bs' new) n
    else Question q y (graft n bs' new)
  | _ :: _, Leaf g => Leaf g
  end.

Fixpoint leaves (t : TreeNode) : nat :=
  match t with
  | Leaf _ => 1
  | Question _ y n => leaves y + leaves n
  end.

Fixpoint questions (t : TreeNode) : nat :=
  match t with
  | Leaf _ => 0
  | Question _ y n => S (questions y + questions n)
  end.

(** The document of a tree, its keys in the order of the source. *)
Fixpoint tree_doc (t : TreeNode) : json :=
  match t with
  | Leaf g => JDict [(lit "guess", JStr g)]
  | Question q y n =>
    JDict [(lit "q", JStr q); (lit "yes", tree_doc y); (lit "no", tree_doc n)]
  end.

(** The tree of [default_tree]. *)
Definition tleaf (g : string) : TreeNode := Leaf (lit g).
Definition tquestion (q : string) (y n : TreeNode) : TreeNode :=
  Question (lit q) y n.

(** A sequence of answers. *)
Fixpoint answers (cs : list str) : Method GameState unit :=
  match cs with
  | [] => ret tt
  | c :: cs' => bind (answer c) (fun _ => answers cs')
  end.

Definition default_tree_t : TreeNode :=
  tquestion "¿Es un jefe o te enfrentas a él/ella en combate principal?"
    (tquestion "¿Es una entidad divina o regente del Reino?"
      (tquestion "¿Está asociada directamente a la luz y los sueños?"
        (tleaf "Radiancia")
        (tleaf "Rey Pálido"))
      (tquestion "¿Se presenta en plural o en equipo durante el combate?"
        (tleaf "Señores Mantis")
        (tquestion "¿Usa una aguja e hilo en combate?"
          (tleaf "Hornet")
          (tquestion "¿Lidera una troupe y es teatral?"
            (tleaf "Grimm")
            (tquestion "¿Es un recipiente silencioso sellado?"
              (tleaf "Hollow Knight")
              (tleaf "Nosk"))))))
    (tquestion "¿Es cartógrafo y tararea mientras hace mapas?"
      (tleaf "Cornifer")
      (tquestion "¿Es fanfarrón y presume 57 preceptos?"
        (tleaf "Zote el Poderoso")
        (tquestion "¿Es un artista y maestro del aguijón retirado?"
          (tleaf "Maestro del Aguijón Sheo")
          (tquestion "¿Es aventurera con gran armadura?"
            (tleaf "Cloth")
            (tquestion "¿Es un explorador amable con casco azul?"
              (tleaf "Quirrel")
              (tquestion "¿Es una joven romántica que admira a Zote?"
                (tleaf "Bretta")
                (tquestion
                   "¿Busca gloria en el coliseo y tiene un destino trágico?"
                   (tleaf "Tiso")
                   (tleaf "El Caballero")))))))).

(** The branch [answer] takes for an answer. *)
Definition branch_of (ans : str) : str :=
  if decide (ans = lit "yes") then lit "yes" else lit "no".

(** ** The text of a document

    What [json.dump(obj, fp, ensure_ascii=False, indent=2)] writes for a
    document, as one text: the items of a container one per line, two spaces
    deeper than the container, separated by "," and followed by the
    closing line. *)
Fixpoint dumps (lvl : nat) (j : json) : str :=
  match j with
  | JNull => lit "null"
  | JBool true => lit "true"
  | JBool false => lit "false"
  | JInt n => intstr n
  | JStr s => encode_basestring s
  | JList [] => [91; 93]
  | JList l =>
    91 :: newline_indent (S lvl)
    ++ (fix elems (l : list json) : str :=
          match l with
          | [] => []
          | x :: l' =>
            dumps (S lvl) x
            ++ match l' with
               | [] => newline_indent lvl
               | _ => 44 :: newline_indent (S lvl)
               end
            ++ elems l'
          end) l
    ++ [93]
  | JDict [] => [123; 125]
  | JDict d =>
    123 :: newline_indent (S lvl)
    ++ (fix members (d : list (str * json)) : str :=
          match d with
          | [] => []
          | (k, x) :: d' =>
            encode_basestring k ++ [58; 32] ++ dumps (S lvl) x
            ++ match d' with
               | [] => newline_indent lvl
               | _ => 44 :: newline_indent (S lvl)
               end
            ++ members d'
          end) d
    ++ [125]
  end.

(** The members of an object of level [lvl], by name. *)
Fixpoint dumps_members (lvl : nat) (d : list (str * json)) : str :=
  match d with
  | [] => []
  | (k, x) :: d' =>
    encode_basestring k ++ [58; 32] ++ dumps (S lvl) x
    ++ match d' with
       | [] => newline_indent lvl
       | _ => 44 :: newline_indent (S lvl)
       end
    ++ dumps_members lvl d'
  end.

(** Documents made of objects, strings and integers. *)
Fixpoint plain (j : json) : bool :=
  match j with
  | JStr _ | JInt _ => true
  | JDict d => forallb (fun kv => plain kv.2) d
  | _ => false
  end.

(** A bound on the steps the scanner needs for a document. *)
Fixpoint jsize (j : json) : nat :=
  match j with
  | JList l => S (list_sum (map (fun x => S (jsize x)) l))
  | JDict d => S (list_sum (map (fun kv => S (jsize kv.2)) d))
  | _ => 1
  end.

(** [j] is a document of the tree [t]: the members of a question in any
    order. *)
Inductive is_doc : json -> TreeNode -> Prop :=
| is_doc_leaf (g : str) : is_doc (JDict [(lit "guess", JStr g)]) (Leaf g)
| is_doc_question (d : list (str * json)) (q : str) (jy jn : json)
    (y n : TreeNode) :
    d ≡ₚ [(lit "q", JStr q); (lit "yes", jy); (lit "no", jn)] ->
    is_doc jy y -> is_doc jn n ->
    is_doc (JDict d) (Question q y n).

(** Every string of the tree can be written to a UTF-8 file: it holds no
    surrogate code point (and nothing above U+10FFFF, which no Python
    string holds). *)
Fixpoint encodable (t : TreeNode) : Prop :=
  match t with
  | Leaf g => is_Some (utf8_encode g)
  | Question q y n => is_Some (utf8_encode q) /\ encodable y /\ encodable n
  end.

(** Saving the tree at [v] and loading it again gives the tree [t] back. *)
Definition round_trips (v : value) (t : TreeNode) (w : World) : Prop :=
  exists w1 v' w2 F',
    save_tree v w = (Ok tt, w1)
    /\ load_tree w1 = (Ok v', w2)
    /\ repr (w_heap w2) v' t F'.

(** What follows a value in a text of [json.dump]: the end of the text, a
    new line or a comma. *)
Definition delimited (rest : str) : bool :=
  match rest with
  | [] => true
  | c :: _ => (c =? 10) || (c =? 44)
  end.

(** [scan] reads the document [j] of level [S lvl] back. *)
Definition reads (scan : str -> option (json * str)) (lvl : nat) (j : json)
    : Prop :=
  forall rest, delimited rest = true ->
               scan (dumps (S lvl) j ++ rest) = Some (j, rest).

(** The first digit is not a zero. *)
Definition starts_nz (d : Decimal.uint) : bool :=
  match d with
  | Decimal.Nil | Decimal.D0 _ => false
  | _ => true
  end.

(** The chunk can be written to a UTF-8 file. *)
Definition enc_ok (c : str) : Prop := is_Some (utf8_encode c).

(** [export_tree]; [fname] is the answer of the file dialog. *)
Definition export_tree (fname : string) : Method App (option dialog) :=
  if decide (fname = EmptyString) then ret None
  else
    try_except
      (bind (fun '(app, w) =>
               in_world (bind (open_w fname)
                              (fun _ => json_dump (tree (state app)) fname))
                        (app, w)) (fun _ =>
       ret (Some (ShowInfo "Exportado"))))
      (fun e => ret (Some (ShowError e))).

(** A dict of integers, as the statistics are, and its document. *)
Definition int_dict (l : list (str * Z)) : dict :=
  map (fun kn => (kn.1, VInt kn.2)) l.

Definition int_doc (l : list (str * Z)) : json :=
  JDict (map (fun kn => (kn.1, JInt kn.2)) l).



(** A session on the tree [t]: the tree of the session is [t], without
    shared nodes, and the path records a descent from its root to the
    current node. *)
Definition session (self : GameState) (w : World) (t : TreeNode) : Prop :=
  exists F, repr (w_heap w) (tree self) t F
            /\ walk (w_heap w) (tree self) (path self) (node self).

(** * Properties *)

(** ** Lemmas on stripping *)

Lemma lstrip_app_nonspace (s : str) (c : char) (t : str) :
  isspace c = false ->
  lstrip (s ++ c :: t) = lstrip (s ++ [c]) ++ t.
Proof.
  intros Hc. induction s as [|a s IH]; simpl.
  - rewrite Hc. reflexivity.
  - destruct (isspace a); [exact IH|].
    simpl. rewrite <- List.app_assoc. reflexivity.
Qed.

Lemma lstrip_all_space (s : str) :
  forallb isspace s = true -> lstrip s = [].
Proof.
  induction s as [|a s IH]; simpl; [reflexivity|].
  destruct (isspace a); simpl; [exact IH|discriminate].
Qed.

Lemma lstrip_head (s : str) :
  match lstrip s with
  | [] => True
  | c :: _ => isspace c = false
  end.
Proof.
  induction s as [|a s IH]; simpl; [exact I|].
  destruct (isspace a) eqn:E; [exact IH|exact E].
Qed.

Lemma lstrip_id (s : str) :
  match s with [] => True | c :: _ => isspace c = false end ->
  lstrip s = s.
Proof.
  destruct s as [|c s]; simpl; [reflexivity|].
  intros ->. reflexivity.
Qed.

Lemma lstrip_idem (s : str) : lstrip (lstrip s) = lstrip s.
Proof. apply lstrip_id, lstrip_head. Qed.

Lemma rstrip_idem (s : str) : rstrip (rstrip s) = rstrip s.
Proof.
  unfold rstrip. rewrite rev_involutive, lstrip_idem. reflexivity.
Qed.

Lemma rstrip_snoc_nonspace (s : str) (c : char) :
  isspace c = false -> rstrip (s ++ [c]) = s ++ [c].
Proof.
  intros Hc. unfold rstrip. rewrite rev_app_distr. simpl.
  rewrite Hc. change (c :: rev s) with (rev [c] ++ rev s).
  rewrite <- rev_app_distr, rev_involutive. reflexivity.
Qed.

(** Dropping trailing blanks keeps the first character. *)
Lemma rstrip_head (s : str) :
  match s with [] => True | c :: _ => isspace c = false end ->
  match rstrip s with [] => True | c :: _ => isspace c = false end.
Proof.
  intros Hs. unfold rstrip.
  induction s as [|a s IH] using rev_ind; [exact I|].
  rewrite rev_app_distr. simpl.
  destruct (isspace a) eqn:Ea.
  - destruct s as [|b s]; simpl in *; [congruence|].
    apply IH. exact Hs.
  - change (a :: rev s) with (rev [a] ++ rev s).
    rewrite <- rev_app_distr, rev_involutive. exact Hs.
Qed.

Lemma strip_head (s : str) :
  match strip s with [] => True | c :: _ => isspace c = false end.
Proof. apply rstrip_head, lstrip_head. Qed.

Lemma strip_last (s : str) :
  match list.last (strip s) with None => True | Some c => isspace c = false end.
Proof.
  unfold strip, rstrip.
  pose proof (lstrip_head (rev (lstrip s))) as H.
  destruct (lstrip (rev (lstrip s))) as [|c t]; simpl; [exact I|].
  rewrite last_snoc. exact H.
Qed.

Lemma strip_fixed (s : str) :
  match s with [] => True | c :: _ => isspace c = false end ->
  match list.last s with None => True | Some c => isspace c = false end ->
  strip s = s.
Proof.
  intros Hh Hl. unfold strip. rewrite (lstrip_id s Hh).
  destruct s as [|a s] using rev_ind; [reflexivity|].
  rewrite last_snoc in Hl. apply rstrip_snoc_nonspace, Hl.
Qed.

Lemma strip_idem (s : str) : strip (strip s) = strip s.
Proof. apply strip_fixed; [apply strip_head|apply strip_last]. Qed.

Lemma endswith_snoc (s : str) (c : char) : endswith (s ++ [c]) [c] = true.
Proof.
  unfold endswith. apply bool_decide_eq_true.
  rewrite length_app. simpl.
  replace (length s + 1 - 1)%nat with (length s) by lia.
  rewrite drop_app_length. reflexivity.
Qed.

Lemma endswith_last (s : str) (c : char) :
  endswith s [c] = true <-> list.last s = Some c.
Proof.
  unfold endswith. rewrite bool_decide_eq_true.
  destruct s as [|a s] using rev_ind; simpl.
  - split; discriminate.
  - rewrite last_snoc, length_app. simpl.
    replace (length s + 1 - 1)%nat with (length s) by lia.
    rewrite drop_app_length. split; intros [= ->]; reflexivity.
Qed.

(** The result of [normalize_question] always ends with a question mark. *)
Lemma normalize_question_endswith (q : str) :
  endswith (normalize_question q) (lit "?") = true.
Proof.
  unfold normalize_question.
  destruct (endswith (strip q) (lit "?")) eqn:E; simpl; [exact E|].
  apply endswith_snoc.
Qed.

Lemma normalize_question_strip_fixed (q : str) :
  strip (normalize_question q) = normalize_question q.
Proof.
  unfold normalize_question.
  destruct (endswith (strip q) (lit "?")) eqn:E; simpl.
  - apply strip_idem.
  - apply strip_fixed.
    + pose proof (strip_head q) as H.
      destruct (strip q); simpl; [reflexivity|exact H].
    + change (lit "?") with [63]. rewrite last_snoc. reflexivity.
Qed.

(** C5. [normalize_question] strips the surrounding whitespace and appends
    a question mark exactly when the stripped text does not end with one;
    it sends "abc" and " abc? " to "abc?", and applying it twice is the same
    as applying it once. *)
Theorem normalize_question_spec (s : str) :
  normalize_question s
  = (if endswith (strip s) (lit "?") then strip s else strip s ++ lit "?")
  /\ normalize_question (lit "abc") = lit "abc?"
  /\ normalize_question (lit " abc? ") = lit "abc?"
  /\ normalize_question (normalize_question s) = normalize_question s.
Proof.
  split; [|split; [|split]].
  - unfold normalize_question.
    destruct (endswith (strip s) (lit "?")); reflexivity.
  - reflexivity.
  - reflexivity.
  - unfold normalize_question at 1.
    rewrite normalize_question_strip_fixed, normalize_question_endswith.
    reflexivity.
Qed.

(** ** The session: [restart] and [answer] *)

(** C9. [restart] empties the path and puts the current node back on the
    root of the tree; the tree (the root and every object of the store) is
    unchanged. *)
Theorem restart_spec (self : GameState) (w : World) :
  exists self' w',
    restart (self, w) = (Ok tt, (self', w'))
    /\ path self' = [] /\ node self' = tree self
    /\ tree self' = tree self /\ w' = w.
Proof. exists (mkGameState (tree self) [] (tree self)), w. repeat split. Qed.

(** C4. On a leaf [answer] changes nothing; on a question node it appends
    the pair of the current node and the choice to the path and moves to
    the child of that branch. *)
Theorem answer_spec (self : GameState) (w : World) (yes_chosen : bool)
    (y n : value) :
  let choice := if yes_chosen then lit "yes" else lit "no" in
  (Guessing self w -> answer choice (self, w) = (Ok tt, (self, w)))
  /\ (Asking self w y n ->
      answer choice (self, w)
      = (Ok tt, (mkGameState (tree self)
                             (path self ++ [(node self, choice)])
                             (if yes_chosen then y else n), w))).
Proof.
  intros choice. split.
  - unfold Guessing, answer. intros ->. reflexivity.
  - intros (d & Hd & Hg & Hy & Hn). unfold answer, is_leaf.
    rewrite Hd, Hg. subst choice. destruct yes_chosen; simpl.
    + rewrite Hy. reflexivity.
    + rewrite Hn. reflexivity.
Qed.

(** C10. On a question node, an answer that is not exactly "yes" takes the
    "no" branch, as [answer("no")] does. *)
Theorem answer_not_yes (self : GameState) (w : World) (c : str) (y n : value) :
  Asking self w y n ->
  c <> lit "yes" ->
  answer c (self, w) = answer (lit "no") (self, w)
  /\ answer c (self, w)
     = (Ok tt, (mkGameState (tree self)
                            (path self ++ [(node self, lit "no")]) n, w)).
Proof.
  intros (d & Hd & Hg & Hy & Hn) Hc.
  assert (answer c (self, w)
          = (Ok tt, (mkGameState (tree self)
                                 (path self ++ [(node self, lit "no")]) n, w)))
    as E.
  { unfold answer, is_leaf. rewrite Hd, Hg.
    destruct (decide (c = lit "yes")) as [->|_]; [contradiction|].
    simpl. rewrite Hn. reflexivity. }
  split; [|exact E]. rewrite E.
  unfold answer, is_leaf. rewrite Hd, Hg. simpl. rewrite Hn. reflexivity.
Qed.

Lemma answer_spec_witness :
  answer (lit "yes") (mkGameState seed_root [] (VRef 0%nat), seed_world)
  = (Ok tt, (mkGameState seed_root [] (VRef 0%nat), seed_world))
  /\ answer (lit "yes") (GameState_init seed_root, seed_world)
     = (Ok tt, (mkGameState seed_root [(seed_root, lit "yes")] (VRef 12%nat),
                seed_world)).
Proof.
  split.
  - apply (answer_spec (mkGameState seed_root [] (VRef 0%nat)) seed_world true
                       VNone VNone).
    vm_compute. reflexivity.
  - apply (answer_spec (GameState_init seed_root) seed_world true
                       (VRef 12%nat) (VRef 27%nat)).
    eexists. repeat split; vm_compute; reflexivity.
Defined.

Lemma answer_not_yes_witness :
  answer (lit "tal vez") (GameState_init seed_root, seed_world)
  = answer (lit "no") (GameState_init seed_root, seed_world)
  /\ answer (lit "tal vez") (GameState_init seed_root, seed_world)
     = (Ok tt, (mkGameState seed_root [(seed_root, lit "no")] (VRef 27%nat),
                seed_world)).
Proof.
  apply (answer_not_yes (GameState_init seed_root) seed_world (lit "tal vez")
                        (VRef 12%nat) (VRef 27%nat)).
  - eexists. repeat split; vm_compute; reflexivity.
  - vm_compute. discriminate.
Defined.

(** ** Floats: rounding stays below a bound of the format *)

Section Floats.
Local Open Scope Z_scope.

Lemma digits2_size (p : positive) : SpecFloat.digits2_pos p = Pos.size p.
Proof. induction p; simpl; congruence. Qed.

Lemma Zdigits2_log2 (m : Z) : 0 < m -> SpecFloat.Zdigits2 m = Z.log2 m + 1.
Proof.
  destruct m as [|p|p]; try lia. intros _. simpl. rewrite digits2_size.
  destruct p; simpl; lia.
Qed.

Lemma Zdigits2_nonneg (m : Z) : 0 <= SpecFloat.Zdigits2 m.
Proof. destruct m; simpl; lia. Qed.

Lemma Zdigits2_le_pow2 (m k : Z) :
  0 <= k -> 0 <= m <= 2 ^ k -> SpecFloat.Zdigits2 m <= k + 1.
Proof.
  intros Hk [H0 Hm]. destruct (Z.eq_dec m 0) as [->|Hne]; [simpl; lia|].
  rewrite Zdigits2_log2 by lia.
  pose proof (Z.log2_le_mono m (2 ^ k) Hm). rewrite Z.log2_pow2 in H by lia.
  lia.
Qed.

Lemma Zdigits2_succ (m : Z) :
  0 <= m -> SpecFloat.Zdigits2 (m + 1) <= SpecFloat.Zdigits2 m + 1.
Proof.
  intros H0. destruct (Z.eq_dec m 0) as [->|Hne]; [simpl; lia|].
  rewrite !Zdigits2_log2 by lia.
  pose proof (Z.log2_succ_le m) as H. unfold Z.succ in H. lia.
Qed.

Lemma Zdigits2_shiftr (m n : Z) :
  0 <= m -> 0 <= n ->
  SpecFloat.Zdigits2 (Z.shiftr m n) <= Z.max 0 (SpecFloat.Zdigits2 m - n).
Proof.
  intros Hm Hn. destruct (Z.eq_dec m 0) as [->|Hne].
  { rewrite Z.shiftr_0_l. simpl. lia. }
  assert (0 <= Z.shiftr m n) as Hs by (apply Z.shiftr_nonneg; lia).
  destruct (Z.eq_dec (Z.shiftr m n) 0) as [->|Hs0]; [simpl; lia|].
  rewrite !Zdigits2_log2 by lia. rewrite Z.log2_shiftr by lia.
  assert (n <= Z.log2 m).
  { destruct (Z_lt_le_dec (Z.log2 m) n) as [Hlt|]; [|lia].
    exfalso. apply Hs0. apply Z.shiftr_eq_0; lia. }
  lia.
Qed.

Lemma shr_1_m (r : SpecFloat.shr_record) :
  0 <= SpecFloat.shr_m r ->
  SpecFloat.shr_m (SpecFloat.shr_1 r) = Z.div2 (SpecFloat.shr_m r).
Proof.
  destruct r as [m r s]. simpl. intros H.
  destruct m as [|[p|p|]|p]; try lia; reflexivity.
Qed.

Lemma iter_shr_1_m (p : positive) :
  forall r, 0 <= SpecFloat.shr_m r ->
    SpecFloat.shr_m (SpecFloat.iter_pos SpecFloat.shr_1 p r)
    = Z.shiftr (SpecFloat.shr_m r) (Z.pos p).
Proof.
  induction p as [p IH|p IH|]; intros r Hr; simpl SpecFloat.iter_pos.
  - assert (0 <= SpecFloat.shr_m (SpecFloat.shr_1 r)) as H1.
    { rewrite shr_1_m by exact Hr. apply Z.div2_nonneg. exact Hr. }
    rewrite IH; [|rewrite IH by exact H1; apply Z.shiftr_nonneg; exact H1].
    rewrite IH by exact H1. rewrite shr_1_m by exact Hr.
    rewrite Z.div2_spec, !Z.shiftr_shiftr by lia. f_equal. lia.
  - rewrite IH; [|rewrite IH by exact Hr; apply Z.shiftr_nonneg; exact Hr].
    rewrite IH by exact Hr. rewrite Z.shiftr_shiftr by lia. f_equal. lia.
  - rewrite shr_1_m by exact Hr. apply Z.div2_spec.
Qed.

Lemma shr_record_of_loc_m (m : Z) (l : SpecFloat.location) :
  SpecFloat.shr_m (SpecFloat.shr_record_of_loc m l) = m.
Proof. destruct l as [|[]]; reflexivity. Qed.

Lemma fexp_le (e : Z) :
  SpecFloat.fexp DBL_MANT_DIG DBL_MAX_EXP e = Z.max (e - 53) (-1074).
Proof. reflexivity. Qed.

Lemma shr_fexp_spec (m e : Z) (l : SpecFloat.location) :
  0 <= m ->
  let D := SpecFloat.Zdigits2 m + e in
  let '(r, e') := SpecFloat.shr_fexp DBL_MANT_DIG DBL_MAX_EXP m e l in
  0 <= SpecFloat.shr_m r
  /\ e' = Z.max e (Z.max (D - 53) (-1074))
  /\ SpecFloat.Zdigits2 (SpecFloat.shr_m r) + e' <= Z.max D (-1074).
Proof.
  intros Hm D. unfold SpecFloat.shr_fexp. fold D. rewrite fexp_le.
  unfold SpecFloat.shr.
  pose proof (Zdigits2_nonneg m) as Hd.
  destruct (Z.max (D - 53) (-1074) - e) as [|p|p] eqn:En.
  - rewrite shr_record_of_loc_m. split; [exact Hm|]. split; lia.
  - rewrite iter_shr_1_m by (rewrite shr_record_of_loc_m; exact Hm).
    rewrite shr_record_of_loc_m.
    split; [apply Z.shiftr_nonneg; exact Hm|]. split; [lia|].
    pose proof (Zdigits2_shiftr m (Z.pos p) Hm ltac:(lia)). lia.
  - rewrite shr_record_of_loc_m. split; [exact Hm|]. split; lia.
Qed.

Lemma round_nearest_even_bounds (m : Z) (l : SpecFloat.location) :
  0 <= m ->
  0 <= SpecFloat.round_nearest_even m l
  /\ SpecFloat.Zdigits2 (SpecFloat.round_nearest_even m l)
     <= SpecFloat.Zdigits2 m + 1.
Proof.
  intros Hm. pose proof (Zdigits2_succ m Hm).
  destruct l as [|[]]; simpl; try destruct (Z.even m); split; lia.
Qed.

Lemma binary_round_aux_finite (sx : bool) (mx ex : Z) (lx : SpecFloat.location) :
  0 <= mx ->
  ex <= 900 ->
  SpecFloat.Zdigits2 mx + ex <= 900 ->
  match SpecFloat.binary_round_aux DBL_MANT_DIG DBL_MAX_EXP sx mx ex lx with
  | SpecFloat.S754_zero s => s = sx
  | SpecFloat.S754_finite s m e =>
    s = sx /\ e <= 900
    /\ Z.pos (SpecFloat.digits2_pos m) + e
       <= Z.max (SpecFloat.Zdigits2 mx + ex) (-1074) + 1
  | _ => False
  end.
Proof.
  intros Hm He HD. unfold SpecFloat.binary_round_aux.
  pose proof (shr_fexp_spec mx ex lx Hm) as H1. cbv zeta in H1.
  destruct (SpecFloat.shr_fexp DBL_MANT_DIG DBL_MAX_EXP mx ex lx) as [r1 e1].
  destruct H1 as (Hr1 & He1 & HD1).
  pose proof (round_nearest_even_bounds (SpecFloat.shr_m r1)
                (SpecFloat.loc_of_shr_record r1) Hr1) as [Hn Hnd].
  set (m1 := SpecFloat.round_nearest_even (SpecFloat.shr_m r1)
               (SpecFloat.loc_of_shr_record r1)) in *.
  pose proof (shr_fexp_spec m1 e1 SpecFloat.loc_Exact Hn) as H2. cbv zeta in H2.
  destruct (SpecFloat.shr_fexp DBL_MANT_DIG DBL_MAX_EXP m1 e1 SpecFloat.loc_Exact)
    as [r2 e2].
  destruct H2 as (Hr2 & He2 & HD2).
  destruct (SpecFloat.shr_m r2) as [|m|m] eqn:Em; [reflexivity| |lia].
  assert (e2 <= 900) as Hb by lia.
  replace (e2 <=? DBL_MAX_EXP - DBL_MANT_DIG) with true
    by (symmetry; apply Z.leb_le; unfold DBL_MAX_EXP, DBL_MANT_DIG; lia).
  split; [reflexivity|]. split; [exact Hb|].
  change (SpecFloat.Zdigits2 (Z.pos m) + e2
          <= Z.max (SpecFloat.Zdigits2 mx + ex) (-1074) + 1).
  lia.
Qed.

Lemma SFdiv_le_one (a b : Z) :
  0 <= a <= b -> 0 < b ->
  match SpecFloat.SFdiv DBL_MANT_DIG DBL_MAX_EXP (int_operand a) (int_operand b)
  with
  | SpecFloat.S754_zero s => s = false
  | SpecFloat.S754_finite s m e =>
    s = false /\ e <= 900 /\ Z.pos (SpecFloat.digits2_pos m) + e <= 2
  | _ => False
  end.
Proof.
  intros [Ha Hab] Hb.
  destruct b as [|pb|pb]; try lia. destruct a as [|pa|pa]; try lia;
    [reflexivity|].
  cbn [int_operand SpecFloat.SFdiv xorb].
  unfold SpecFloat.SFdiv_core_binary. rewrite fexp_le.
  set (d1 := SpecFloat.Zdigits2 (Z.pos pa)).
  set (d2 := SpecFloat.Zdigits2 (Z.pos pb)).
  set (e' := Z.min (Z.max (d1 + 0 - (d2 + 0) - 53) (-1074)) (0 - 0)).
  assert (-1074 <= e' <= 0) as He' by (subst e'; lia).
  set (s := 0 - 0 - e').
  set (m' := match s with
             | 0 => Z.pos pa
             | Z.pos _ => Z.shiftl (Z.pos pa) s
             | Z.neg _ => 0
             end).
  assert (m' = Z.pos pa * 2 ^ s) as Em'.
  { subst m'. destruct s as [|ps|ps] eqn:Es; [lia| |lia].
    rewrite Z.shiftl_mul_pow2 by lia. reflexivity. }
  pose proof (Z_div_mod m' (Z.pos pb) ltac:(lia)) as Hdm.
  destruct (Z.div_eucl m' (Z.pos pb)) as [q r]. destruct Hdm as [Hq Hr].
  assert (0 <= s) as Hs by (subst s; lia).
  assert (0 < 2 ^ s) as Hp by (apply Z.pow_pos_nonneg; lia).
  assert (0 <= q <= 2 ^ s) as Hqb by nia.
  pose proof (Zdigits2_le_pow2 q s Hs Hqb) as Hdq.
  pose proof (binary_round_aux_finite false q e'
                (SpecFloat.new_location (Z.pos pb) r) ltac:(lia) ltac:(lia)
                ltac:(lia)) as Hfin.
  destruct (SpecFloat.binary_round_aux DBL_MANT_DIG DBL_MAX_EXP false q e'
              (SpecFloat.new_location (Z.pos pb) r)) as [sz|sz| |sz mz ez];
    try contradiction; [exact Hfin|].
  destruct Hfin as (Hsz & Hez & Hdz). split; [exact Hsz|]. split; [exact Hez|].
  subst s. lia.
Qed.

Lemma loc_of_shr_record_of_loc (m : Z) (l : SpecFloat.location) :
  SpecFloat.loc_of_shr_record (SpecFloat.shr_record_of_loc m l) = l.
Proof. destruct l as [|[]]; reflexivity. Qed.

Lemma shr_exact_loc (r : SpecFloat.shr_record) :
  shr_exact r <-> SpecFloat.loc_of_shr_record r = SpecFloat.loc_Exact.
Proof.
  destruct r as [m [] []]; unfold shr_exact; simpl; split;
    try intros [? ?]; try discriminate; auto.
Qed.

Lemma shr_1_exact (r : SpecFloat.shr_record) :
  shr_exact r -> 0 <= SpecFloat.shr_m r -> Z.even (SpecFloat.shr_m r) = true ->
  shr_exact (SpecFloat.shr_1 r).
Proof.
  destruct r as [m r s]. unfold shr_exact. simpl. intros [-> ->] Hm He.
  destruct m as [|[p|p|]|p]; simpl in *; try discriminate; try lia; auto.
Qed.

Lemma iter_pos_nat {A} (f : A -> A) (p : positive) :
  forall x, SpecFloat.iter_pos f p x = Nat.iter (Pos.to_nat p) f x.
Proof.
  induction p as [p IH|p IH|]; intros x; simpl SpecFloat.iter_pos.
  - rewrite !IH, Pos2Nat.inj_xI. simpl.
    replace (Pos.to_nat p + (Pos.to_nat p + 0))%nat
      with (Pos.to_nat p + Pos.to_nat p)%nat by lia.
    rewrite Nat.iter_add, <- !Nat.iter_succ_r. simpl.
    rewrite <- !Nat.iter_succ_r. reflexivity.
  - rewrite !IH, Pos2Nat.inj_xO. simpl.
    replace (Pos.to_nat p + (Pos.to_nat p + 0))%nat
      with (Pos.to_nat p + Pos.to_nat p)%nat by lia.
    rewrite Nat.iter_add. reflexivity.
  - reflexivity.
Qed.

Lemma iter_shr_1_exact (n : nat) :
  forall r, shr_exact r -> 0 <= SpecFloat.shr_m r ->
    SpecFloat.shr_m r mod 2 ^ Z.of_nat n = 0 ->
    shr_exact (Nat.iter n SpecFloat.shr_1 r).
Proof.
  induction n as [|n IH]; intros r Hx Hm Hd; [exact Hx|].
  rewrite Nat.iter_succ_r.
  rewrite Nat2Z.inj_succ, Z.pow_succ_r in Hd by lia.
  assert (0 < 2 ^ Z.of_nat n) as Hp by (apply Z.pow_pos_nonneg; lia).
  assert (exists k, SpecFloat.shr_m r = 2 * 2 ^ Z.of_nat n * k) as [k Hk].
  { exists (SpecFloat.shr_m r / (2 * 2 ^ Z.of_nat n)).
    apply Z.div_exact in Hd; lia. }
  apply IH.
  - apply shr_1_exact; [exact Hx|exact Hm|].
    rewrite Hk, <- !Z.mul_assoc. apply Z.even_mul.
  - rewrite shr_1_m by exact Hm. apply Z.div2_nonneg. exact Hm.
  - rewrite shr_1_m by exact Hm. rewrite Hk, <- !Z.mul_assoc, Z.div2_div.
    rewrite Z.mul_comm, Z.div_mul by lia. rewrite Z.mul_comm.
    apply Z.mod_mul. lia.
Qed.

Lemma Zdigits2_le_mul_pow2 (m c j : Z) :
  0 < c -> 0 <= j -> 0 <= m <= c * 2 ^ j ->
  SpecFloat.Zdigits2 m <= SpecFloat.Zdigits2 c + j.
Proof.
  intros Hc Hj [H0 Hm]. pose proof (Zdigits2_nonneg c).
  destruct (Z.eq_dec m 0) as [->|Hne]; [simpl; lia|].
  rewrite !Zdigits2_log2 by lia.
  pose proof (Z.log2_le_mono m (c * 2 ^ j) Hm) as H1.
  rewrite Z.log2_mul_pow2 in H1 by lia. lia.
Qed.

Lemma shiftr_mul_pow2 (c j n : Z) :
  0 <= n <= j -> Z.shiftr (c * 2 ^ j) n = c * 2 ^ (j - n).
Proof.
  intros Hn. rewrite Z.shiftr_div_pow2 by lia.
  replace j with ((j - n) + n) at 1 by lia.
  rewrite Z.pow_add_r by lia. rewrite Z.mul_assoc.
  apply Z.div_mul. apply Z.pow_nonzero; lia.
Qed.

(** Normalisation keeps a mantissa below a bound [c * 2 ^ K] of the
    format. *)
Lemma shr_fexp_le (mx ex : Z) (lx : SpecFloat.location) (c K : Z) :
  0 <= mx -> 0 < c -> SpecFloat.Zdigits2 c <= 53 -> -1074 <= K -> ex <= K ->
  mx <= c * 2 ^ (K - ex) ->
  (lx <> SpecFloat.loc_Exact -> mx < c * 2 ^ (K - ex)) ->
  let '(r, e') := SpecFloat.shr_fexp DBL_MANT_DIG DBL_MAX_EXP mx ex lx in
  e' <= K
  /\ 0 <= SpecFloat.shr_m r <= c * 2 ^ (K - e')
  /\ (SpecFloat.loc_of_shr_record r <> SpecFloat.loc_Exact ->
      SpecFloat.shr_m r < c * 2 ^ (K - e')).
Proof.
  intros Hm Hc Hdc HK Hex Hle Hlt.
  pose proof (Zdigits2_le_mul_pow2 mx c (K - ex) Hc ltac:(lia) ltac:(lia)) as Hd.
  unfold SpecFloat.shr_fexp. rewrite fexp_le. unfold SpecFloat.shr.
  destruct (Z.max (SpecFloat.Zdigits2 mx + ex - 53) (-1074) - ex) as [|p|p] eqn:En.
  - rewrite shr_record_of_loc_m, loc_of_shr_record_of_loc. auto.
  - rewrite iter_shr_1_m by (rewrite shr_record_of_loc_m; exact Hm).
    rewrite shr_record_of_loc_m.
    assert (0 <= Z.pos p <= K - ex) as Hn by lia.
    assert (Z.shiftr mx (Z.pos p) <= c * 2 ^ (K - (ex + Z.pos p))) as Hb.
    { replace (K - (ex + Z.pos p)) with (K - ex - Z.pos p) by lia.
      rewrite <- shiftr_mul_pow2 by lia.
      rewrite !Z.shiftr_div_pow2 by lia.
      apply Z.div_le_mono; [apply Z.pow_pos_nonneg; lia|exact Hle]. }
    split; [lia|]. split; [split; [apply Z.shiftr_nonneg; exact Hm|exact Hb]|].
    intros Hinex.
    destruct (Z_lt_le_dec (Z.shiftr mx (Z.pos p))
                          (c * 2 ^ (K - (ex + Z.pos p)))) as [|Hge]; [assumption|].
    exfalso. apply Hinex. apply shr_exact_loc.
    assert (mx = c * 2 ^ (K - ex)) as Emx.
    { apply Z.le_antisymm; [exact Hle|].
      assert (0 < 2 ^ Z.pos p) as Hp by (apply Z.pow_pos_nonneg; lia).
      rewrite Z.shiftr_div_pow2 in Hge by lia.
      pose proof (Z.mul_div_le mx (2 ^ Z.pos p) Hp) as H1.
      replace (K - ex) with ((K - (ex + Z.pos p)) + Z.pos p) by lia.
      rewrite Z.pow_add_r by lia. nia. }
    assert (lx = SpecFloat.loc_Exact) as ->.
    { destruct lx as [|c0]; [reflexivity|].
      exfalso. assert (mx < c * 2 ^ (K - ex)) by (apply Hlt; discriminate). lia. }
    rewrite iter_pos_nat. apply iter_shr_1_exact.
    + split; reflexivity.
    + exact Hm.
    + simpl SpecFloat.shr_m. rewrite positive_nat_Z, Emx.
      replace (K - ex) with ((K - ex - Z.pos p) + Z.pos p) by lia.
      rewrite Z.pow_add_r by lia. rewrite Z.mul_assoc. apply Z.mod_mul.
      apply Z.pow_nonzero; lia.
  - rewrite shr_record_of_loc_m, loc_of_shr_record_of_loc. auto.
Qed.

Lemma round_nearest_even_le (m : Z) (l : SpecFloat.location) (b : Z) :
  m <= b -> (l <> SpecFloat.loc_Exact -> m < b) ->
  SpecFloat.round_nearest_even m l <= b.
Proof.
  intros Hle Hlt. destruct l as [|c]; [exact Hle|].
  assert (m < b) by (apply Hlt; discriminate).
  destruct c; simpl; try destruct (Z.even m); lia.
Qed.

(** Rounding is monotone against a bound [c * 2 ^ K] of the format: what
    lies below the bound is rounded to a float below it. *)
Lemma binary_round_aux_le (sx : bool) (mx ex : Z) (lx : SpecFloat.location)
    (c K : Z) :
  0 <= mx -> 0 < c -> SpecFloat.Zdigits2 c <= 53 -> -1074 <= K -> ex <= K ->
  mx <= c * 2 ^ (K - ex) ->
  (lx <> SpecFloat.loc_Exact -> mx < c * 2 ^ (K - ex)) ->
  match SpecFloat.binary_round_aux DBL_MANT_DIG DBL_MAX_EXP sx mx ex lx with
  | SpecFloat.S754_finite _ m e => e <= K /\ Z.pos m <= c * 2 ^ (K - e)
  | _ => True
  end.
Proof.
  intros Hm Hc Hdc HK Hex Hle Hlt. unfold SpecFloat.binary_round_aux.
  pose proof (shr_fexp_le mx ex lx c K Hm Hc Hdc HK Hex Hle Hlt) as H1.
  destruct (SpecFloat.shr_fexp DBL_MANT_DIG DBL_MAX_EXP mx ex lx) as [r1 e1].
  destruct H1 as (He1 & [Hr1 Hb1] & Hx1).
  pose proof (round_nearest_even_bounds (SpecFloat.shr_m r1)
                (SpecFloat.loc_of_shr_record r1) Hr1) as [Hn _].
  pose proof (round_nearest_even_le _ _ _ Hb1 Hx1) as Hb.
  set (m1 := SpecFloat.round_nearest_even (SpecFloat.shr_m r1)
               (SpecFloat.loc_of_shr_record r1)) in *.
  pose proof (shr_fexp_le m1 e1 SpecFloat.loc_Exact c K Hn Hc Hdc HK He1 Hb
                ltac:(intros H; contradiction H; reflexivity)) as H2.
  destruct (SpecFloat.shr_fexp DBL_MANT_DIG DBL_MAX_EXP m1 e1 SpecFloat.loc_Exact)
    as [r2 e2].
  destruct H2 as (He2 & [Hr2 Hb2] & _).
  destruct (SpecFloat.shr_m r2) as [|m|m]; [exact I| |exact I].
  destruct (e2 <=? DBL_MAX_EXP - DBL_MANT_DIG); [|exact I].
  split; assumption.
Qed.

Lemma new_location_exact (n : Z) :
  SpecFloat.new_location n 0 = SpecFloat.loc_Exact.
Proof.
  unfold SpecFloat.new_location. destruct (Z.even n); reflexivity.
Qed.

Lemma SFdiv_below_one (a b : Z) :
  0 <= a <= b -> 0 < b ->
  float_below 1 0
    (SpecFloat.SFdiv DBL_MANT_DIG DBL_MAX_EXP (int_operand a) (int_operand b)).
Proof.
  intros [Ha Hab] Hb.
  pose proof (SFdiv_le_one a b (conj Ha Hab) Hb) as Hfin.
  destruct b as [|pb|pb]; try lia. destruct a as [|pa|pa]; try lia;
    [reflexivity|].
  revert Hfin. cbn [int_operand SpecFloat.SFdiv xorb].
  unfold SpecFloat.SFdiv_core_binary. rewrite fexp_le.
  set (d1 := SpecFloat.Zdigits2 (Z.pos pa)).
  set (d2 := SpecFloat.Zdigits2 (Z.pos pb)).
  set (e' := Z.min (Z.max (d1 + 0 - (d2 + 0) - 53) (-1074)) (0 - 0)).
  assert (-1074 <= e' <= 0) as He' by (subst e'; lia).
  set (s := 0 - 0 - e').
  set (m' := match s with
             | 0 => Z.pos pa
             | Z.pos _ => Z.shiftl (Z.pos pa) s
             | Z.neg _ => 0
             end).
  assert (m' = Z.pos pa * 2 ^ s) as Em'.
  { subst m'. destruct s as [|ps|ps] eqn:Es; [lia| |lia].
    rewrite Z.shiftl_mul_pow2 by lia. reflexivity. }
  pose proof (Z_div_mod m' (Z.pos pb) ltac:(lia)) as Hdm.
  destruct (Z.div_eucl m' (Z.pos pb)) as [q r]. destruct Hdm as [Hq Hr].
  assert (0 <= s) as Hs by (subst s; lia).
  assert (0 < 2 ^ s) as Hp by (apply Z.pow_pos_nonneg; lia).
  assert (0 <= q <= 2 ^ s) as Hqb by nia.
  assert (SpecFloat.new_location (Z.pos pb) r <> SpecFloat.loc_Exact
          -> q < 1 * 2 ^ (0 - e')) as Hlt.
  { intros Hl. assert (r <> 0) as Hr0.
    { intros ->. apply Hl, new_location_exact. }
    replace (0 - e') with s by (subst s; lia). nia. }
  pose proof (binary_round_aux_le false q e'
                (SpecFloat.new_location (Z.pos pb) r) 1 0 ltac:(lia) ltac:(lia)
                ltac:(simpl; lia) ltac:(lia) ltac:(lia)
                ltac:(replace (0 - e') with s by (subst s; lia); lia) Hlt)
    as Hle.
  destruct (SpecFloat.binary_round_aux DBL_MANT_DIG DBL_MAX_EXP false q e'
              (SpecFloat.new_location (Z.pos pb) r)) as [sz|sz| |sz mz ez];
    intros Hfin; try contradiction; [exact Hfin|].
  destruct Hfin as (Hsz & Hez & Hdz). destruct Hle as [HeK Hm].
  unfold float_below. repeat split; try assumption; lia.
Qed.

Lemma float_100_eq :
  float_100 = SpecFloat.S754_finite false 7036874417766400 (-46).
Proof. vm_compute. reflexivity. Qed.

Lemma times_100_below (x : float) :
  float_below 1 0 x -> float_below 25 2 (times_100 x).
Proof.
  unfold times_100. rewrite float_100_eq.
  destruct x as [s|s| |s m e]; cbn [float_below]; try contradiction.
  - intros ->. reflexivity.
  - intros (-> & He & Hm & He9 & Hd). cbn [SpecFloat.SFmul xorb].
    assert (0 < 2 ^ (0 - e)) as Hp by (apply Z.pow_pos_nonneg; lia).
    assert (Z.pos (m * 7036874417766400) = Z.pos m * (25 * 2 ^ 48)) as Em
      by (rewrite Pos2Z.inj_mul; reflexivity).
    assert (2 ^ (2 - (e + -46)) = 2 ^ 48 * 2 ^ (0 - e)) as Ep.
    { rewrite <- Z.pow_add_r by lia. f_equal. lia. }
    pose proof (binary_round_aux_le false (Z.pos (m * 7036874417766400))
                  (e + -46) SpecFloat.loc_Exact 25 2 ltac:(lia) ltac:(lia)
                  ltac:(simpl; lia) ltac:(lia) ltac:(lia)
                  ltac:(rewrite Em, Ep; nia)
                  ltac:(intros H; contradiction H; reflexivity)) as Hle.
    assert (SpecFloat.Zdigits2 (Z.pos (m * 7036874417766400)) + (e + -46)
            <= 7) as HD.
    { rewrite Em. 
      pose proof (Zdigits2_le_mul_pow2 (Z.pos m * (25 * 2 ^ 48)) 25
                    (48 + (0 - e)) ltac:(lia) ltac:(lia)) as H.
      rewrite Z.pow_add_r in H by lia.
      assert (SpecFloat.Zdigits2 25 = 5) as E25 by reflexivity.
      rewrite E25 in H. 
      assert (0 <= Z.pos m * (25 * 2 ^ 48) <= 25 * (2 ^ 48 * 2 ^ (0 - e))) by nia.
      specialize (H H0). lia. }
    pose proof (binary_round_aux_finite false (Z.pos (m * 7036874417766400))
                  (e + -46) SpecFloat.loc_Exact ltac:(lia) ltac:(lia)
                  ltac:(lia))
      as Hfin.
    destruct (SpecFloat.binary_round_aux DBL_MANT_DIG DBL_MAX_EXP false
                (Z.pos (m * 7036874417766400)) (e + -46) SpecFloat.loc_Exact)
      as [sz|sz| |sz mz ez]; try contradiction; [exact Hfin|].
    destruct Hfin as (Hsz & Hez & Hdz). destruct Hle as [HeK Hmz].
    repeat split; try assumption; lia.
Qed.

Lemma float_below_value (x : float) :
  float_below 25 2 x ->
  exists q, float_value x = Some q /\ (0 <= q)%Q /\ (q <= 100)%Q.
Proof.
  destruct x as [s|s| |s m e]; cbn [float_below]; try contradiction.
  - intros _. exists 0%Q. split; [reflexivity|]. split; [apply Qle_refl|].
    discriminate.
  - intros (-> & He & Hm & _). eexists. split; [reflexivity|].
    destruct e as [|k|k].
    + change (2 - 0) with 2 in Hm. unfold Qle. simpl. lia.
    + assert (0 < 2 ^ Z.pos k) by (apply Z.pow_pos_nonneg; lia).
      assert (2 ^ (2 - Z.pos k) * 2 ^ Z.pos k = 4) as E.
      { rewrite <- Z.pow_add_r by lia. replace (2 - Z.pos k + Z.pos k) with 2 by lia.
        reflexivity. }
      unfold Qle. cbn [Qnum Qden inject_Z]. nia.
    + assert (2 ^ (2 - Z.neg k) = 4 * 2 ^ Z.pos k) as E.
      { replace (2 - Z.neg k) with (2 + Z.pos k) by lia.
        rewrite Z.pow_add_r by lia. reflexivity. }
      assert (0 < 2 ^ Z.pos k) by (apply Z.pow_pos_nonneg; lia).
      unfold Qle. cbn [Qnum Qden inject_Z]. rewrite Pos2Z.inj_pow. nia.
Qed.

End Floats.

(** ** The statistics *)

Lemma incr_spec (w : World) (a : addr) (d : dict) (k : str) (n : Z) :
  w_heap w !! a = Some (ODict d) ->
  dict_get d k = Some (VInt n) ->
  incr (VRef a) k w
  = (Ok tt, mkWorld (<[a := ODict (dict_set d k (VInt (n + 1)))]> (w_heap w))
                    (w_files w)).
Proof.
  intros Ha Hk. unfold incr, bind, getitem, setitem. simpl.
  rewrite Ha, Hk. simpl. rewrite Ha. reflexivity.
Qed.

Lemma lookup_insert_obj (h : heap) (a : addr) (o o' : obj) :
  h !! a = Some o -> <[a := o']> h !! a = Some o'.
Proof.
  intros Ha. apply list_lookup_insert_eq. eapply lookup_lt_Some, Ha.
Qed.

Lemma count_win_spec (w : World) (a : addr) (p wn l : Z) :
  w_heap w !! a = Some (ODict (stats_dict p wn l)) ->
  count_win (VRef a) w
  = (Ok tt, mkWorld (<[a := ODict (stats_dict (p + 1) (wn + 1) l)]> (w_heap w))
                    (w_files w)).
Proof.
  intros Ha. unfold count_win, bind.
  rewrite (incr_spec w a _ _ p Ha) by reflexivity.
  erewrite incr_spec; cycle 1.
  - simpl. apply lookup_insert_obj with (o := ODict (stats_dict p wn l)), Ha.
  - reflexivity.
  - simpl. rewrite list_insert_insert_eq. reflexivity.
Qed.

Lemma count_learned_spec (w : World) (a : addr) (p wn l : Z) :
  w_heap w !! a = Some (ODict (stats_dict p wn l)) ->
  count_learned (VRef a) w
  = (Ok tt, mkWorld (<[a := ODict (stats_dict (p + 1) wn (l + 1))]> (w_heap w))
                    (w_files w)).
Proof.
  intros Ha. unfold count_learned, bind.
  rewrite (incr_spec w a _ _ p Ha) by reflexivity.
  unfold get_or_zero, as_dict. simpl.
  rewrite (lookup_insert_obj _ _ _ _ Ha). simpl.
  unfold setitem. simpl.
  rewrite (lookup_insert_obj _ _ _ _ Ha).
  rewrite list_insert_insert_eq. reflexivity.
Qed.

Lemma wins_of_nonneg (os : list outcome) : (0 <= wins_of os)%Z.
Proof. induction os as [|[] os IH]; simpl; lia. Qed.

Lemma learned_of_nonneg (os : list outcome) : (0 <= learned_of os)%Z.
Proof. induction os as [|[] os IH]; simpl; lia. Qed.

Lemma get_or_zero_dict (w : World) (a : addr) (d : dict) (k : str) :
  w_heap w !! a = Some (ODict d) ->
  get_or_zero (VRef a) k w = (Ok (default (VInt 0) (dict_get d k)), w).
Proof. intros Ha. unfold get_or_zero, as_dict. rewrite Ha. reflexivity. Qed.

(** With counters such that [0 <= wins <= played] the accuracy is computed
    without an exception: it is the float of the specification, which lies
    between 0 and 100. *)
Lemma accuracy_counters (w : World) (a : addr) (p wn l : Z) :
  w_heap w !! a = Some (ODict (stats_dict p wn l)) ->
  (0 <= wn <= p)%Z ->
  accuracy (VRef a) w = (Ok (accuracy_spec p wn), w)
  /\ float_below 25 2 (accuracy_spec p wn).
Proof.
  intros Ha [H0 Hle]. unfold accuracy, bind.
  rewrite !(get_or_zero_dict w a _ _ Ha).
  change (dict_get (stats_dict p wn l) (lit "played")) with (Some (VInt p)).
  change (dict_get (stats_dict p wn l) (lit "wins")) with (Some (VInt wn)).
  cbn [from_option id truthy true_divide as_int]. unfold accuracy_spec.
  destruct (Z.eq_dec p 0%Z) as [->|Hp].
  - split; reflexivity.
  - assert ((p =? 0)%Z = false) as Ep by (apply Z.eqb_neq; exact Hp).
    assert ((0 <? p)%Z = true) as -> by (apply Z.ltb_lt; lia).
    rewrite Ep. cbn [negb]. unfold int_true_divide. rewrite Ep.
    pose proof (SFdiv_below_one wn p (conj H0 Hle) ltac:(lia)) as Hq.
    pose proof (times_100_below _ Hq) as Hm.
    split; [|exact Hm].
    destruct (SpecFloat.SFdiv DBL_MANT_DIG DBL_MAX_EXP (int_operand wn)
                              (int_operand p)); try contradiction; reflexivity.
Qed.

(** C3. From any counters, a correct guess adds one to [played] and to
    [wins], a learning adds one to [played] and to [learned] and nothing to
    [wins]; so from zeroed statistics, [N] correct guesses and [M] learnings
    in any order leave [played = N + M], [wins = N] and [learned = M].  When
    the counters at the start are such that [0 <= wins <= played], as
    zeroed ones are, the accuracy [_update_status] then computes is the
    float [wins / played * 100] when [played > 0] and [0.0] when
    [played = 0], and no exception is raised. *)
Theorem stats_after_outcomes (w : World) (a : addr) (p wn l : Z)
    (os : list outcome) :
  w_heap w !! a = Some (ODict (stats_dict p wn l)) ->
  let N := wins_of os in
  let M := learned_of os in
  exists w',
    count_all (VRef a) os w = (Ok tt, w')
    /\ w_heap w' !! a
       = Some (ODict (stats_dict (p + (N + M)) (wn + N) (l + M)))
    /\ ((0 <= wn <= p)%Z ->
        accuracy (VRef a) w'
        = (Ok (accuracy_spec (p + (N + M)) (wn + N)), w')).
Proof.
  intros Ha N M. cut (exists w',
    count_all (VRef a) os w = (Ok tt, w')
    /\ w_heap w' !! a
       = Some (ODict (stats_dict (p + (N + M)) (wn + N) (l + M)))).
  { intros (w' & H1 & H2). exists w'.
    split; [exact H1|]. split; [exact H2|]. intros Hb.
    apply (accuracy_counters w' a _ _ _ H2).
    pose proof (wins_of_nonneg os). pose proof (learned_of_nonneg os).
    subst N M. lia. }
  subst N M. revert w p wn l Ha.
  induction os as [|o os IH]; intros w p wn l Ha; simpl.
  - exists w. rewrite !Z.add_0_r. split; [reflexivity|exact Ha].
  - destruct o; simpl; unfold bind.
    + rewrite (count_win_spec w a p wn l Ha).
      edestruct (IH (mkWorld (<[a := ODict (stats_dict (p + 1) (wn + 1) l)]>
                               (w_heap w)) (w_files w)) (p + 1)%Z (wn + 1)%Z l)
        as (w' & Hrun & Hd).
      { simpl. eapply lookup_insert_obj, Ha. }
      exists w'. split; [exact Hrun|].
      replace (p + (1 + wins_of os + learned_of os))%Z
        with (p + 1 + (wins_of os + learned_of os))%Z by lia.
      replace (wn + (1 + wins_of os))%Z with (wn + 1 + wins_of os)%Z by lia.
      exact Hd.
    + rewrite (count_learned_spec w a p wn l Ha).
      edestruct (IH (mkWorld (<[a := ODict (stats_dict (p + 1) wn (l + 1))]>
                               (w_heap w)) (w_files w)) (p + 1)%Z wn (l + 1)%Z)
        as (w' & Hrun & Hd).
      { simpl. eapply lookup_insert_obj, Ha. }
      exists w'. split; [exact Hrun|].
      replace (p + (wins_of os + (1 + learned_of os)))%Z
        with (p + 1 + (wins_of os + learned_of os))%Z by lia.
      replace (l + (1 + learned_of os))%Z with (l + 1 + learned_of os)%Z by lia.
      exact Hd.
Qed.

Lemma stats_after_outcomes_witness :
  exists w',
    count_all (VRef 0%nat) [Win; Learned; Win]
              (mkWorld [ODict (stats_dict 0 0 0)] ∅) = (Ok tt, w')
    /\ w_heap w' !! 0%nat = Some (ODict (stats_dict 3 2 1))
    /\ accuracy (VRef 0%nat) w'
       = (Ok (SpecFloat.S754_finite false 4691249611844266 (-46)), w').
Proof.
  destruct (stats_after_outcomes (mkWorld [ODict (stats_dict 0 0 0)] ∅) 0%nat
              0%Z 0%Z 0%Z [Win; Learned; Win]) as (w' & H1 & H2 & H3).
  { reflexivity. }
  exists w'. split; [exact H1|]. split; [exact H2|].
  refine (eq_trans (H3 _) _); [lia|]. vm_compute. reflexivity.
Defined.

(** ** Documents and the objects built for them *)

Lemma json_ind' (P : json -> Prop) :
  P JNull -> (forall b, P (JBool b)) -> (forall n, P (JInt n)) ->
  (forall s, P (JStr s)) ->
  (forall l, Forall P l -> P (JList l)) ->
  (forall d, Forall (fun kv => P kv.2) d -> P (JDict d)) ->
  forall j, P j.
Proof.
  intros Hn Hb Hi Hs Hl Hd.
  fix IH 1. intros [| b | n | s | l | d].
  - exact Hn.
  - apply Hb.
  - apply Hi.
  - apply Hs.
  - apply Hl. induction l as [|x l IHl]; constructor; [apply IH|exact IHl].
  - apply Hd. induction d as [|[k x] d IHd]; constructor; [apply IH|exact IHd].
Qed.

Lemma build_list_eq (l : list json) (h : heap) :
  build (JList l) h
  = let '(vs, h') := build_elems l h in alloc (OList vs) h'.
Proof. reflexivity. Qed.

Lemma build_dict_eq (d : list (str * json)) (h : heap) :
  build (JDict d) h
  = let '(ps, h') := build_members d h in alloc (ODict (dict_of_pairs ps)) h'.
Proof. reflexivity. Qed.

(** Building only adds objects. *)
Lemma build_extends (j : json) :
  forall h, exists extra, (build j h).2 = h ++ extra.
Proof.
  induction j as [| b | n | s | l IHl | d IHd] using json_ind'; intros h;
    try (exists []; simpl; rewrite app_nil_r; reflexivity).
  - rewrite build_list_eq.
    assert (exists extra, (build_elems l h).2 = h ++ extra) as [e He].
    { revert h. induction IHl as [|x l Hx _ IH]; intros h; simpl.
      - exists []. rewrite app_nil_r. reflexivity.
      - destruct (Hx h) as [e1 He1]. revert He1.
        destruct (build x h) as [v h1]. simpl. intros E1. subst h1.
        destruct (IH (h ++ e1)) as [e2 He2]. revert He2.
        destruct (build_elems l (h ++ e1)) as [vs h2]. simpl. intros E2. subst h2.
        exists (e1 ++ e2). rewrite app_assoc. reflexivity. }
    revert He. destruct (build_elems l h) as [vs h']. simpl. intros E. subst h'.
    eexists. rewrite <- app_assoc. reflexivity.
  - rewrite build_dict_eq.
    assert (exists extra, (build_members d h).2 = h ++ extra) as [e He].
    { revert h. induction IHd as [|[k x] d Hx _ IH]; intros h; simpl.
      - exists []. rewrite app_nil_r. reflexivity.
      - simpl in Hx. destruct (Hx h) as [e1 He1]. revert He1.
        destruct (build x h) as [v h1]. simpl. intros E1. subst h1.
        destruct (IH (h ++ e1)) as [e2 He2]. revert He2.
        destruct (build_members d (h ++ e1)) as [ps h2]. simpl. intros E2. subst h2.
        exists (e1 ++ e2). rewrite app_assoc. reflexivity. }
    revert He. destruct (build_members d h) as [ps h']. simpl. intros E. subst h'.
    eexists. rewrite <- app_assoc. reflexivity.
Qed.

(** ** Dicts *)

Lemma dict_get_set (d : dict) (k k' : str) (v : value) :
  dict_get (dict_set d k v) k'
  = if decide (k = k') then Some v else dict_get d k'.
Proof.
  induction d as [|[k0 v0] d IH]; simpl.
  - destruct (decide (k = k')); reflexivity.
  - destruct (decide (k0 = k)) as [->|Hne]; simpl.
    + destruct (decide (k = k')); reflexivity.
    + destruct (decide (k0 = k')) as [->|Hne'].
      * destruct (decide (k = k')); [congruence|reflexivity].
      * exact IH.
Qed.

Lemma dict_in_set (d : dict) (k k' : str) (v : value) :
  dict_in k' (dict_set d k v) = bool_decide (k = k') || dict_in k' d.
Proof.
  unfold dict_in. rewrite dict_get_set.
  destruct (decide (k = k')) as [->|Hne].
  - rewrite bool_decide_eq_true_2 by reflexivity. reflexivity.
  - rewrite bool_decide_eq_false_2 by exact Hne. reflexivity.
Qed.

Lemma dict_in_fold (ps : list (str * value)) (d0 : dict) (k : str) :
  dict_in k (fold_left (fun d kv => dict_set d kv.1 kv.2) ps d0) = false
  <-> dict_in k d0 = false /\ k ∉ (ps.*1).
Proof.
  revert d0. induction ps as [|[k1 v1] ps IH]; intros d0; simpl.
  - split; [intros H; split; [exact H|apply not_elem_of_nil]|intros [H _]; exact H].
  - rewrite IH, dict_in_set, not_elem_of_cons, orb_false_iff,
      bool_decide_eq_false.
    split.
    + intros [[H1 H2] H3]. split; [exact H2|]. split; [congruence|exact H3].
    + intros [H1 [H2 H3]]. split; [|exact H3]. split; [congruence|exact H1].
Qed.

Lemma dict_in_of_pairs (ps : list (str * value)) (k : str) :
  dict_in k (dict_of_pairs ps) = false <-> k ∉ (ps.*1).
Proof.
  unfold dict_of_pairs. rewrite dict_in_fold. split; [intros [_ H]; exact H|].
  intros H. split; [reflexivity|exact H].
Qed.

Lemma build_members_keys (d : list (str * json)) (h : heap) :
  (build_members d h).1.*1 = d.*1.
Proof.
  revert h. induction d as [|[k x] d IH]; intros h; simpl; [reflexivity|].
  destruct (build x h) as [v h1]. specialize (IH h1).
  destruct (build_members d h1) as [ps h2].
  change (k :: ps.*1 = k :: d.*1). f_equal. exact IH.
Qed.

(** A document without [q] and [guess] at its root does not pass the test
    of [import_tree]. *)
Lemma looks_like_tree_build (j : json) (h : heap) :
  lacks_both j ->
  looks_like_tree (build j h).2 (build j h).1 = false.
Proof.
  destruct j as [| b | n | s | l | d]; intros Hj; try reflexivity.
  - rewrite build_list_eq. destruct (build_elems l h) as [vs h'].
    unfold looks_like_tree, as_dict, alloc. simpl.
    rewrite lookup_app_r, Nat.sub_diag by lia. reflexivity.
  - rewrite build_dict_eq. pose proof (build_members_keys d h) as Hk.
    destruct (build_members d h) as [ps h']. simpl in Hk.
    unfold looks_like_tree, as_dict, alloc. simpl.
    rewrite lookup_app_r, Nat.sub_diag by lia. simpl.
    destruct Hj as [Hq Hg]. rewrite <- Hk in Hq, Hg.
    apply dict_in_of_pairs in Hq, Hg. rewrite Hq, Hg. reflexivity.
Qed.

(** ** [import_tree] *)

(** C7. A document whose root has neither a [q] nor a [guess] member is
    refused: [import_tree] ends with the error box of the [ValueError] it
    raises, and the application, its tree and the files are as before (the
    store only holds, in addition, the objects read from the document). *)
Theorem import_tree_rejects (app : App) (w : World) (fname : string)
    (bs : list N) (text : str) (j : json) :
  fname <> EmptyString ->
  w_files w !! fname = Some bs ->
  utf8_decode bs = Some text ->
  json_loads text = Ok j ->
  lacks_both j ->
  exists extra,
    import_tree fname (app, w)
    = (Ok (Some (ShowError
                   (ValueError
                      "El archivo no parece un árbol de decisiones válido."))),
       (app, mkWorld (w_heap w ++ extra) (w_files w))).
Proof.
  intros Hf Hbs Htext Hj Hlack. unfold import_tree.
  destruct (decide (fname = EmptyString)) as [E|_]; [contradiction|].
  unfold try_except, bind, in_world, json_load, read_text, bind.
  rewrite Hbs, Htext, Hj.
  pose proof (looks_like_tree_build j (w_heap w) Hlack) as Hl.
  destruct (build_extends j (w_heap w)) as [extra He].
  destruct (build j (w_heap w)) as [v h']. simpl in *. subst h'.
  exists extra. rewrite Hl. reflexivity.
Qed.

Lemma import_tree_rejects_witness :
  let doc := [123; 34; 120; 34; 58; 32; 49; 125] in (* {"x": 1} *)
  let w := mkWorld (w_heap seed_world) {[ "otro.json"%string := doc ]} in
  let app := mkApp seed_root (GameState_init seed_root) VNone in
  exists extra,
    import_tree "otro.json" (app, w)
    = (Ok (Some (ShowError
                   (ValueError
                      "El archivo no parece un árbol de decisiones válido."))),
       (app, mkWorld (w_heap w ++ extra) (w_files w))).
Proof.
  intros doc w app.
  apply (import_tree_rejects app w "otro.json" doc doc
                             (JDict [(lit "x", JInt 1)])).
  - discriminate.
  - reflexivity.
  - reflexivity.
  - vm_compute. reflexivity.
  - split; intros H; apply list_elem_of_singleton in H; vm_compute in H;
      discriminate H.
Defined.

(** ** Writing the knowledge file *)

Lemma write_chunks_trace (fname : string) (cs : list str) :
  forall (acc : list N) (w w' : World),
    w_files w !! fname = Some acc ->
    write_chunks fname cs w = (Ok tt, w') ->
    exists final,
      w_files w' !! fname = Some final
      /\ acc `prefix_of` final
      /\ list.last (acc :: write_trace acc cs) = Some final
      /\ (forall c, c ∈ write_trace acc cs -> c `prefix_of` final)
      /\ w_heap w' = w_heap w.
Proof.
  induction cs as [|c cs IH]; intros acc w w' Hacc Hrun; simpl in *.
  - injection Hrun as <-. exists acc. repeat split; try done.
    intros c Hc. apply elem_of_nil in Hc. contradiction.
  - unfold bind, write_chunk in Hrun.
    destruct (utf8_encode c) as [bs|]; [|discriminate].
    rewrite Hacc in Hrun. simpl in Hrun.
    edestruct (IH (acc ++ bs)) as (final & Hf & Hp & Hl & Hall & Hh);
      [|exact Hrun|].
    { simpl. apply lookup_insert_eq. }
    exists final. split; [exact Hf|]. split.
    { etransitivity; [|exact Hp]. apply prefix_app_r. reflexivity. }
    split; [exact Hl|]. split; [|exact Hh].
    intros c' Hc'. apply elem_of_cons in Hc' as [->|Hc']; [exact Hp|].
    apply Hall, Hc'.
Qed.

(** C8, as the code has it.  [save_tree] rewrites the knowledge file in
    place: the [open] cuts it to length zero and the chunks of the document
    are appended one by one.  When [save_tree] returns, the file holds the
    last state of that sequence, and every earlier state, the empty file
    first, is a beginning of it. *)
Theorem save_tree_in_place (tree : value) (w w' : World) :
  save_tree tree w = (Ok tt, w') ->
  exists final,
    w_files w' !! DATA_FILE = Some final
    /\ head (save_tree_trace tree w) = Some []
    /\ list.last (save_tree_trace tree w) = Some final
    /\ forall c, c ∈ save_tree_trace tree w -> c `prefix_of` final.
Proof.
  unfold save_tree, save_tree_trace, bind, open_w, modify, json_dump.
  cbn [w_heap w_files].
  destruct (iterencode (S (length (w_heap w))) (w_heap w) [] 0 tree)
    as [chunks e]. cbn [fst snd]. unfold bind.
  destruct (write_chunks DATA_FILE chunks
              (mkWorld (w_heap w) (<[DATA_FILE := []]> (w_files w))))
    as [[[]|ex] w1] eqn:Hw; [|intros [=]].
  destruct e as [ex|]; [intros [=]|]. intros [= <-].
  eapply write_chunks_trace in Hw as (final & Hf & Hp & Hl & Hall & _);
    [|simpl; apply lookup_insert_eq].
  exists final. split; [exact Hf|]. split; [reflexivity|].
  split; [exact Hl|].
  intros c Hc. apply elem_of_cons in Hc as [->|Hc]; [exact Hp|].
  apply Hall, Hc.
Qed.

Lemma save_tree_in_place_witness :
  exists final,
    w_files (save_tree seed_root first_run_world).2 !! DATA_FILE = Some final
    /\ head (save_tree_trace seed_root first_run_world) = Some []
    /\ list.last (save_tree_trace seed_root first_run_world) = Some final
    /\ forall c, c ∈ save_tree_trace seed_root first_run_world ->
                 c `prefix_of` final.
Proof.
  apply (save_tree_in_place seed_root first_run_world).
  vm_compute. reflexivity.
Defined.

(** C8 as stated does not hold: while the default tree is saved over
    itself, the knowledge file is first empty, which is neither its old
    nor its new content. *)
Lemma save_tree_not_atomic : ~ atomic_save seed_root first_run_world.
Proof.
  intros H. destruct (H []) as [E|E].
  - unfold save_tree_trace. apply elem_of_cons. left. reflexivity.
  - vm_compute in E. discriminate E.
  - vm_compute in E. discriminate E.
Qed.

(** ** Trees in the store *)

Lemma dict_get_elem (d : dict) (k : str) (v : value) :
  NoDup (d.*1) -> (k, v) ∈ d -> dict_get d k = Some v.
Proof.
  induction d as [|[k0 v0] d IH]; simpl; intros Hnd Hin.
  - apply elem_of_nil in Hin. contradiction.
  - apply NoDup_cons in Hnd as [Hk0 Hnd].
    apply elem_of_cons in Hin as [[= <- <-]|Hin].
    + destruct (decide (k = k)); [reflexivity|contradiction].
    + destruct (decide (k0 = k)) as [->|_]; [|apply IH; assumption].
      exfalso. apply Hk0. apply list_elem_of_fmap. exists (k, v).
      split; [reflexivity|exact Hin].
Qed.

Lemma dict_get_None (d : dict) (k : str) :
  k ∉ (d.*1) -> dict_get d k = None.
Proof.
  induction d as [|[k0 v0] d IH]; simpl; intros Hk; [reflexivity|].
  apply not_elem_of_cons in Hk as [Hne Hk].
  destruct (decide (k0 = k)); [congruence|apply IH, Hk].
Qed.

(** The members of a question node, whatever their order. *)
Lemma question_dict_get (d : dict) (q : str) (vy vn : value) :
  d ≡ₚ [(lit "q", VStr q); (lit "yes", vy); (lit "no", vn)] ->
  dict_get d (lit "q") = Some (VStr q)
  /\ dict_get d (lit "yes") = Some vy
  /\ dict_get d (lit "no") = Some vn
  /\ dict_in (lit "guess") d = false.
Proof.
  intros Hp.
  assert (NoDup (d.*1)) as Hnd.
  { rewrite Hp. vm_compute. repeat constructor; set_solver. }
  repeat split.
  - apply dict_get_elem; [exact Hnd|]. rewrite Hp. set_solver.
  - apply dict_get_elem; [exact Hnd|]. rewrite Hp. set_solver.
  - apply dict_get_elem; [exact Hnd|]. rewrite Hp. set_solver.
  - unfold dict_in. rewrite dict_get_None; [reflexivity|].
    rewrite Hp. vm_compute. set_solver.
Qed.

Lemma repr_lt (h : heap) (v : value) (t : TreeNode) (F : gset addr) :
  repr h v t F -> forall a, a ∈ F -> (a < length h)%nat.
Proof.
  induction 1 as [a g Ha|a d q vy vn y n Fy Fn Ha Hp Hy IHy Hn IHn Hay Han Hd];
    intros a' Ha'.
  - apply elem_of_singleton in Ha' as ->. eapply lookup_lt_Some, Ha.
  - apply elem_of_union in Ha' as [Ha'|Ha']; [|apply IHn, Ha'].
    apply elem_of_union in Ha' as [Ha'|Ha']; [|apply IHy, Ha'].
    apply elem_of_singleton in Ha' as ->. eapply lookup_lt_Some, Ha.
Qed.

(** The root of a tree is one of its dicts. *)
Lemma repr_root (h : heap) (v : value) (t : TreeNode) (F : gset addr) :
  repr h v t F -> exists a, v = VRef a /\ a ∈ F.
Proof.
  destruct 1; eexists; (split; [reflexivity|set_solver]).
Qed.

(** Frame: the tree only depends on the objects at its addresses. *)
Lemma repr_frame (h h' : heap) (v : value) (t : TreeNode) (F : gset addr) :
  repr h v t F ->
  (forall a, a ∈ F -> h' !! a = h !! a) ->
  repr h' v t F.
Proof.
  induction 1 as [a g Ha|a d q vy vn y n Fy Fn Ha Hp Hy IHy Hn IHn Hay Han Hd];
    intros Hsame.
  - apply repr_leaf. rewrite Hsame by set_solver. exact Ha.
  - eapply repr_question; try eassumption.
    + rewrite Hsame by set_solver. exact Ha.
    + apply IHy. intros a' Ha'. apply Hsame. set_solver.
    + apply IHn. intros a' Ha'. apply Hsame. set_solver.
Qed.

Lemma repr_app (h extra : heap) (v : value) (t : TreeNode) (F : gset addr) :
  repr h v t F -> repr (h ++ extra) v t F.
Proof.
  intros H. eapply repr_frame; [exact H|].
  intros a Ha. apply lookup_app_l. eapply repr_lt; eassumption.
Qed.

Lemma repr_insert (h : heap) (v : value) (t : TreeNode) (F : gset addr)
    (a : addr) (o : obj) :
  repr h v t F -> a ∉ F -> repr (<[a := o]> h) v t F.
Proof.
  intros H Ha. eapply repr_frame; [exact H|].
  intros a' Ha'. apply list_lookup_insert_ne. intros ->. contradiction.
Qed.

Lemma dict_of_pairs_leaf (v : value) :
  dict_of_pairs [(lit "guess", v)] = [(lit "guess", v)].
Proof. reflexivity. Qed.

Lemma dict_of_pairs_question (vq vy vn : value) :
  dict_of_pairs [(lit "q", vq); (lit "yes", vy); (lit "no", vn)]
  = [(lit "q", vq); (lit "yes", vy); (lit "no", vn)].
Proof. reflexivity. Qed.

(** The objects built for the document of a tree are that tree, in new
    dicts. *)
Lemma build_tree_doc (t : TreeNode) :
  forall h, exists a F extra,
    build (tree_doc t) h = (VRef a, h ++ extra)
    /\ repr (h ++ extra) (VRef a) t F
    /\ forall x, x ∈ F -> (length h <= x)%nat.
Proof.
  induction t as [g|q y IHy n IHn]; intros h.
  - exists (length h), {[length h]}, [ODict [(lit "guess", VStr g)]].
    split; [reflexivity|]. split.
    + apply repr_leaf. rewrite lookup_app_r, Nat.sub_diag by lia. reflexivity.
    + intros x Hx. apply elem_of_singleton in Hx as ->. lia.
  - destruct (IHy h) as (ay & Fy & e1 & Ey & Ry & Ly).
    destruct (IHn (h ++ e1)) as (an & Fn & e2 & En & Rn & Ln).
    change (tree_doc (Question q y n))
      with (JDict [(lit "q", JStr q); (lit "yes", tree_doc y);
                   (lit "no", tree_doc n)]).
    rewrite build_dict_eq. cbn [build_members]. cbn [build].
    rewrite Ey, En. rewrite dict_of_pairs_question. unfold alloc.
    pose proof (repr_lt _ _ _ _ Ry) as Hly.
    pose proof (repr_lt _ _ _ _ Rn) as Hln.
    rewrite !length_app in *.
    exists (length h + length e1 + length e2)%nat,
      ({[(length h + length e1 + length e2)%nat]} ∪ Fy ∪ Fn),
      (e1 ++ e2 ++ [ODict [(lit "q", VStr q); (lit "yes", VRef ay);
                          (lit "no", VRef an)]]).
    split; [rewrite <- !app_assoc; reflexivity|].
    replace (h ++ e1 ++ e2 ++ [ODict [(lit "q", VStr q); (lit "yes", VRef ay);
                                     (lit "no", VRef an)]])
      with (((h ++ e1) ++ e2) ++ [ODict [(lit "q", VStr q);
                                         (lit "yes", VRef ay);
                                         (lit "no", VRef an)]])
      by (rewrite <- !app_assoc; reflexivity).
    split.
    + eapply repr_question.
      * rewrite lookup_app_r by (rewrite !length_app; lia).
        rewrite !length_app, Nat.sub_diag. reflexivity.
      * reflexivity.
      * do 2 apply repr_app. exact Ry.
      * apply repr_app. exact Rn.
      * intros Hx. apply Hly in Hx. lia.
      * intros Hx. apply Hln in Hx. lia.
      * intros x Hxy Hxn. apply Hly in Hxy. apply Ln in Hxn. lia.
    + intros x Hx. apply elem_of_union in Hx as [Hx|Hx].
      * apply elem_of_union in Hx as [Hx|Hx]; [|apply Ly, Hx].
        apply elem_of_singleton in Hx. lia.
      * apply Ln in Hx. lia.
Qed.

Lemma default_tree_doc_eq : tree_doc default_tree_t = default_tree_doc.
Proof. vm_compute. reflexivity. Qed.

(** ** Walking down the tree *)

Lemma repr_is_leaf (h : heap) (v : value) (t : TreeNode) (F : gset addr) :
  repr h v t F ->
  is_leaf h v = match t with Leaf _ => true | Question _ _ _ => false end.
Proof.
  destruct 1 as [a g Ha|a d q vy vn y n Fy Fn Ha Hp _ _ _ _ _];
    unfold is_leaf, as_dict; rewrite Ha.
  - reflexivity.
  - apply question_dict_get in Hp as (_ & _ & _ & Hg). exact Hg.
Qed.

Lemma answers_subtree (w : World) (cs : list str) :
  forall (self : GameState) (t t' : TreeNode) (F : gset addr),
    repr (w_heap w) (node self) t F ->
    subtree t cs = Some t' ->
    exists (p : list (value * str)) (v' : value) (F' : gset addr),
      answers cs (self, w)
      = (Ok tt, (mkGameState (tree self) (path self ++ p) v', w))
      /\ repr (w_heap w) v' t' F'
      /\ F' ⊆ F
      /\ walk (w_heap w) (node self) p v'
      /\ p.*2 = branch_of <$> cs.
Proof.
  induction cs as [|c cs IH]; intros self t t' F Hr Hs.
  - assert (t' = t) as -> by (destruct t; simpl in Hs; congruence).
    exists [], (node self), F.
    rewrite app_nil_r. destruct self. repeat split; try done. constructor.
  - destruct t as [g|q y n]; simpl in Hs; [discriminate|].
    inversion Hr as [|a d q' vy vn y' n' Fy Fn Ha Hp Hy Hn Hay Han Hd Ev];
      subst.
    pose proof (question_dict_get d q vy vn Hp) as (Hq & Hgy & Hgn & Hg).
    set (b := branch_of c).
    set (child := if decide (c = lit "yes") then vy else vn).
    assert (answer c (self, w)
            = (Ok tt, (mkGameState (tree self)
                                   (path self ++ [(node self, b)]) child, w)))
      as Ea.
    { unfold answer, is_leaf, as_dict. rewrite <- Ev, Ha, Hg.
      fold (branch_of c). subst b child. unfold branch_of.
      destruct (decide (c = lit "yes")); simpl.
      - rewrite Hgy. reflexivity.
      - rewrite Hgn. reflexivity. }
    assert (exists tc Fc, repr (w_heap w) child tc Fc
                          /\ subtree tc cs = Some t'
                          /\ Fc ⊆ {[a]} ∪ Fy ∪ Fn) as (tc & Fc & Hc & Hsc & HFc).
    { subst child. destruct (decide (c = lit "yes")).
      - exists y, Fy. split; [exact Hy|]. split; [exact Hs|set_solver].
      - exists n, Fn. split; [exact Hn|]. split; [exact Hs|set_solver]. }
    destruct (IH (mkGameState (tree self) (path self ++ [(node self, b)])
                              child) tc t' Fc Hc Hsc)
      as (p & v' & F' & Erun & Hr' & HF' & Hw & Hb).
    exists ((node self, b) :: p), v', F'.
    simpl. unfold bind. rewrite Ea, Erun. simpl.
    rewrite <- app_assoc. simpl. split; [reflexivity|].
    split; [exact Hr'|]. split; [set_solver|].
    split.
    + rewrite <- Ev. eapply walk_cons with (d := d) (child := child).
      * unfold as_dict. rewrite Ha. reflexivity.
      * exact Hg.
      * subst b. unfold branch_of. destruct (decide (c = lit "yes")); auto.
      * subst b child. unfold branch_of.
        destruct (decide (c = lit "yes")); assumption.
      * exact Hw.
    + change (b :: p.*2 = branch_of c :: (branch_of <$> cs)).
      rewrite Hb. reflexivity.
Qed.

Lemma repr_leaf_dict (h : heap) (v : value) (g : str) (F : gset addr) :
  repr h v (Leaf g) F -> as_dict h v = Some [(lit "guess", VStr g)].
Proof.
  inversion 1 as [a g' Ha|]; subst. unfold as_dict. rewrite Ha. reflexivity.
Qed.

Lemma answers_app (cs cs' : list str) (s : GameState * World) :
  answers (cs ++ cs') s = bind (answers cs) (fun _ => answers cs') s.
Proof.
  revert s. induction cs as [|c cs IH]; intros s; simpl.
  - reflexivity.
  - unfold bind. destruct (answer c s) as [[[]|e] s1]; [|reflexivity].
    rewrite IH. reflexivity.
Qed.

(** C2. In any store, a session started at the root of [default_tree()]
    is, after the answers yes, yes, yes, on the leaf whose guess is
    "Radiancia", and after nine answers no on the leaf whose guess is
    "El Caballero" (the eighth reaches that leaf, where [answer] ignores the
    ninth). *)
Theorem default_tree_walks (w : World) :
  exists root w1,
    default_tree w = (Ok root, w1)
    /\ (exists p v,
          answers [lit "yes"; lit "yes"; lit "yes"] (GameState_init root, w1)
          = (Ok tt, (mkGameState root p v, w1))
          /\ as_dict (w_heap w1) v
             = Some [(lit "guess", VStr (lit "Radiancia"))])
    /\ (exists p v,
          answers (replicate 9 (lit "no")) (GameState_init root, w1)
          = (Ok tt, (mkGameState root p v, w1))
          /\ as_dict (w_heap w1) v
             = Some [(lit "guess", VStr (lit "El Caballero"))]).
Proof.
  unfold default_tree, eval_display. rewrite <- default_tree_doc_eq.
  destruct (build_tree_doc default_tree_t (w_heap w))
    as (a & F & extra & Eb & Hr & _).
  rewrite Eb. eexists _, _. split; [reflexivity|].
  set (w1 := mkWorld (w_heap w ++ extra) (w_files w)).
  split.
  - destruct (answers_subtree w1 [lit "yes"; lit "yes"; lit "yes"]
                (GameState_init (VRef a)) default_tree_t (tleaf "Radiancia") F
                Hr eq_refl) as (p & v & F' & Erun & Hl & _).
    exists p, v. split; [exact Erun|]. eapply repr_leaf_dict, Hl.
  - destruct (answers_subtree w1 (replicate 8 (lit "no"))
                (GameState_init (VRef a)) default_tree_t
                (tleaf "El Caballero") F Hr eq_refl)
      as (p & v & F' & Erun & Hl & _).
    exists p, v. split; [|eapply repr_leaf_dict, Hl].
    change (replicate 9 (lit "no")) with (replicate 8 (lit "no") ++ [lit "no"]).
    rewrite answers_app. unfold bind at 1. rewrite Erun.
    cbn [answers]. unfold bind, answer. cbn [node].
    rewrite (repr_is_leaf _ _ _ _ Hl). reflexivity.
Qed.

(** ** Learning *)

Lemma dict_set_absent (d : dict) (k : str) (v : value) :
  k ∉ (d.*1) -> dict_set d k v = d ++ [(k, v)].
Proof.
  induction d as [|[k0 v0] d IH]; simpl; intros Hk; [reflexivity|].
  apply not_elem_of_cons in Hk as [Hne Hk].
  destruct (decide (k0 = k)); [congruence|]. rewrite IH by exact Hk.
  reflexivity.
Qed.

Lemma dict_set_split (d : dict) (k : str) (v : value) :
  k ∈ (d.*1) ->
  exists d1 v0 d2, d = d1 ++ (k, v0) :: d2 /\ (k ∉ d1.*1)
                   /\ dict_set d k v = d1 ++ (k, v) :: d2.
Proof.
  induction d as [|[k0 v0] d IH]; simpl; intros Hk.
  - apply elem_of_nil in Hk. contradiction.
  - destruct (decide (k0 = k)) as [->|Hne].
    + exists [], v0, d. repeat split. apply not_elem_of_nil.
    + apply elem_of_cons in Hk as [Hk|Hk]; [simpl in Hk; congruence|].
      destruct (IH Hk) as (d1 & v1 & d2 & -> & Hd1 & Hset).
      exists ((k0, v0) :: d1), v1, d2. rewrite Hset. repeat split.
      apply not_elem_of_cons. split; [|exact Hd1].
      intros E. apply Hne. symmetry. exact E.
Qed.

Lemma filter_all {A} (P : A -> Prop) `{forall x, Decision (P x)} (l : list A) :
  Forall P l -> filter P l = l.
Proof.
  induction 1 as [|x l Hx _ IH]; [reflexivity|].
  rewrite filter_cons_True by exact Hx. rewrite IH. reflexivity.
Qed.

(** Overwriting a branch of a question node, whatever the order of its
    keys. *)
Lemma dict_set_question (d : dict) (q : str) (vy vn v : value) (yes : bool) :
  d ≡ₚ [(lit "q", VStr q); (lit "yes", vy); (lit "no", vn)] ->
  dict_set d (if yes then lit "yes" else lit "no") v
  ≡ₚ [(lit "q", VStr q); (lit "yes", if yes then v else vy);
      (lit "no", if yes then vn else v)].
Proof.
  intros Hp.
  set (k := if yes then lit "yes" else lit "no").
  assert (NoDup (d.*1)) as Hnd.
  { rewrite Hp. vm_compute. repeat constructor; set_solver. }
  assert (k ∈ (d.*1)) as Hk.
  { rewrite Hp. subst k. destruct yes; vm_compute; set_solver. }
  destruct (dict_set_split d k v Hk) as (d1 & v0 & d2 & -> & Hd1 & ->).
  rewrite fmap_app, fmap_cons in Hnd. simpl in Hnd.
  apply NoDup_app in Hnd as (_ & Hdis & Hnd2).
  apply NoDup_cons in Hnd2 as [Hk2 _].
  assert (d1 ++ d2 ≡ₚ
          filter (fun kv => kv.1 <> k)
                 [(lit "q", VStr q); (lit "yes", vy); (lit "no", vn)]) as Hrest.
  { rewrite <- Hp, filter_app, filter_cons_False by (simpl; tauto).
    rewrite !filter_all; [reflexivity| |].
    - apply Forall_forall. intros [k' v'] Hin E. simpl in E. apply Hk2.
      apply list_elem_of_fmap. exists (k', v'). split; [symmetry; exact E|].
      exact Hin.
    - apply Forall_forall. intros [k' v'] Hin E. simpl in E. apply Hd1.
      apply list_elem_of_fmap. exists (k', v'). split; [symmetry; exact E|].
      exact Hin. }
  rewrite <- Permutation_middle, Hrest. subst k.
  destruct yes; vm_compute filter.
  - apply perm_swap.
  - etransitivity; [apply perm_swap|]. apply perm_skip, perm_swap.
Qed.

Lemma no_is_not_yes : lit "no" <> lit "yes".
Proof. vm_compute. discriminate. Qed.

(** A path walked in a tree stays inside the tree. *)
Lemma walk_subtree (h : heap) (v : value) (p : list (value * str))
    (v' : value) :
  walk h v p v' ->
  forall (t : TreeNode) (F : gset addr),
    repr h v t F ->
    exists t' F',
      subtree t (p.*2) = Some t'
      /\ repr h v' t' F'
      /\ F' ⊆ F
      /\ (forall x b, (x, b) ∈ p -> exists ax, x = VRef ax /\ ax ∈ F).
Proof.
  induction 1 as [v|v d b child p v' Hd Hg Hb Hc Hw IH]; intros t F Hr.
  - exists t, F. split; [destruct t; reflexivity|]. split; [exact Hr|].
    split; [reflexivity|]. intros x b Hin. apply elem_of_nil in Hin.
    contradiction.
  - inversion Hr as [a g Ha|a d' q vy vn y n Fy Fn Ha Hp Hy Hn Hay Han Hdis];
      subst; unfold as_dict in Hd; rewrite Ha in Hd; injection Hd as <-.
    { discriminate Hg. }
    apply question_dict_get in Hp as (_ & Hgy & Hgn & _).
    assert (exists tc Fc, repr h child tc Fc
                          /\ subtree (Question q y n) (b :: p.*2)
                             = subtree tc (p.*2)
                          /\ Fc ⊆ {[a]} ∪ Fy ∪ Fn) as (tc & Fc & Hrc & Hs & HFc).
    { destruct Hb as [-> | ->]; simpl.
      - rewrite Hgy in Hc. injection Hc as <-. exists y, Fy.
        destruct (decide (lit "yes" = lit "yes")); [|contradiction].
        split; [exact Hy|]. split; [reflexivity|set_solver].
      - rewrite Hgn in Hc. injection Hc as <-. exists n, Fn.
        destruct (decide (lit "no" = lit "yes")) as [E|_];
          [destruct (no_is_not_yes E)|].
        split; [exact Hn|]. split; [reflexivity|set_solver]. }
    destruct (IH tc Fc Hrc) as (t' & F' & Hs' & Hr' & HF' & Hall).
    exists t', F'. rewrite fmap_cons. cbn [snd]. rewrite Hs.
    split; [exact Hs'|]. split; [exact Hr'|]. split; [set_solver|].
    intros x b' Hin. apply elem_of_cons in Hin as [[= -> ->]|Hin].
    + exists a. split; [reflexivity|set_solver].
    + destruct (Hall x b' Hin) as (ax & -> & Hax). exists ax.
      split; [reflexivity|set_solver].
Qed.

Lemma graft_nil (t new : TreeNode) : graft t [] new = new.
Proof. destruct t; reflexivity. Qed.

Section Graft.
(** The store [h], to which the dicts of a new subtree [new_t] have been
    added; [parent[side] = newv] is then run on the dict at [a]. *)
Variables (h extra : heap) (newv : value) (new_t : TreeNode).
Variables (Fnew : gset addr) (a : addr) (side : str) (vleaf : value).
Hypothesis Hnew : repr (h ++ extra) newv new_t Fnew.
Hypothesis Hfresh : forall x, x ∈ Fnew -> (length h <= x)%nat.

Lemma graft_last (d : dict) (v : value) (t : TreeNode) (F : gset addr) :
  repr h v t F ->
  walk h v [(VRef a, side)] vleaf ->
  h !! a = Some (ODict d) ->
  exists F',
    repr (<[a := ODict (dict_set d side newv)]> (h ++ extra)) v
         (graft t [side] new_t) F'
    /\ F' ⊆ F ∪ Fnew.
Proof.
  intros Hr Hw Ha.
  inversion Hw as [|v0 d0 b child p0 v0' Hd Hg Hb Hc Hw' E1 E2]; subst.
  unfold as_dict in Hd. rewrite Ha in Hd. injection Hd as <-.
  inversion Hr as [a0 g Ha0|a0 d' q vy vn y n Fy Fn Ha0 Hp Hy Hn Hay Han Hdis];
    subst; rewrite Ha in Ha0; injection Ha0 as Ed;
    [rewrite Ed in Hg; discriminate Hg|subst d'].
  pose proof (repr_lt _ _ _ _ Hy) as Hly.
  pose proof (repr_lt _ _ _ _ Hn) as Hln.
  assert (a < length h)%nat as Hlt by (eapply lookup_lt_Some, Ha).
  assert (a ∉ Fnew) as Hanew by (intros Hx; apply Hfresh in Hx; lia).
  assert (<[a := ODict (dict_set d side newv)]> (h ++ extra) !! a
          = Some (ODict (dict_set d side newv))) as Hlook.
  { apply list_lookup_insert_eq. rewrite length_app. lia. }
  destruct Hb as [-> | ->]; cbn [graft]; rewrite !graft_nil.
  - destruct (decide (lit "yes" = lit "yes")); [|contradiction].
    exists ({[a]} ∪ Fnew ∪ Fn). split; [|set_solver].
    eapply repr_question.
    + exact Hlook.
    + apply (dict_set_question d q vy vn newv true Hp).
    + apply repr_insert; assumption.
    + apply repr_insert; [apply repr_app|]; assumption.
    + exact Hanew.
    + exact Han.
    + intros x Hx1 Hx2. apply Hfresh in Hx1. apply Hln in Hx2. lia.
  - destruct (decide (lit "no" = lit "yes")) as [E|_];
      [destruct (no_is_not_yes E)|].
    exists ({[a]} ∪ Fy ∪ Fnew). split; [|set_solver].
    eapply repr_question.
    + exact Hlook.
    + apply (dict_set_question d q vy vn newv false Hp).
    + apply repr_insert; [apply repr_app|]; assumption.
    + apply repr_insert; assumption.
    + exact Hay.
    + exact Hanew.
    + intros x Hx1 Hx2. apply Hfresh in Hx2. apply Hly in Hx1. lia.
Qed.

Lemma graft_update (d : dict) (p : list (value * str)) :
  h !! a = Some (ODict d) ->
  forall (v : value) (t : TreeNode) (F : gset addr),
    repr h v t F ->
    walk h v (p ++ [(VRef a, side)]) vleaf ->
    exists F',
      repr (<[a := ODict (dict_set d side newv)]> (h ++ extra)) v
           (graft t ((p ++ [(VRef a, side)]).*2) new_t) F'
      /\ F' ⊆ F ∪ Fnew.
Proof.
  intros Ha. induction p as [|[v0 b] p IH]; intros v t F Hr Hw.
  - eapply graft_last; eassumption.
  - simpl in Hw.
    inversion Hw as [|v1 d0 b1 child p0 v0' Hd Hg Hb Hc Hw' E1 E2]; subst.
    inversion Hr as [a0 g Ha0|a0 d' q vy vn y n Fy Fn Ha0 Hp Hy Hn Hay Han Hdis];
      subst; unfold as_dict in Hd; rewrite Ha0 in Hd; injection Hd as <-;
      [discriminate Hg|].
    pose proof (question_dict_get _ _ _ _ Hp) as (_ & Hgy & Hgn & _).
    pose proof (repr_lt _ _ _ _ Hy) as Hly.
    pose proof (repr_lt _ _ _ _ Hn) as Hln.
    assert (a0 < length h)%nat as Hlt0 by (eapply lookup_lt_Some, Ha0).
    assert (forall tc Fc, repr h child tc Fc -> a ∈ Fc) as Hain.
    { intros tc Fc Hrc.
      destruct (walk_subtree _ _ _ _ Hw' tc Fc Hrc) as (_ & _ & _ & _ & _ & Hall).
      destruct (Hall (VRef a) side) as (ax & [= <-] & Hax); [|exact Hax].
      apply elem_of_app. right. apply list_elem_of_singleton. reflexivity. }
    rewrite <- app_comm_cons, fmap_cons. cbn [snd graft].
    destruct Hb as [-> | ->].
    + rewrite Hgy in Hc. injection Hc as <-.
      destruct (decide (lit "yes" = lit "yes")); [|contradiction].
      destruct (IH _ _ _ Hy Hw') as (F' & Hr' & HF').
      pose proof (Hain _ _ Hy) as HaFy.
      assert (a <> a0) as Hne by (intros ->; contradiction).
      exists ({[a0]} ∪ F' ∪ Fn). split.
      * eapply repr_question.
        -- rewrite list_lookup_insert_ne by exact Hne.
           rewrite lookup_app_l by exact Hlt0. exact Ha0.
        -- exact Hp.
        -- exact Hr'.
        -- apply repr_insert; [apply repr_app; exact Hn|].
           intros Hx. apply (Hdis a); assumption.
        -- intros Hx. apply HF' in Hx. apply elem_of_union in Hx as [Hx|Hx];
             [contradiction|]. apply Hfresh in Hx. lia.
        -- exact Han.
        -- intros x Hx1 Hx2. apply HF' in Hx1.
           apply elem_of_union in Hx1 as [Hx1|Hx1]; [apply (Hdis x Hx1 Hx2)|].
           apply Hfresh in Hx1. apply Hln in Hx2. lia.
      * set_solver.
    + rewrite Hgn in Hc. injection Hc as <-.
      destruct (decide (lit "no" = lit "yes")) as [E|_];
        [destruct (no_is_not_yes E)|].
      destruct (IH _ _ _ Hn Hw') as (F' & Hr' & HF').
      pose proof (Hain _ _ Hn) as HaFn.
      assert (a <> a0) as Hne by (intros ->; contradiction).
      exists ({[a0]} ∪ Fy ∪ F'). split.
      * eapply repr_question.
        -- rewrite list_lookup_insert_ne by exact Hne.
           rewrite lookup_app_l by exact Hlt0. exact Ha0.
        -- exact Hp.
        -- apply repr_insert; [apply repr_app; exact Hy|].
           intros Hx. apply (Hdis a); assumption.
        -- exact Hr'.
        -- exact Hay.
        -- intros Hx. apply HF' in Hx. apply elem_of_union in Hx as [Hx|Hx];
             [contradiction|]. apply Hfresh in Hx. lia.
        -- intros x Hx1 Hx2. apply HF' in Hx2.
           apply elem_of_union in Hx2 as [Hx2|Hx2]; [apply (Hdis x Hx1 Hx2)|].
           apply Hfresh in Hx2. apply Hly in Hx1. lia.
      * set_solver.
Qed.
End Graft.

Lemma write_chunks_heap (fname : string) (cs : list str) (w : World) :
  w_heap (write_chunks fname cs w).2 = w_heap w.
Proof.
  revert w. induction cs as [|c cs IH]; intros w; simpl; [reflexivity|].
  unfold bind, write_chunk. destruct (utf8_encode c) as [bs|]; [|reflexivity].
  rewrite IH. reflexivity.
Qed.

(** Saving does not touch the store. *)
Lemma save_tree_heap (v : value) (w : World) :
  w_heap (save_tree v w).2 = w_heap w.
Proof.
  unfold save_tree, bind, open_w, modify, json_dump. cbn [w_heap w_files].
  destruct (iterencode (S (length (w_heap w))) (w_heap w) [] 0 v)
    as [chunks e]. unfold bind.
  pose proof (write_chunks_heap DATA_FILE chunks
                (mkWorld (w_heap w) (<[DATA_FILE := []]> (w_files w)))) as Hh.
  destruct (write_chunks DATA_FILE chunks
              (mkWorld (w_heap w) (<[DATA_FILE := []]> (w_files w))))
    as [[[]|ex] w1]; simpl in *; [|exact Hh].
  destruct e; exact Hh.
Qed.

Lemma walk_last (h : heap) (p : list (value * str)) (x : value) (b : str) :
  forall v v', walk h v (p ++ [(x, b)]) v' ->
    exists d, as_dict h x = Some d /\ dict_get d b = Some v'
              /\ (b = lit "yes" \/ b = lit "no").
Proof.
  induction p as [|[v0 b0] p IH]; intros v v' Hw; simpl in Hw;
    inversion Hw as [|v1 d b1 child p0 v1' Hd Hg Hb Hc Hw' E1 E2]; subst.
  - inversion Hw'; subst. exists d. repeat split; assumption.
  - eapply IH, Hw'.
Qed.

Lemma new_node_repr (h : heap) (q l1 l2 : str) :
  let L := length h in
  repr (h ++ [ODict [(lit "guess", VStr l1)];
              ODict [(lit "guess", VStr l2)];
              ODict [(lit "q", VStr q); (lit "yes", VRef L);
                     (lit "no", VRef (L + 1)%nat)]])
       (VRef (L + 2)%nat) (Question q (Leaf l1) (Leaf l2))
       ({[(L + 2)%nat]} ∪ {[L]} ∪ {[(L + 1)%nat]}).
Proof.
  intros L. eapply repr_question.
  - rewrite lookup_app_r by (subst L; lia).
    replace (L + 2 - length h)%nat with 2%nat by (subst L; lia). reflexivity.
  - reflexivity.
  - apply repr_leaf. rewrite lookup_app_r by (subst L; lia).
    replace (L - length h)%nat with 0%nat by (subst L; lia). reflexivity.
  - apply repr_leaf. rewrite lookup_app_r by (subst L; lia).
    replace (L + 1 - length h)%nat with 1%nat by (subst L; lia). reflexivity.
  - intros Hx. apply elem_of_singleton in Hx. lia.
  - intros Hx. apply elem_of_singleton in Hx. lia.
  - intros x Hx1 Hx2. apply elem_of_singleton in Hx1, Hx2. lia.
Qed.

(** Grafting a question with two leaves on a leaf adds one question and
    one leaf. *)
Lemma graft_counts (bs : list str) (q g1 g2 : str) :
  forall (t : TreeNode) (g : str),
    subtree t bs = Some (Leaf g) ->
    leaves (graft t bs (Question q (Leaf g1) (Leaf g2))) = S (leaves t)
    /\ questions (graft t bs (Question q (Leaf g1) (Leaf g2)))
       = S (questions t).
Proof.
  induction bs as [|b bs IH]; intros t g Hs.
  - rewrite graft_nil. destruct t; simpl in Hs; [|discriminate].
    split; reflexivity.
  - destruct t as [g0|q0 y n]; simpl in Hs; [discriminate|]. simpl.
    destruct (decide (b = lit "yes")); destruct (IH _ _ Hs) as [Hl Hq];
      simpl; rewrite Hl, Hq; split; lia.
Qed.

(** [learn] on a leaf, step by step. *)
Lemma learn_on_leaf (self : GameState) (w : World) (c : addr) (g : str)
    (true_name new_question : str) (flag : bool) :
  node self = VRef c ->
  w_heap w !! c = Some (ODict [(lit "guess", VStr g)]) ->
  let L := length (w_heap w) in
  let new_node := VRef (L + 2)%nat in
  let h3 :=
    w_heap w
    ++ [ODict [(lit "guess", VStr (if flag then true_name else g))];
        ODict [(lit "guess", VStr (if flag then g else true_name))];
        ODict [(lit "q", VStr (normalize_question new_question));
               (lit "yes", VRef L); (lit "no", VRef (L + 1)%nat)]] in
  learn true_name new_question flag (self, w)
  = match list.last (path self) with
    | None =>
      let '(r, w') := save_tree new_node (mkWorld h3 (w_files w)) in
      (r, (mkGameState new_node (path self) new_node, w'))
    | Some (parent, side) =>
      match setitem parent side new_node (mkWorld h3 (w_files w)) with
      | (Ok _, w4) =>
        let '(r, w') := save_tree (tree self) w4 in
        (r, (mkGameState (tree self) (path self) new_node, w'))
      | (Raise e, w4) => (Raise e, (self, w4))
      end
    end.
Proof.
  intros En Hc L new_node h3.
  unfold learn, is_leaf, as_dict. rewrite En, Hc.
  change (dict_in (lit "guess") [(lit "guess", VStr g)]) with true.
  cbn [negb]. unfold bind at 1. unfold getitem. rewrite Hc.
  change (dict_get [(lit "guess", VStr g)] (lit "guess")) with (Some (VStr g)).
  unfold bind, new_dict, alloc. cbn [w_heap w_files].
  rewrite !length_app. cbn [length]. fold L.
  replace (L + 1 + 1)%nat with (L + 2)%nat by lia. fold new_node.
  replace (((w_heap w
             ++ [ODict [(lit "guess",
                         if flag then VStr true_name else VStr g)]])
            ++ [ODict [(lit "guess",
                        if flag then VStr g else VStr true_name)]])
           ++ [ODict [(lit "q", VStr (normalize_question new_question));
                      (lit "yes", VRef L); (lit "no", VRef (L + 1)%nat)]])
    with h3 by (subst h3; rewrite <- !app_assoc; destruct flag; reflexivity).
  destruct (list.last (path self)) as [[parent side]|]; [|reflexivity].
  destruct (setitem parent side new_node (mkWorld h3 (w_files w)))
    as [[[]|e] w4]; reflexivity.
Qed.

(** C1. In a session on a leaf, whose path records the descent from the
    root of a tree of the store, [learn] builds two leaves and a question
    node with the normalized question, the leaf of the true name under
    [yes] when the flag is set and under [no] otherwise, and the old guess
    on the other side.  With an empty path the new node becomes the tree;
    otherwise it is stored in [parent[branch]] of the last path entry.  The
    tree is then the old one with that leaf replaced by the new question:
    one question and one leaf more.  [save_tree] runs last. *)
Theorem learn_grafts (self : GameState) (w : World) (t : TreeNode)
    (F : gset addr) (true_name new_question : str) (flag : bool) :
  repr (w_heap w) (tree self) t F ->
  walk (w_heap w) (tree self) (path self) (node self) ->
  Guessing self w ->
  exists old_guess,
    subtree t ((path self).*2) = Some (Leaf old_guess)
    /\ let q := normalize_question new_question in
       let new_t := if flag then Question q (Leaf true_name) (Leaf old_guess)
                    else Question q (Leaf old_guess) (Leaf true_name) in
       let L := length (w_heap w) in
       exists r self' w' F',
         learn true_name new_question flag (self, w) = (r, (self', w'))
         /\ node self' = VRef (L + 2)%nat
         /\ path self' = path self
         /\ w_heap w' !! (L + 2)%nat
            = Some (ODict [(lit "q", VStr q); (lit "yes", VRef L);
                           (lit "no", VRef (L + 1)%nat)])
         /\ w_heap w' !! L
            = Some (ODict [(lit "guess",
                            VStr (if flag then true_name else old_guess))])
         /\ w_heap w' !! (L + 1)%nat
            = Some (ODict [(lit "guess",
                            VStr (if flag then old_guess else true_name))])
         /\ match list.last (path self) with
            | None => tree self' = node self'
            | Some (parent, branch) =>
              tree self' = tree self
              /\ exists d, as_dict (w_heap w') parent = Some d
                           /\ dict_get d branch = Some (node self')
            end
         /\ repr (w_heap w') (tree self')
                 (graft t ((path self).*2) new_t) F'
         /\ leaves (graft t ((path self).*2) new_t) = S (leaves t)
         /\ questions (graft t ((path self).*2) new_t) = S (questions t)
         /\ (r, w') = save_tree (tree self')
                                (mkWorld (w_heap w') (w_files w)).
Proof.
  intros Hr Hw Hleaf.
  destruct (walk_subtree _ _ _ _ Hw t F Hr) as (t' & F0 & Hs & Hr' & HF0 & Hall).
  unfold Guessing in Hleaf. rewrite (repr_is_leaf _ _ _ _ Hr') in Hleaf.
  destruct t' as [g|]; [|discriminate Hleaf]. clear Hleaf.
  exists g. split; [exact Hs|]. intros q new_t L.
  inversion Hr' as [c g' Hc En|]; subst g'.
  set (o1 := ODict [(lit "guess", VStr (if flag then true_name else g))]).
  set (o2 := ODict [(lit "guess", VStr (if flag then g else true_name))]).
  set (o3 := ODict [(lit "q", VStr q); (lit "yes", VRef L);
                    (lit "no", VRef (L + 1)%nat)]).
  assert (repr ((w_heap w) ++ [o1; o2; o3]) (VRef (L + 2)%nat) new_t
               ({[(L + 2)%nat]} ∪ {[L]} ∪ {[(L + 1)%nat]})) as Hnew.
  { subst new_t o1 o2 o3 L. destruct flag; apply new_node_repr. }
  assert (forall x, x ∈ ({[(L + 2)%nat]} ∪ {[L]} ∪ {[(L + 1)%nat]} : gset addr)
                    -> (length (w_heap w) <= x)%nat) as Hfresh.
  { intros x Hx. subst L. set_solver by lia. }
  destruct (graft_counts ((path self).*2) q
              (if flag then true_name else g) (if flag then g else true_name)
              t g Hs) as [Hcl Hcq].
  assert (new_t = Question q (Leaf (if flag then true_name else g))
                           (Leaf (if flag then g else true_name))) as Enew.
  { subst new_t. destruct flag; reflexivity. }
  rewrite <- Enew in Hcl, Hcq.
  assert (forall (tr : value) (h4 : heap),
            ((w_heap w) ++ [o1; o2; o3]) !! L = h4 !! L ->
            ((w_heap w) ++ [o1; o2; o3]) !! (L + 1)%nat = h4 !! (L + 1)%nat ->
            ((w_heap w) ++ [o1; o2; o3]) !! (L + 2)%nat = h4 !! (L + 2)%nat ->
            h4 !! (L + 2)%nat = Some o3 /\ h4 !! L = Some o1
            /\ h4 !! (L + 1)%nat = Some o2) as Hobjs.
  { intros tr h4 E0 E1 E2. rewrite <- E0, <- E1, <- E2.
    rewrite !lookup_app_r by (subst L; lia).
    replace (L - length (w_heap w))%nat with 0%nat by (subst L; lia).
    replace (L + 1 - length (w_heap w))%nat with 1%nat by (subst L; lia).
    replace (L + 2 - length (w_heap w))%nat with 2%nat by (subst L; lia).
    repeat split. }
  rewrite (learn_on_leaf self w c g true_name new_question flag
                         (eq_sym En) Hc).
  cbv zeta. fold L q o1 o2 o3.
  destruct (list.last (path self)) as [[parent side]|] eqn:Elast.
  - apply last_Some in Elast as [p Ep].
    rewrite Ep in Hw, Hall, Hcl, Hcq |- *.
    destruct (walk_last _ _ _ _ _ _ Hw) as (d & Hd & Hget & Hside).
    destruct (Hall parent side) as (a & -> & Ha).
    { apply elem_of_app. right. apply list_elem_of_singleton. reflexivity. }
    unfold as_dict in Hd. destruct ((w_heap w) !! a) as [[d'|]|] eqn:Hha; try discriminate.
    injection Hd as ->.
    assert ((w_heap w ++ [o1; o2; o3]) !! a = Some (ODict d)) as Hha3.
    { rewrite lookup_app_l by (eapply lookup_lt_Some, Hha). exact Hha. }
    unfold setitem. cbn [w_heap w_files]. rewrite Hha3.
    destruct (graft_update (w_heap w) [o1; o2; o3] (VRef (L + 2)%nat) new_t _ a side
                (node self) Hnew Hfresh d p Hha (tree self) t F Hr Hw)
      as (F' & Hr4 & _).
    set (h4 := <[a := ODict (dict_set d side (VRef (L + 2)%nat))]>
                 ((w_heap w) ++ [o1; o2; o3])) in *.
    assert (a < length (w_heap w))%nat as Hlt by (eapply lookup_lt_Some, Hha).
    destruct (Hobjs (tree self) h4) as (Ho3 & Ho1 & Ho2);
      try (subst h4; rewrite list_lookup_insert_ne by (subst L; lia);
           reflexivity).
    pose proof (save_tree_heap (tree self) (mkWorld h4 (w_files w))) as Hsh.
    destruct (save_tree (tree self) (mkWorld h4 (w_files w))) as [r w''] eqn:Es.
    cbn [snd w_heap] in Hsh.
    exists r, (mkGameState (tree self) (p ++ [(VRef a, side)]) (VRef (L + 2)%nat)),
      w'', F'.
    cbn [tree path node]. rewrite Hsh.
    split; [reflexivity|]. split; [reflexivity|]. split; [reflexivity|].
    split; [exact Ho3|]. split; [exact Ho1|]. split; [exact Ho2|].
    split.
    { split; [reflexivity|]. exists (dict_set d side (VRef (L + 2)%nat)).
      split.
      - unfold as_dict. subst h4.
        rewrite list_lookup_insert_eq by (rewrite length_app; lia). reflexivity.
      - rewrite dict_get_set. destruct (decide (side = side)); [|contradiction].
        reflexivity. }
    split; [exact Hr4|]. split; [exact Hcl|]. split; [exact Hcq|].
    rewrite Es. reflexivity.
  - apply last_None in Elast. rewrite Elast in Hw, Hs, Hcl, Hcq |- *.
    inversion Hw; subst. cbn [fmap list_fmap] in *.
    rewrite graft_nil in *.
    destruct (Hobjs (tree self) ((w_heap w) ++ [o1; o2; o3])) as (Ho3 & Ho1 & Ho2);
      try reflexivity.
    pose proof (save_tree_heap (VRef (L + 2)%nat)
                  (mkWorld ((w_heap w) ++ [o1; o2; o3]) (w_files w))) as Hsh.
    destruct (save_tree (VRef (L + 2)%nat)
                (mkWorld ((w_heap w) ++ [o1; o2; o3]) (w_files w))) as [r w''] eqn:Es.
    cbn [snd w_heap] in Hsh.
    exists r, (mkGameState (VRef (L + 2)%nat) [] (VRef (L + 2)%nat)), w'',
      ({[(L + 2)%nat]} ∪ {[L]} ∪ {[(L + 1)%nat]}).
    cbn [tree path node]. rewrite Hsh.
    split; [reflexivity|]. split; [reflexivity|]. split; [reflexivity|].
    split; [exact Ho3|]. split; [exact Ho1|]. split; [exact Ho2|].
    split; [reflexivity|]. split; [exact Hnew|].
    split; [exact Hcl|]. split; [exact Hcq|]. rewrite Es. reflexivity.
Qed.

Lemma seed_world_repr : exists F, repr (w_heap seed_world) seed_root default_tree_t F.
Proof.
  destruct (build_tree_doc default_tree_t []) as (a & F & extra & Eb & Hr & _).
  rewrite default_tree_doc_eq, app_nil_l in Eb. rewrite app_nil_l in Hr.
  assert (build default_tree_doc [] = (seed_root, w_heap seed_world)) as E0
    by (vm_compute; reflexivity).
  rewrite E0 in Eb. injection Eb as <- <-.
  exists F. exact Hr.
Qed.

Lemma learn_grafts_witness :
  let yes := lit "yes" in
  let self := mkGameState seed_root
                [(VRef 28%nat, yes); (VRef 12%nat, yes); (VRef 2%nat, yes)]
                (VRef 0%nat) in
  exists r self' w' F',
    learn (lit "Marmu") (lit " ¿Es un sueño ") true (self, seed_world)
    = (r, (self', w'))
    /\ tree self' = seed_root
    /\ repr (w_heap w') (tree self')
            (graft default_tree_t [yes; yes; yes]
                   (Question (lit "¿Es un sueño?") (Leaf (lit "Marmu"))
                             (Leaf (lit "Radiancia")))) F'.
Proof.
  intros yes self. destruct seed_world_repr as [F Hr].
  destruct (learn_grafts self seed_world default_tree_t F
                         (lit "Marmu") (lit " ¿Es un sueño ") true)
    as (g & Hs & r & self' & w' & F' & E & _ & _ & _ & _ & _ & Ht & Hr' & _).
  - exact Hr.
  - eapply walk_cons; [vm_compute; reflexivity|reflexivity|left; reflexivity
                       |vm_compute; reflexivity|].
    eapply walk_cons; [vm_compute; reflexivity|reflexivity|left; reflexivity
                       |vm_compute; reflexivity|].
    eapply walk_cons; [vm_compute; reflexivity|reflexivity|left; reflexivity
                       |vm_compute; reflexivity|].
    apply walk_nil.
  - vm_compute. reflexivity.
  - vm_compute in Hs. injection Hs as <-.
    exists r, self', w', F'. split; [exact E|]. split; [apply Ht|].
    exact Hr'.
Defined.

(** ** UTF-8: decoding what was encoded *)

Lemma divmod64 (c : N) : c = 64 * (c / 64) + c mod 64 /\ c mod 64 < 64.
Proof. split; [apply N.div_mod'|apply N.mod_lt; discriminate]. Qed.

Lemma div4096 (c : N) : c / 4096 = c / 64 / 64.
Proof. rewrite N.Div0.div_div. reflexivity. Qed.

Lemma div262144 (c : N) : c / 262144 = c / 64 / 64 / 64.
Proof. rewrite !N.Div0.div_div. reflexivity. Qed.

(** Name the quotients and remainders by 64 of [c], for [lia]. *)
Ltac divmod c :=
  rewrite ?div262144, ?div4096 in *;
  pose proof (divmod64 c) as [? ?];
  pose proof (divmod64 (c / 64)) as [? ?];
  pose proof (divmod64 (c / 64 / 64)) as [? ?];
  generalize dependent (c / 64 / 64 / 64); intros;
  generalize dependent (c / 64 / 64 mod 64); intros;
  generalize dependent (c / 64 / 64); intros;
  generalize dependent (c / 64 mod 64); intros;
  generalize dependent (c / 64); intros;
  generalize dependent (c mod 64); intros.

Ltac bool_to_prop :=
  repeat match goal with
  | H : (_ <? _) = true |- _ => apply N.ltb_lt in H
  | H : (_ <? _) = false |- _ => apply N.ltb_ge in H
  | H : (_ <=? _) = true |- _ => apply N.leb_le in H
  | H : (_ <=? _) = false |- _ => apply N.leb_gt in H
  | H : (_ =? _) = true |- _ => apply N.eqb_eq in H
  | H : (_ =? _) = false |- _ => apply N.eqb_neq in H
  | H : (_ && _) = true |- _ => apply andb_true_iff in H as [? ?]
  | H : (_ || _) = false |- _ => apply orb_false_iff in H as [? ?]
  end.

Lemma ltb_false (a b : N) : b <= a -> (a <? b) = false.
Proof. apply N.ltb_ge. Qed.
Lemma ltb_true (a b : N) : a < b -> (a <? b) = true.
Proof. apply N.ltb_lt. Qed.
Lemma leb_true (a b : N) : a <= b -> (a <=? b) = true.
Proof. apply N.leb_le. Qed.
Lemma leb_false (a b : N) : b < a -> (a <=? b) = false.
Proof. apply N.leb_gt. Qed.

Section UTF8.
#[local] Arguments N.ltb : simpl never.
#[local] Arguments N.leb : simpl never.
#[local] Arguments N.eqb : simpl never.
#[local] Arguments N.add : simpl never.
#[local] Arguments N.sub : simpl never.
#[local] Arguments N.mul : simpl never.
#[local] Arguments N.div : simpl never.
#[local] Arguments N.modulo : simpl never.

Lemma utf8_decode_encode_char (c : char) (bs rest : list N) :
  utf8_encode_char c = Some bs ->
  utf8_decode (bs ++ rest) = cons c <$> utf8_decode rest.
Proof.
  unfold utf8_encode_char, is_surrogate.
  destruct (c <? 0x80) eqn:E1.
  { intros [= <-]. simpl. rewrite E1. reflexivity. }
  destruct (c <? 0x800) eqn:E2.
  { intros [= <-]. simpl. unfold is_cont. bool_to_prop.
    assert (0x80 <= 0xC0 + c / 64 /\ 0xC2 <= 0xC0 + c / 64 <= 0xDF
            /\ 0x80 <= 0x80 + c mod 64 <= 0xBF
            /\ (0xC0 + c / 64 - 0xC0) * 64 + (0x80 + c mod 64 - 0x80) = c)
      as (H1 & [H2 H3] & [H4 H5] & ->) by (divmod c; lia).
    rewrite (ltb_false _ _ H1), !leb_true by assumption. reflexivity. }
  destruct (c <? 0x10000) eqn:E3.
  { destruct ((0xD800 <=? c) && (c <=? 0xDFFF)) eqn:Es; [discriminate|].
    intros [= <-]. simpl. unfold is_cont, is_surrogate. bool_to_prop.
    assert (0x80 <= 0xE0 + c / 4096 /\ 0xDF < 0xE0 + c / 4096
            /\ 0xE0 <= 0xE0 + c / 4096 <= 0xEF
            /\ 0x80 <= 0x80 + (c / 64) mod 64 <= 0xBF
            /\ 0x80 <= 0x80 + c mod 64 <= 0xBF
            /\ (0xE0 + c / 4096 - 0xE0) * 4096
               + (0x80 + (c / 64) mod 64 - 0x80) * 64
               + (0x80 + c mod 64 - 0x80) = c)
      as (H1 & H1' & [H2 H3] & [H4 H5] & [H6 H7] & ->) by (divmod c; lia).
    rewrite (ltb_false _ _ H1), (leb_false _ _ H1'), andb_false_r.
    rewrite !leb_true by assumption. rewrite Es. reflexivity. }
  destruct (c <? 0x110000) eqn:E4; [|discriminate].
  intros [= <-]. simpl. unfold is_cont. bool_to_prop.
  assert (0x80 <= 0xF0 + c / 262144 /\ 0xDF < 0xF0 + c / 262144
          /\ 0xEF < 0xF0 + c / 262144
          /\ 0xF0 <= 0xF0 + c / 262144 <= 0xF4
          /\ 0x80 <= 0x80 + (c / 4096) mod 64 <= 0xBF
          /\ 0x80 <= 0x80 + (c / 64) mod 64 <= 0xBF
          /\ 0x80 <= 0x80 + c mod 64 <= 0xBF
          /\ (0xF0 + c / 262144 - 0xF0) * 262144
             + (0x80 + (c / 4096) mod 64 - 0x80) * 4096
             + (0x80 + (c / 64) mod 64 - 0x80) * 64
             + (0x80 + c mod 64 - 0x80) = c)
    as (H1 & H1' & H1'' & [H2 H3] & [H4 H5] & [H6 H7] & [H8 H9] & ->)
    by (divmod c; lia).
  rewrite (ltb_false _ _ H1), (leb_false _ _ H1'), (leb_false _ _ H1''),
    !andb_false_r.
  rewrite !leb_true by assumption. simpl.
  rewrite (ltb_true _ _ E4). reflexivity.
Qed.

Lemma utf8_decode_encode (s : str) (bs : list N) :
  utf8_encode s = Some bs -> utf8_decode bs = Some s.
Proof.
  revert bs. induction s as [|c s IH]; intros bs; simpl.
  - intros [= <-]. reflexivity.
  - destruct (utf8_encode_char c) as [b1|] eqn:Ec; [|discriminate].
    destruct (utf8_encode s) as [b2|]; [|discriminate].
    intros [= <-]. rewrite (utf8_decode_encode_char c b1 b2 Ec).
    rewrite (IH b2 eq_refl). reflexivity.
Qed.
End UTF8.

(** ** Reading back what [json.dump] wrote *)

Lemma hex_value_digit (n : N) : n < 16 -> hex_value (hex_digit n) = Some n.
Proof.
  intros Hn. unfold hex_digit, hex_value.
  destruct (n <? 10) eqn:E; bool_to_prop.
  - rewrite !leb_true by lia. simpl. f_equal. lia.
  - rewrite (leb_false (87 + n) 57) by lia. rewrite andb_false_r.
    rewrite !leb_true by lia. simpl. f_equal. lia.
Qed.

Lemma escape_char_length (c : char) : (1 <= length (escape_char c))%nat.
Proof.
  unfold escape_char.
  repeat match goal with |- context [if ?b then _ else _] => destruct b end;
    simpl; lia.
Qed.

(** The scanner reads a string back from its encoding. *)
Lemma scanstring_escape (s : str) :
  forall (fuel : nat) (rest : str),
    (length s < fuel)%nat ->
    scanstring fuel (concat (map escape_char s) ++ 34 :: rest) = Some (s, rest).
Proof.
  induction s as [|c s IH]; intros fuel rest Hf;
    (destruct fuel as [|fuel]; [simpl in Hf; lia|]).
  - reflexivity.
  - simpl in Hf. specialize (IH fuel rest ltac:(lia)).
    cbn [map concat]. rewrite <- app_assoc.
    remember (concat (map escape_char s)) as tl eqn:Etl.
    unfold escape_char.
    destruct (c =? 34) eqn:E34.
    { bool_to_prop. subst c. simpl. rewrite IH. reflexivity. }
    destruct (c =? 92) eqn:E92.
    { bool_to_prop. subst c. simpl. rewrite IH. reflexivity. }
    destruct (c =? 10) eqn:E10.
    { bool_to_prop. subst c. simpl. rewrite IH. reflexivity. }
    destruct (c =? 13) eqn:E13.
    { bool_to_prop. subst c. simpl. rewrite IH. reflexivity. }
    destruct (c =? 9) eqn:E9.
    { bool_to_prop. subst c. simpl. rewrite IH. reflexivity. }
    destruct (c =? 8) eqn:E8.
    { bool_to_prop. subst c. simpl. rewrite IH. reflexivity. }
    destruct (c =? 12) eqn:E12.
    { bool_to_prop. subst c. simpl. rewrite IH. reflexivity. }
    destruct (c <? 32) eqn:E32.
    + cbn [app scanstring]. change (92 =? 34) with false.
      change (92 =? 92) with true. change (117 =? 117) with true.
      cbv iota. unfold decode_uXXXX.
      change (hex_value 48) with (Some 0).
      bool_to_prop.
      rewrite !hex_value_digit
        by (try (apply N.mod_lt; discriminate);
            apply N.Div0.div_lt_upper_bound; lia).
      replace (0 * 4096 + 0 * 256 + c / 16 * 16 + c mod 16) with c
        by (rewrite (N.div_mod' c 16) at 1; lia).
      rewrite (leb_false 0xD800 c) by lia. cbn [andb].
      rewrite IH. reflexivity.
    + cbn [app scanstring]. rewrite E34, E92, E32, IH. reflexivity.
Qed.

Lemma escape_length (s : str) :
  (length s <= length (concat (map escape_char s)))%nat.
Proof.
  induction s as [|c s IH]; simpl; [lia|].
  rewrite length_app. pose proof (escape_char_length c). lia.
Qed.

Lemma skip_ws_spaces (n : nat) (x : str) :
  skip_ws (concat (repeat [32; 32] n) ++ x) = skip_ws x.
Proof. induction n as [|n IH]; simpl; [reflexivity|exact IH]. Qed.

Lemma skip_ws_newline_indent (lvl : nat) (x : str) :
  skip_ws (newline_indent lvl ++ x) = skip_ws x.
Proof. unfold newline_indent. simpl. apply skip_ws_spaces. Qed.

Lemma dumps_members_fix (lvl : nat) (d : list (str * json)) :
  (fix members (d : list (str * json)) : str :=
     match d with
     | [] => []
     | (k, x) :: d' =>
       encode_basestring k ++ [58; 32] ++ dumps (S lvl) x
       ++ match d' with
          | [] => newline_indent lvl
          | _ => 44 :: newline_indent (S lvl)
          end
       ++ members d'
     end) d
  = dumps_members lvl d.
Proof.
  induction d as [|[k x] d IH]; [reflexivity|].
  cbn [dumps_members]. rewrite <- IH. reflexivity.
Qed.

Lemma dumps_dict_eq (lvl : nat) (kx : str * json) (d : list (str * json)) :
  dumps lvl (JDict (kx :: d))
  = 123 :: newline_indent (S lvl) ++ dumps_members lvl (kx :: d) ++ [125].
Proof. rewrite <- dumps_members_fix. reflexivity. Qed.

(** ** Reading an integer back *)

Lemma uint_chars_value (d : Decimal.uint) :
  forall acc : positive,
    fold_left (fun a c => (10 * a + Z.of_N (c - 48))%Z) (uint_chars d)
              (Z.pos acc)
    = Z.pos (Pos.of_uint_acc d acc).
Proof.
  induction d; intros acc; cbn [uint_chars fold_left Pos.of_uint_acc];
    [reflexivity|..];
    match goal with
    | |- fold_left _ _ ?z = _ =>
      match goal with
      | |- _ = Z.pos (Pos.of_uint_acc _ ?a) =>
        replace z with (Z.pos a) by (simpl Z.of_N; lia)
      end
    end; apply IHd.
Qed.

Lemma digits_value_uint (d : Decimal.uint) :
  digits_value (uint_chars d) = Z.of_N (Pos.of_uint d).
Proof.
  unfold digits_value.
  induction d; cbn [uint_chars fold_left Pos.of_uint];
    [reflexivity|exact IHd|..];
    match goal with
    | |- fold_left _ _ ?z = Z.of_N (N.pos (Pos.of_uint_acc _ ?a)) =>
      change z with (Z.pos a)
    end; apply uint_chars_value.
Qed.

Lemma nzhead_starts (d : Decimal.uint) :
  Decimal.nzhead d = Decimal.Nil \/ starts_nz (Decimal.nzhead d) = true.
Proof.
  induction d; cbn [Decimal.nzhead starts_nz]; auto.
Qed.

Lemma to_uint_starts (p : positive) : starts_nz (Pos.to_uint p) = true.
Proof.
  pose proof (DecimalPos.Unsigned.to_of (Pos.to_uint p)) as H.
  rewrite DecimalPos.Unsigned.of_to in H. cbn [N.to_uint] in H.
  pose proof (DecimalPos.Unsigned.to_uint_nonzero p) as Hnz.
  unfold Decimal.unorm in H.
  destruct (nzhead_starts (Pos.to_uint p)) as [E|E].
  - rewrite E in H. contradiction.
  - destruct (Decimal.nzhead (Pos.to_uint p)); try discriminate E;
      rewrite H; reflexivity.
Qed.

Lemma float_tail_delimited (rest : str) :
  delimited rest = true -> float_tail rest = false.
Proof.
  destruct rest as [|c r]; [reflexivity|]. cbn [delimited]. intros H.
  apply orb_true_iff in H as [H|H]; apply N.eqb_eq in H; subst c;
    destruct r; reflexivity.
Qed.

Lemma span_digits_uint (d : Decimal.uint) (rest : str) :
  delimited rest = true ->
  span_digits (uint_chars d ++ rest) = (uint_chars d, rest).
Proof.
  intros H.
  induction d; cbn [uint_chars app span_digits];
    try (change (is_digit 48) with true; change (is_digit 49) with true;
         change (is_digit 50) with true; change (is_digit 51) with true;
         change (is_digit 52) with true; change (is_digit 53) with true;
         change (is_digit 54) with true; change (is_digit 55) with true;
         change (is_digit 56) with true; change (is_digit 57) with true;
         cbv iota; rewrite IHd; reflexivity).
  destruct rest as [|c r]; [reflexivity|]. cbn [delimited] in H.
  cbn [span_digits].
  apply orb_true_iff in H as [H|H]; apply N.eqb_eq in H; subst c; reflexivity.
Qed.

Lemma match_number_uint (d : Decimal.uint) (rest : str) :
  starts_nz d = true ->
  delimited rest = true ->
  match_number (uint_chars d ++ rest)
  = Some (JInt (digits_value (uint_chars d)), rest)
  /\ match_number (45 :: uint_chars d ++ rest)
     = Some (JInt (- digits_value (uint_chars d)), rest).
Proof.
  intros Hd Hr.
  destruct d; try discriminate Hd;
    cbn [uint_chars app]; unfold match_number;
    cbn [N.eqb Pos.eqb N.leb N.compare Pos.compare Pos.compare_cont andb];
    cbv iota; rewrite (span_digits_uint _ _ Hr);
    rewrite (float_tail_delimited _ Hr); split; reflexivity.
Qed.

Lemma match_number_intstr (z : Z) (rest : str) :
  delimited rest = true ->
  match_number (intstr z ++ rest) = Some (JInt z, rest).
Proof.
  intros Hr. destruct z as [|p|p]; cbn [intstr app].
  - unfold match_number.
    cbn [N.eqb Pos.eqb N.leb N.compare Pos.compare Pos.compare_cont andb].
    cbv iota. rewrite (float_tail_delimited _ Hr). reflexivity.
  - destruct (match_number_uint (Pos.to_uint p) rest (to_uint_starts p) Hr)
      as [-> _].
    rewrite digits_value_uint, DecimalPos.Unsigned.of_to. reflexivity.
  - destruct (match_number_uint (Pos.to_uint p) rest (to_uint_starts p) Hr)
      as [_ ->].
    rewrite digits_value_uint, DecimalPos.Unsigned.of_to. reflexivity.
Qed.

Lemma intstr_head (z : Z) :
  exists c r, intstr z = c :: r /\ (c = 45 \/ is_digit c = true).
Proof.
  destruct z as [|p|p]; cbn [intstr].
  - exists 48, []. auto.
  - pose proof (to_uint_starts p) as H.
    destruct (Pos.to_uint p); try discriminate H; cbn [uint_chars];
      eexists _, _; (split; [reflexivity|right; reflexivity]).
  - eexists _, _. split; [reflexivity|left; reflexivity].
Qed.

Lemma startswith_head (c c' : char) (r p : str) :
  c <> c' -> startswith (c :: r) (c' :: p) = false.
Proof.
  intros Hne. unfold startswith. apply bool_decide_eq_false_2.
  cbn [length take]. intros [= E _]. contradiction.
Qed.

Lemma scan_once_number (fuel : nat) (c : char) (r : str) :
  c = 45 \/ is_digit c = true ->
  scan_once (S fuel) (c :: r) = match_number (c :: r).
Proof.
  intros Hc.
  assert (c = 45 \/ (48 <= c /\ c <= 57)) as Hc'.
  { destruct Hc as [->|H]; [left; reflexivity|right].
    unfold is_digit in H. bool_to_prop. lia. }
  cbn [scan_once].
  assert ((c =? 34) = false) as -> by (apply N.eqb_neq; lia).
  assert ((c =? 123) = false) as -> by (apply N.eqb_neq; lia).
  assert ((c =? 91) = false) as -> by (apply N.eqb_neq; lia).
  assert (forall word : string,
             match lit word with c' :: _ => c <> c' | [] => False end ->
             startswith (c :: r) (lit word) = false) as Hsw.
  { intros word Hw. destruct (lit word) as [|c' pre]; [contradiction|].
    apply startswith_head. exact Hw. }
  rewrite !Hsw by (vm_compute; lia). reflexivity.
Qed.

Section ObjectLoop.
Variable scan : str -> option (json * str).
Variable lvl : nat.

Lemma plain_head (j : json) (l : nat) (x : str) :
  plain j = true -> skip_ws (dumps l j ++ x) = dumps l j ++ x.
Proof.
  destruct j as [| |n|s|?|[|kx d]]; try discriminate; intros _.
  - cbn [dumps]. destruct (intstr_head n) as (c & r & -> & Hc).
    cbn [app skip_ws].
    assert (is_ws c = false) as ->; [|reflexivity].
    destruct Hc as [->|Hc]; [reflexivity|].
    unfold is_digit in Hc. unfold is_ws. bool_to_prop.
    rewrite !(proj2 (N.eqb_neq _ _)) by lia. reflexivity.
  - reflexivity.
  - reflexivity.
  - rewrite dumps_dict_eq. reflexivity.
Qed.

Lemma delimited_newline_indent (l : nat) (x : str) :
  delimited (newline_indent l ++ x) = true.
Proof. reflexivity. Qed.

Lemma object_loop_members (d : list (str * json)) :
  forall (k : str) (v : json) (f : nat) (rest : str),
    plain v = true -> reads scan lvl v ->
    Forall (fun kv => plain kv.2 = true /\ reads scan lvl kv.2) d ->
    (length d < f)%nat ->
    object_loop scan f
      (concat (map escape_char k) ++ 34 :: 58 :: 32 :: dumps (S lvl) v
       ++ match d with
          | [] => newline_indent lvl
          | _ => 44 :: newline_indent (S lvl)
          end
       ++ dumps_members lvl d ++ 125 :: rest)
    = Some ((k, v) :: d, rest).
Proof.
  induction d as [|[k' v'] d IH]; intros k v f rest Hv Hs Hd Hf;
    (destruct f as [|f]; [simpl in Hf; lia|]); cbn [object_loop].
  - rewrite scanstring_escape
      by (rewrite length_app; pose proof (escape_length k); simpl; lia).
    simpl. rewrite (plain_head v (S lvl)) by exact Hv.
    rewrite Hs by reflexivity. simpl. rewrite skip_ws_spaces. reflexivity.
  - rewrite scanstring_escape
      by (rewrite length_app; pose proof (escape_length k); simpl; lia).
    simpl. rewrite (plain_head v (S lvl)) by exact Hv.
    rewrite Hs by reflexivity. simpl.
    apply Forall_cons in Hd as [[Hv' Hs'] Hd].
    rewrite skip_ws_spaces. simpl.
    repeat (rewrite <- ?app_assoc; cbn [app]).
    rewrite (IH k' v' f rest Hv' Hs' Hd) by (simpl in Hf; lia).
    reflexivity.
Qed.
End ObjectLoop.


Lemma jsize_member (d : list (str * json)) (kv : str * json) :
  kv ∈ d -> (jsize kv.2 < list_sum (map (fun kv => S (jsize kv.2)) d))%nat.
Proof.
  induction d as [|kv' d IH]; intros Hin.
  - apply elem_of_nil in Hin. contradiction.
  - simpl. apply elem_of_cons in Hin as [->|Hin]; [lia|].
    specialize (IH Hin). lia.
Qed.

Lemma length_le_sum (d : list (str * json)) :
  (length d <= list_sum (map (fun kv => S (jsize kv.2)) d))%nat.
Proof. induction d as [|kv d IH]; simpl; lia. Qed.

(** The scanner reads a document of objects, strings and integers back
    from its text. *)
Lemma scan_once_dumps (j : json) :
  plain j = true ->
  forall (lvl fuel : nat) (rest : str),
    delimited rest = true ->
    (jsize j < fuel)%nat ->
    scan_once fuel (dumps lvl j ++ rest) = Some (j, rest).
Proof.
  induction j as [| b | n | s | l IHl | d IHd] using json_ind';
    try discriminate; intros Hdoc lvl fuel rest Hrest Hf;
    (destruct fuel as [|fuel]; [lia|]).
  - cbn [dumps]. destruct (intstr_head n) as (c & r & E & Hc).
    pose proof (match_number_intstr n rest Hrest) as Hm.
    rewrite E in Hm |- *. cbn [app] in Hm |- *.
    etransitivity; [apply scan_once_number; exact Hc|exact Hm].
  - cbn [dumps]. unfold encode_basestring. rewrite <- app_comm_cons.
    cbn [scan_once]. change (34 =? 34) with true. cbv iota.
    rewrite <- app_assoc. cbn [app].
    rewrite scanstring_escape
      by (rewrite length_app; pose proof (escape_length s); simpl; lia).
    reflexivity.
  - destruct d as [|[k v] d]; [reflexivity|].
    rewrite dumps_dict_eq. rewrite <- app_comm_cons. cbn [scan_once].
    change (123 =? 34) with false. change (123 =? 123) with true. cbv iota.
    unfold parse_object. rewrite <- !app_assoc, skip_ws_newline_indent.
    cbn [dumps_members]. unfold encode_basestring.
    repeat (rewrite <- ?app_assoc; cbn [app]).
    cbn [skip_ws]. change (is_ws 34) with false. cbv iota.
    change (34 =? 125) with false. change (34 =? 34) with true. cbv iota.
    simpl in Hdoc. apply andb_true_iff in Hdoc as [Hv Hd].
    simpl in Hf.
    assert (forall kv, kv ∈ (k, v) :: d -> plain kv.2 = true ->
                       reads (scan_once fuel) lvl kv.2) as Hscan.
    { intros kv Hin Hkv rest' Hrest'. rewrite Forall_forall in IHd.
      apply (IHd kv Hin Hkv); [exact Hrest'|].
      pose proof (jsize_member _ _ Hin) as Hlt. simpl in Hlt. lia. }
    rewrite (object_loop_members (scan_once fuel) lvl d k v fuel rest).
    + reflexivity.
    + exact Hv.
    + apply (Hscan (k, v)); [left|exact Hv].
    + apply Forall_forall. intros kv Hin.
      assert (plain kv.2 = true) as Hkv.
      { rewrite forallb_forall in Hd. apply Hd.
        apply list_elem_of_In. exact Hin. }
      split; [exact Hkv|]. apply Hscan; [right; exact Hin|exact Hkv].
    + pose proof (length_le_sum d). lia.
Qed.

Lemma iterencode_atom (fuel : nat) (h : heap) (m : list addr) (lvl : nat)
    (v : value) (c : str) :
  encode_atom v = Some c -> iterencode fuel h m lvl v = yield c.
Proof. intros E. destruct fuel; simpl; rewrite E; reflexivity. Qed.

Lemma perm3 {A} (a b c : A) (d : list A) :
  d ≡ₚ [a; b; c] ->
  d = [a; b; c] \/ d = [a; c; b] \/ d = [b; a; c]
  \/ d = [b; c; a] \/ d = [c; a; b] \/ d = [c; b; a].
Proof.
  intros H. symmetry in H. apply permutations_Permutation in H.
  cbn in H.
  repeat (apply elem_of_cons in H as [->|H]); eauto 10.
  apply elem_of_nil in H. contradiction.
Qed.

(** ** Which chunks a UTF-8 file accepts *)

Lemma utf8_encode_app (a b : str) :
  utf8_encode (a ++ b)
  = match utf8_encode a, utf8_encode b with
    | Some x, Some y => Some (x ++ y)
    | _, _ => None
    end.
Proof.
  induction a as [|c a IH]; cbn [app utf8_encode].
  - destruct (utf8_encode b); reflexivity.
  - rewrite IH.
    destruct (utf8_encode_char c), (utf8_encode a), (utf8_encode b);
      rewrite ?app_assoc; reflexivity.
Qed.

Lemma enc_ok_app (a b : str) : enc_ok (a ++ b) <-> enc_ok a /\ enc_ok b.
Proof.
  unfold enc_ok. rewrite utf8_encode_app.
  destruct (utf8_encode a), (utf8_encode b); split;
    try (intros [? ?]); try (intros [[? ?] [? ?]]);
    try discriminate; eauto.
Qed.

Lemma enc_ok_cons (c : char) (s : str) :
  enc_ok (c :: s) <-> is_Some (utf8_encode_char c) /\ enc_ok s.
Proof.
  unfold enc_ok. cbn [utf8_encode].
  destruct (utf8_encode_char c), (utf8_encode s); split;
    try (intros [? ?]); try (intros [[? ?] [? ?]]);
    try discriminate; eauto.
Qed.

Lemma enc_ok_nil : enc_ok [].
Proof. eexists. reflexivity. Qed.

Lemma ascii_ok (c : char) : c < 128 -> is_Some (utf8_encode_char c).
Proof.
  intros Hc. unfold utf8_encode_char. rewrite (ltb_true c 128) by exact Hc.
  eexists. reflexivity.
Qed.

Lemma enc_ok_ascii (s : str) : Forall (fun c => c < 128) s -> enc_ok s.
Proof.
  induction 1 as [|c s Hc _ IH]; [apply enc_ok_nil|].
  apply enc_ok_cons. split; [apply ascii_ok, Hc|exact IH].
Qed.

Lemma hex_digit_ascii (n : N) : n < 16 -> hex_digit n < 128.
Proof. unfold hex_digit. destruct (n <? 10); lia. Qed.

Lemma escape_char_ok (c : char) :
  enc_ok (escape_char c) <-> is_Some (utf8_encode_char c).
Proof.
  assert (forall s, Forall (fun c => c < 128) s -> c < 128 ->
                    enc_ok s <-> is_Some (utf8_encode_char c)) as Hboth.
  { intros s Hs Hc. split; intros _; [apply ascii_ok, Hc|apply enc_ok_ascii, Hs]. }
  unfold escape_char.
  destruct (c =? 34) eqn:E1;
    [bool_to_prop; apply Hboth; [repeat constructor|]; lia|].
  destruct (c =? 92) eqn:E2;
    [bool_to_prop; apply Hboth; [repeat constructor|]; lia|].
  destruct (c =? 10) eqn:E3;
    [bool_to_prop; apply Hboth; [repeat constructor|]; lia|].
  destruct (c =? 13) eqn:E4;
    [bool_to_prop; apply Hboth; [repeat constructor|]; lia|].
  destruct (c =? 9) eqn:E5;
    [bool_to_prop; apply Hboth; [repeat constructor|]; lia|].
  destruct (c =? 8) eqn:E6;
    [bool_to_prop; apply Hboth; [repeat constructor|]; lia|].
  destruct (c =? 12) eqn:E7;
    [bool_to_prop; apply Hboth; [repeat constructor|]; lia|].
  destruct (c <? 32) eqn:E8.
  - bool_to_prop. apply Hboth; [|lia].
    repeat constructor; try lia; apply hex_digit_ascii.
    + apply N.Div0.div_lt_upper_bound. lia.
    + apply N.mod_lt. discriminate.
  - rewrite enc_ok_cons. split; [intros [H _]; exact H|].
    intros H. split; [exact H|apply enc_ok_nil].
Qed.

Lemma enc_ok_escape (s : str) :
  enc_ok (concat (map escape_char s)) <-> enc_ok s.
Proof.
  induction s as [|c s IH]; cbn [map concat]; [reflexivity|].
  rewrite enc_ok_app, enc_ok_cons, escape_char_ok, IH. reflexivity.
Qed.

Lemma enc_ok_basestring (s : str) : enc_ok (encode_basestring s) <-> enc_ok s.
Proof.
  unfold encode_basestring.
  rewrite enc_ok_cons, enc_ok_app, enc_ok_escape.
  assert (is_Some (utf8_encode_char 34)) by (apply ascii_ok; lia).
  assert (enc_ok [34]) by (apply enc_ok_ascii; repeat constructor; lia).
  tauto.
Qed.

Lemma enc_ok_newline_indent (lvl : nat) : enc_ok (newline_indent lvl).
Proof.
  unfold newline_indent. apply enc_ok_ascii. constructor; [lia|].
  induction lvl as [|lvl IH]; cbn [repeat concat app]; [constructor|].
  repeat constructor; try lia. exact IH.
Qed.

(** ** The text [json.dump] writes for a tree *)

Lemma perm3_intro {A} (a b c : A) (d : list A) :
  d = [a; b; c] \/ d = [a; c; b] \/ d = [b; a; c]
  \/ d = [b; c; a] \/ d = [c; a; b] \/ d = [c; b; a] ->
  d ≡ₚ [a; b; c].
Proof.
  intros H. symmetry. apply permutations_Permutation. cbn.
  repeat destruct H as [->|H]; try subst d; set_solver.
Qed.

Lemma size_question (a : addr) (Fy Fn : gset addr) :
  a ∉ Fy -> a ∉ Fn -> Fy ## Fn ->
  size ({[a]} ∪ Fy ∪ Fn) = S (size Fy + size Fn).
Proof.
  intros. rewrite !size_union by set_solver. rewrite size_singleton. lia.
Qed.

Lemma enc_ok_open : enc_ok [123].
Proof. apply enc_ok_ascii. repeat constructor; lia. Qed.
Lemma enc_ok_close : enc_ok [125].
Proof. apply enc_ok_ascii. repeat constructor; lia. Qed.
Lemma enc_ok_colon : enc_ok [58; 32].
Proof. apply enc_ok_ascii. repeat constructor; lia. Qed.
Lemma enc_ok_sep (lvl : nat) : enc_ok (44 :: newline_indent lvl).
Proof.
  apply enc_ok_cons. split; [apply ascii_ok; lia|apply enc_ok_newline_indent].
Qed.
Lemma enc_ok_key_guess : enc_ok (encode_basestring (lit "guess")).
Proof. vm_compute. eauto. Qed.
Lemma enc_ok_key_q : enc_ok (encode_basestring (lit "q")).
Proof. vm_compute. eauto. Qed.
Lemma enc_ok_key_yes : enc_ok (encode_basestring (lit "yes")).
Proof. vm_compute. eauto. Qed.
Lemma enc_ok_key_no : enc_ok (encode_basestring (lit "no")).
Proof. vm_compute. eauto. Qed.

Create HintDb enc.
#[local] Hint Resolve enc_ok_open enc_ok_close enc_ok_colon enc_ok_sep
  enc_ok_newline_indent enc_ok_key_guess enc_ok_key_q enc_ok_key_yes
  enc_ok_key_no : enc.

Ltac app_norm := repeat (rewrite <- ?app_assoc; cbn [app concat]).

Ltac chunks_ok :=
  repeat first [rewrite Forall_cons|rewrite Forall_app|rewrite Forall_nil];
  split; [tauto|intros; repeat split; auto with enc; tauto].

(** Encoding a tree of the store yields the text of one of its documents,
    in chunks that a UTF-8 file accepts exactly when the strings of the tree
    are encodable. *)
Lemma iterencode_repr (h : heap) (v : value) (t : TreeNode) (F : gset addr) :
  repr h v t F ->
  forall (fuel : nat) (markers : list addr) (lvl : nat),
    (size F <= fuel)%nat ->
    (forall a, a ∈ F -> a ∉ markers) ->
    exists cs j,
      iterencode fuel h markers lvl v = (cs, None)
      /\ concat cs = dumps lvl j
      /\ is_doc j t
      /\ (Forall enc_ok cs <-> encodable t).
Proof.
  induction 1 as [a g Ha|a d q vy vn y n Fy Fn Ha Hp Hy IHy Hn IHn Hay Han Hd];
    intros fuel markers lvl Hf Hm.
  - rewrite size_singleton in Hf. destruct fuel as [|fuel]; [lia|].
    cbn [iterencode encode_atom]. rewrite Ha.
    rewrite bool_decide_eq_false_2 by (apply Hm; set_solver).
    cbn [encode_items].
    rewrite (iterencode_atom _ _ _ _ (VStr g) _ eq_refl).
    cbn [out_cat yield fst snd app].
    eexists _, (JDict [(lit "guess", JStr g)]).
    split; [reflexivity|]. split; [|split].
    + cbn [dumps]. app_norm. reflexivity.
    + constructor.
    + cbn [encodable]. change (is_Some (utf8_encode g)) with (enc_ok g).
      rewrite <- (enc_ok_basestring g). chunks_ok.
  - rewrite size_question in Hf by assumption.
    destruct fuel as [|fuel]; [lia|].
    destruct (IHy fuel (a :: markers) (S lvl)) as (csy & jy & Ey & Ty & Dy & Oy).
    { lia. }
    { intros x Hx. apply not_elem_of_cons. split.
      - intros ->. contradiction.
      - apply Hm. set_solver. }
    destruct (IHn fuel (a :: markers) (S lvl)) as (csn & jn & En & Tn & Dn & On).
    { lia. }
    { intros x Hx. apply not_elem_of_cons. split.
      - intros ->. contradiction.
      - apply Hm. set_solver. }
    pose proof (iterencode_atom fuel h (a :: markers) (S lvl) (VStr q) _
                  eq_refl) as Eq.
    assert (a ∉ markers) as Ham by (apply Hm; set_solver).
    apply perm3 in Hp.
    destruct Hp as [->|[->|[->|[->|[->| ->]]]]];
      cbn [iterencode encode_atom]; rewrite Ha;
      rewrite (bool_decide_eq_false_2 _ Ham);
      cbn [encode_items]; rewrite Eq, Ey, En;
      cbn [out_cat yield fst snd app];
      [ eexists _, (JDict [(lit "q", JStr q); (lit "yes", jy); (lit "no", jn)])
      | eexists _, (JDict [(lit "q", JStr q); (lit "no", jn); (lit "yes", jy)])
      | eexists _, (JDict [(lit "yes", jy); (lit "q", JStr q); (lit "no", jn)])
      | eexists _, (JDict [(lit "yes", jy); (lit "no", jn); (lit "q", JStr q)])
      | eexists _, (JDict [(lit "no", jn); (lit "q", JStr q); (lit "yes", jy)])
      | eexists _, (JDict [(lit "no", jn); (lit "yes", jy); (lit "q", JStr q)])
      ];
      (split; [reflexivity|]; split; [|split];
       [ rewrite ?concat_cons, ?concat_app, ?concat_cons, ?concat_app,
                 ?concat_cons, ?concat_nil, Ty, Tn;
         cbn [dumps]; app_norm; reflexivity
       | eapply is_doc_question; [apply perm3_intro; auto 10|exact Dy|exact Dn]
       | cbn [encodable]; change (is_Some (utf8_encode q)) with (enc_ok q);
         rewrite <- (enc_ok_basestring q), <- Oy, <- On; chunks_ok ]).
Qed.

(** ** The objects [json.load] builds for a document of a tree *)

Lemma dict_of_pairs_fold (ps : list (str * value)) :
  forall d0 : dict,
    NoDup ((d0 ++ ps).*1) ->
    fold_left (fun d kv => dict_set d kv.1 kv.2) ps d0 = d0 ++ ps.
Proof.
  induction ps as [|[k v] ps IH]; intros d0 Hnd; cbn [fold_left].
  - rewrite app_nil_r. reflexivity.
  - cbn [fst snd]. rewrite dict_set_absent.
    + rewrite IH; rewrite <- app_assoc; [reflexivity|exact Hnd].
    + rewrite fmap_app, fmap_cons in Hnd. apply NoDup_app in Hnd as (_ & Hd & _).
      intros Hin. apply (Hd k Hin). left.
Qed.

Lemma dict_of_pairs_nodup (ps : list (str * value)) :
  NoDup (ps.*1) -> dict_of_pairs ps = ps.
Proof. intros H. apply (dict_of_pairs_fold ps []). exact H. Qed.

Lemma question_keys_nodup : NoDup [lit "q"; lit "yes"; lit "no"].
Proof.
  repeat constructor; vm_compute; set_solver.
Qed.

(** Two documents built one after the other are two separate trees. *)
Lemma build_pair (j1 j2 : json) (t1 t2 : TreeNode) :
  (forall h, exists a F extra,
      build j1 h = (VRef a, h ++ extra)
      /\ repr (h ++ extra) (VRef a) t1 F
      /\ forall x, x ∈ F -> (length h <= x)%nat) ->
  (forall h, exists a F extra,
      build j2 h = (VRef a, h ++ extra)
      /\ repr (h ++ extra) (VRef a) t2 F
      /\ forall x, x ∈ F -> (length h <= x)%nat) ->
  forall h, exists a1 a2 F1 F2 h1 extra,
    build j1 h = (VRef a1, h1)
    /\ build j2 h1 = (VRef a2, h ++ extra)
    /\ repr (h ++ extra) (VRef a1) t1 F1
    /\ repr (h ++ extra) (VRef a2) t2 F2
    /\ F1 ## F2
    /\ (forall x, x ∈ F1 -> (length h <= x)%nat)
    /\ (forall x, x ∈ F2 -> (length h <= x)%nat).
Proof.
  intros H1 H2 h.
  destruct (H1 h) as (a1 & F1 & e1 & E1 & R1 & L1).
  destruct (H2 (h ++ e1)) as (a2 & F2 & e2 & E2 & R2 & L2).
  exists a1, a2, F1, F2, (h ++ e1), (e1 ++ e2).
  rewrite app_assoc.
  split; [exact E1|]. split; [exact E2|]. split; [apply repr_app, R1|].
  split; [exact R2|]. split; [|split].
  - intros x Hx1 Hx2. apply (repr_lt _ _ _ _ R1) in Hx1. apply L2 in Hx2. lia.
  - exact L1.
  - intros x Hx. apply L2 in Hx. rewrite length_app in Hx. lia.
Qed.

Lemma build_question (h h2 : heap) (extra : heap) (d : dict) (q : str)
    (ay an : addr) (y n : TreeNode) (Fy Fn : gset addr) :
  h2 = h ++ extra ->
  d ≡ₚ [(lit "q", VStr q); (lit "yes", VRef ay); (lit "no", VRef an)] ->
  repr h2 (VRef ay) y Fy ->
  repr h2 (VRef an) n Fn ->
  Fy ## Fn ->
  (forall x, x ∈ Fy -> (length h <= x)%nat) ->
  (forall x, x ∈ Fn -> (length h <= x)%nat) ->
  exists a F extra',
    alloc (ODict (dict_of_pairs d)) h2 = (VRef a, h ++ extra')
    /\ repr (h ++ extra') (VRef a) (Question q y n) F
    /\ forall x, x ∈ F -> (length h <= x)%nat.
Proof.
  intros -> Hp Ry Rn Hd Ly Ln.
  rewrite dict_of_pairs_nodup
    by (rewrite Hp; exact question_keys_nodup).
  exists (length (h ++ extra)), ({[length (h ++ extra)]} ∪ Fy ∪ Fn),
    (extra ++ [ODict d]).
  unfold alloc. rewrite app_assoc. split; [reflexivity|]. split.
  - eapply repr_question; try eassumption.
    + rewrite lookup_app_r, Nat.sub_diag by lia. reflexivity.
    + apply repr_app, Ry.
    + apply repr_app, Rn.
    + intros Hx. apply (repr_lt _ _ _ _ Ry) in Hx. lia.
    + intros Hx. apply (repr_lt _ _ _ _ Rn) in Hx. lia.
  - intros x Hx. apply elem_of_union in Hx as [Hx|Hx]; [|apply Ln, Hx].
    apply elem_of_union in Hx as [Hx|Hx]; [|apply Ly, Hx].
    apply elem_of_singleton in Hx. rewrite length_app in Hx. lia.
Qed.

(** The objects built for any document of a tree are that tree, in new
    dicts. *)
Lemma build_is_doc (j : json) (t : TreeNode) :
  is_doc j t ->
  forall h, exists a F extra,
    build j h = (VRef a, h ++ extra)
    /\ repr (h ++ extra) (VRef a) t F
    /\ forall x, x ∈ F -> (length h <= x)%nat.
Proof.
  induction 1 as [g|d q jy jn y n Hp Hy IHy Hn IHn]; intros h.
  - exists (length h), {[length h]}, [ODict [(lit "guess", VStr g)]].
    split; [reflexivity|]. split.
    + apply repr_leaf. rewrite lookup_app_r, Nat.sub_diag by lia. reflexivity.
    + intros x Hx. apply elem_of_singleton in Hx as ->. lia.
  - rewrite build_dict_eq.
    destruct (build_pair jy jn y n IHy IHn h)
      as (ay & an & Fy & Fn & h1 & e & E1 & E2 & Ry & Rn & Hd & Ly & Ln).
    destruct (build_pair jn jy n y IHn IHy h)
      as (an' & ay' & Fn' & Fy' & h1' & e' & E1' & E2' & Rn' & Ry' & Hd'
          & Ln' & Ly').
    apply perm3 in Hp.
    destruct Hp as [->|[->|[->|[->|[->| ->]]]]];
      cbn [build_members build];
      rewrite ?E1, ?E2, ?E1', ?E2';
      (eapply build_question;
       [reflexivity|apply perm3_intro; auto 10|eassumption|eassumption
       |try eassumption; symmetry; eassumption|assumption|assumption]).
Qed.

(** ** Writing and reading the file *)

Lemma world_eta (w : World) : mkWorld (w_heap w) (w_files w) = w.
Proof. destruct w; reflexivity. Qed.

(** Chunks that can all be encoded are appended to the file. *)
Lemma write_chunks_ok (fname : string) (cs : list str) :
  Forall enc_ok cs ->
  forall (w : World) (acc : list N),
    w_files w !! fname = Some acc ->
    exists bs,
      utf8_encode (concat cs) = Some bs
      /\ write_chunks fname cs w
         = (Ok tt, mkWorld (w_heap w) (<[fname := acc ++ bs]> (w_files w))).
Proof.
  induction 1 as [|c cs [b Hc] _ IH]; intros w acc Hacc.
  - exists []. split; [reflexivity|]. cbn [write_chunks]. unfold ret.
    rewrite app_nil_r, insert_id by exact Hacc. rewrite world_eta. reflexivity.
  - cbn [write_chunks]. unfold bind, write_chunk. rewrite Hc, Hacc.
    cbn [from_option id].
    destruct (IH (mkWorld (w_heap w) (<[fname := acc ++ b]> (w_files w)))
                 (acc ++ b)) as (bs & Hbs & Hw).
    { cbn [w_files]. apply lookup_insert_eq. }
    exists (b ++ bs). split.
    + cbn [concat]. rewrite utf8_encode_app, Hc, Hbs. reflexivity.
    + rewrite Hw. cbn [w_heap w_files].
      rewrite insert_insert_eq, app_assoc. reflexivity.
Qed.

(** The first chunk that cannot be encoded stops the writing; the chunks
    before it are in the file. *)
Lemma write_chunks_fail (fname : string) (cs : list str) :
  ~ Forall enc_ok cs ->
  forall (w : World) (acc : list N),
    w_files w !! fname = Some acc ->
    exists (k : nat) (bs : list N),
      (k < length cs)%nat
      /\ utf8_encode (concat (take k cs)) = Some bs
      /\ write_chunks fname cs w
         = (Raise UnicodeEncodeError,
            mkWorld (w_heap w) (<[fname := acc ++ bs]> (w_files w))).
Proof.
  induction cs as [|c cs IH]; intros Hn w acc Hacc.
  - destruct Hn. constructor.
  - cbn [write_chunks]. unfold bind, write_chunk.
    destruct (utf8_encode c) as [b|] eqn:Hc.
    + rewrite Hacc. cbn [from_option id].
      destruct (IH (fun Hf => Hn (Forall_cons_2 _ _ _ (ex_intro _ b Hc) Hf))
                   (mkWorld (w_heap w) (<[fname := acc ++ b]> (w_files w)))
                   (acc ++ b)) as (k & bs & Hk & Hbs & Hw).
      { cbn [w_files]. apply lookup_insert_eq. }
      exists (S k), (b ++ bs). split; [cbn [length]; lia|]. split.
      * cbn [take concat]. rewrite utf8_encode_app, Hc, Hbs. reflexivity.
      * rewrite Hw. cbn [w_heap w_files].
        rewrite insert_insert_eq, app_assoc. reflexivity.
    + exists 0%nat, []. split; [cbn [length]; lia|]. split; [reflexivity|].
      rewrite app_nil_r, insert_id by exact Hacc. rewrite world_eta.
      reflexivity.
Qed.

Lemma repr_size (h : heap) (v : value) (t : TreeNode) (F : gset addr) :
  repr h v t F -> (size F <= length h)%nat.
Proof.
  intros R.
  transitivity (size (list_to_set (C := gset addr) (seq 0 (length h)))).
  - apply subseteq_size. intros a Ha.
    apply elem_of_list_to_set, elem_of_seq.
    pose proof (repr_lt _ _ _ _ R a Ha). lia.
  - rewrite size_list_to_set by apply NoDup_seq. rewrite length_seq.
    reflexivity.
Qed.

(** [open(fname, "w")] and [json.dump] of a tree whose strings are
    encodable: the file holds the text of a document of the tree. *)
Lemma dump_tree_ok (fname : string) (v : value) (t : TreeNode)
    (F : gset addr) (w : World) :
  repr (w_heap w) v t F ->
  encodable t ->
  exists j bs,
    is_doc j t
    /\ utf8_encode (dumps 0 j) = Some bs
    /\ bind (open_w fname) (fun _ => json_dump v fname) w
       = (Ok tt, mkWorld (w_heap w) (<[fname := bs]> (w_files w))).
Proof.
  intros R He.
  destruct (iterencode_repr _ _ _ _ R (S (length (w_heap w))) [] 0%nat)
    as (cs & j & E & T & D & O).
  { pose proof (repr_size _ _ _ _ R). lia. }
  { intros a _. apply not_elem_of_nil. }
  destruct (write_chunks_ok fname cs (proj2 O He)
              (mkWorld (w_heap w) (<[fname := []]> (w_files w))) [])
    as (bs & Hbs & Hw).
  { cbn [w_files]. apply lookup_insert_eq. }
  exists j, bs. split; [exact D|]. split; [rewrite <- T; exact Hbs|].
  unfold bind at 1. unfold open_w, modify, json_dump. cbn [w_heap].
  rewrite E. unfold bind. rewrite Hw. unfold ret. cbn [w_heap w_files app].
  rewrite insert_insert_eq. reflexivity.
Qed.

(** With a string that cannot be encoded, the writing stops on the way. *)
Lemma dump_tree_fail (fname : string) (v : value) (t : TreeNode)
    (F : gset addr) (w : World) :
  repr (w_heap w) v t F ->
  ~ encodable t ->
  let cs := (iterencode (S (length (w_heap w))) (w_heap w) [] 0 v).1 in
  exists (k : nat) (bs : list N),
    (k < length cs)%nat
    /\ utf8_encode (concat (take k cs)) = Some bs
    /\ bind (open_w fname) (fun _ => json_dump v fname) w
       = (Raise UnicodeEncodeError,
          mkWorld (w_heap w) (<[fname := bs]> (w_files w))).
Proof.
  intros R He.
  destruct (iterencode_repr _ _ _ _ R (S (length (w_heap w))) [] 0%nat)
    as (cs & j & E & T & D & O).
  { pose proof (repr_size _ _ _ _ R). lia. }
  { intros a _. apply not_elem_of_nil. }
  rewrite E. cbn [fst].
  destruct (write_chunks_fail fname cs (fun Hf => He (proj1 O Hf))
              (mkWorld (w_heap w) (<[fname := []]> (w_files w))) [])
    as (k & bs & Hk & Hbs & Hw).
  { cbn [w_files]. apply lookup_insert_eq. }
  exists k, bs. split; [exact Hk|]. split; [exact Hbs|].
  unfold bind at 1. unfold open_w, modify, json_dump. cbn [w_heap].
  rewrite E. unfold bind. rewrite Hw. cbn [w_heap w_files app].
  rewrite insert_insert_eq. reflexivity.
Qed.

(** ** Reading the text back *)

Lemma is_doc_plain (j : json) (t : TreeNode) : is_doc j t -> plain j = true.
Proof.
  induction 1 as [g|d q jy jn y n Hp Hy IHy Hn IHn]; [reflexivity|].
  apply perm3 in Hp.
  destruct Hp as [->|[->|[->|[->|[->| ->]]]]];
    cbn [plain forallb snd]; rewrite IHy, IHn; reflexivity.
Qed.

Lemma encode_basestring_length (s : str) :
  (2 <= length (encode_basestring s))%nat.
Proof. unfold encode_basestring. cbn [length]. rewrite length_app. simpl. lia. Qed.

Lemma members_length (lvl : nat) (d : list (str * json)) :
  Forall (fun kv => (jsize kv.2 <= length (dumps (S lvl) kv.2))%nat) d ->
  (list_sum (map (fun kv => S (jsize kv.2)) d)
   <= length (dumps_members lvl d))%nat.
Proof.
  induction 1 as [|[k x] d Hx _ IH]; [reflexivity|].
  unfold list_sum in *. cbn [map fold_right dumps_members snd] in *. rewrite !length_app.
  pose proof (encode_basestring_length k). lia.
Qed.

Lemma jsize_le_dumps (j : json) :
  plain j = true -> forall lvl, (jsize j <= length (dumps lvl j))%nat.
Proof.
  induction j as [| b | n | s | l IHl | d IHd] using json_ind';
    try discriminate; intros Hdoc lvl.
  - destruct (intstr_head n) as (c & r & E & _).
    change (dumps lvl (JInt n)) with (intstr n).
    rewrite E. cbn [jsize length]. lia.
  - pose proof (encode_basestring_length s). cbn [jsize dumps]. lia.
  - destruct d as [|kx d]; [cbn; lia|].
    rewrite dumps_dict_eq. cbn [jsize length]. rewrite !length_app.
    assert (Forall (fun kv => (jsize kv.2 <= length (dumps (S lvl) kv.2))%nat)
                   (kx :: d)) as Hall.
    { cbn [plain] in Hdoc. rewrite forallb_forall in Hdoc.
      rewrite Forall_forall in IHd. apply Forall_forall. intros kv Hin.
      apply IHd; [exact Hin|]. apply Hdoc. apply list_elem_of_In. exact Hin. }
    pose proof (members_length lvl _ Hall). cbn [length]. lia.
Qed.

Lemma json_loads_dumps (j : json) :
  plain j = true -> json_loads (dumps 0 j) = Ok j.
Proof.
  intros Hd. unfold json_loads.
  assert (startswith (dumps 0 j) [0xFEFF] = false) as ->.
  { destruct j as [| |n|s|?|[|kx d]]; try discriminate.
    - change (dumps 0 (JInt n)) with (intstr n).
      destruct (intstr_head n) as (c & r & -> & Hc).
      apply startswith_head. destruct Hc as [->|Hc]; [discriminate|].
      unfold is_digit in Hc. bool_to_prop. lia.
    - apply bool_decide_eq_false_2; intros [=].
    - apply bool_decide_eq_false_2; intros [=].
    - rewrite dumps_dict_eq. apply bool_decide_eq_false_2; intros [=]. }
  pose proof (jsize_le_dumps j Hd 0%nat) as Hsz.
  rewrite <- (app_nil_r (dumps 0 j)).
  rewrite plain_head by exact Hd.
  rewrite scan_once_dumps
    by first [exact Hd|reflexivity|rewrite ?app_nil_r; lia].
  reflexivity.
Qed.

(** [json.load] on a file that holds the text of a document. *)
Lemma json_load_dumps (fname : string) (j : json) (bs : list N) (w : World) :
  plain j = true ->
  utf8_encode (dumps 0 j) = Some bs ->
  w_files w !! fname = Some bs ->
  json_load fname w
  = (Ok (build j (w_heap w)).1, mkWorld (build j (w_heap w)).2 (w_files w)).
Proof.
  intros Hd Hbs Hf. unfold json_load, bind, read_text. rewrite Hf.
  rewrite (utf8_decode_encode _ _ Hbs), (json_loads_dumps j Hd).
  destruct (build j (w_heap w)); reflexivity.
Qed.

(** ** The knowledge file: saving and loading *)

Lemma load_tree_file (j : json) (bs : list N) (w : World) :
  plain j = true ->
  utf8_encode (dumps 0 j) = Some bs ->
  w_files w !! DATA_FILE = Some bs ->
  load_tree w
  = (Ok (build j (w_heap w)).1, mkWorld (build j (w_heap w)).2 (w_files w)).
Proof.
  intros Hd Hbs Hf. unfold load_tree, bind, path_exists. rewrite Hf.
  rewrite bool_decide_eq_true_2 by eauto. cbn [negb].
  apply (json_load_dumps DATA_FILE j bs w Hd Hbs Hf).
Qed.

(** Loading a knowledge file that holds a document of the tree [t] builds
    [t] in new dicts and leaves the objects of the store as they are. *)
Lemma load_tree_doc (j : json) (t : TreeNode) (bs : list N) (w : World) :
  is_doc j t ->
  utf8_encode (dumps 0 j) = Some bs ->
  w_files w !! DATA_FILE = Some bs ->
  exists a F extra,
    load_tree w = (Ok (VRef a), mkWorld (w_heap w ++ extra) (w_files w))
    /\ repr (w_heap w ++ extra) (VRef a) t F
    /\ forall x, x ∈ F -> (length (w_heap w) <= x)%nat.
Proof.
  intros Hd Hbs Hf.
  rewrite (load_tree_file j bs w (is_doc_plain _ _ Hd) Hbs Hf).
  destruct (build_is_doc j t Hd (w_heap w)) as (a & F & extra & E & R & L).
  exists a, F, extra. rewrite E. cbn [fst snd]. auto.
Qed.

(** X1. A tree of the store whose strings hold no surrogate is saved by
    [save_tree] without touching the store, and [load_tree] then returns the
    same tree, built in new dicts, beside the one that was saved.  (Limits
    of the interpreter, such as the recursion depth, are outside the
    model.) *)
Theorem save_load_tree (v : value) (t : TreeNode) (F : gset addr) (w : World) :
  repr (w_heap w) v t F ->
  encodable t ->
  exists w1 v' w2 F',
    save_tree v w = (Ok tt, w1)
    /\ w_heap w1 = w_heap w
    /\ load_tree w1 = (Ok v', w2)
    /\ w_files w2 = w_files w1
    /\ repr (w_heap w2) v' t F'
    /\ repr (w_heap w2) v t F
    /\ F ## F'.
Proof.
  intros R He.
  destruct (dump_tree_ok DATA_FILE v t F w R He) as (j & bs & D & Hbs & Hs).
  set (w1 := mkWorld (w_heap w) (<[DATA_FILE := bs]> (w_files w))) in *.
  destruct (load_tree_doc j t bs w1 D Hbs) as (a & F' & extra & Hl & R' & L').
  { apply lookup_insert_eq. }
  exists w1, (VRef a), (mkWorld (w_heap w1 ++ extra) (w_files w1)), F'.
  split; [exact Hs|]. split; [reflexivity|]. split; [exact Hl|].
  split; [reflexivity|]. split; [exact R'|]. split.
  - apply repr_app. exact R.
  - intros x Hx Hx'. apply (repr_lt _ _ _ _ R) in Hx. apply L' in Hx'.
    cbn [w_heap w1] in Hx'. lia.
Qed.

Lemma save_load_tree_witness :
  let w := mkWorld [ODict [(lit "guess", VStr (lit "Zote el Poderoso"))]] ∅ in
  exists w1 v' w2 F',
    save_tree (VRef 0%nat) w = (Ok tt, w1)
    /\ w_heap w1 = w_heap w
    /\ load_tree w1 = (Ok v', w2)
    /\ w_files w2 = w_files w1
    /\ repr (w_heap w2) v' (Leaf (lit "Zote el Poderoso")) F'
    /\ repr (w_heap w2) (VRef 0%nat) (Leaf (lit "Zote el Poderoso")) {[0%nat]}
    /\ {[0%nat]} ## F'.
Proof.
  intros w.
  apply (save_load_tree (VRef 0%nat) (Leaf (lit "Zote el Poderoso")) {[0%nat]} w).
  - apply repr_leaf. reflexivity.
  - vm_compute. eauto.
Defined.

(** X2. When a string of the tree cannot be encoded in UTF-8 (it holds a
    surrogate), [save_tree] raises [UnicodeEncodeError]; the knowledge file
    is left with the chunks written before the failing one, a proper part
    of the text, and the store is unchanged. *)
Theorem save_tree_unencodable (v : value) (t : TreeNode) (F : gset addr)
    (w : World) :
  repr (w_heap w) v t F ->
  ~ encodable t ->
  let cs := (iterencode (S (length (w_heap w))) (w_heap w) [] 0 v).1 in
  exists (k : nat) (bs : list N),
    (k < length cs)%nat
    /\ utf8_encode (concat (take k cs)) = Some bs
    /\ save_tree v w
       = (Raise UnicodeEncodeError,
          mkWorld (w_heap w) (<[DATA_FILE := bs]> (w_files w))).
Proof. intros R He. exact (dump_tree_fail DATA_FILE v t F w R He). Qed.

Lemma save_tree_unencodable_witness :
  let w := mkWorld [ODict [(lit "guess", VStr [0xD800])]]
                   {[ DATA_FILE := [123; 125] ]} in
  let cs := (iterencode (S (length (w_heap w))) (w_heap w) [] 0
                        (VRef 0%nat)).1 in
  exists (k : nat) (bs : list N),
    (k < length cs)%nat
    /\ utf8_encode (concat (take k cs)) = Some bs
    /\ save_tree (VRef 0%nat) w
       = (Raise UnicodeEncodeError,
          mkWorld (w_heap w) (<[DATA_FILE := bs]> (w_files w))).
Proof.
  intros w.
  apply (save_tree_unencodable (VRef 0%nat) (Leaf [0xD800]) {[0%nat]} w).
  - apply repr_leaf. reflexivity.
  - vm_compute. intros [x Hx]. discriminate Hx.
Defined.

Lemma default_tree_encodable : encodable default_tree_t.
Proof. vm_compute. repeat split; eauto. Qed.

(** X3. Without a knowledge file [load_tree] builds the default tree in
    new dicts, writes the knowledge file, leaves the other files alone and
    returns the tree; the next [load_tree] reads the default tree back from
    the file. *)
Theorem load_tree_first_run (w : World) :
  w_files w !! DATA_FILE = None ->
  exists v w1 F,
    load_tree w = (Ok v, w1)
    /\ repr (w_heap w1) v default_tree_t F
    /\ (forall a, a ∈ F -> (length (w_heap w) <= a)%nat)
    /\ is_Some (w_files w1 !! DATA_FILE)
    /\ (forall f, f <> DATA_FILE -> w_files w1 !! f = w_files w !! f)
    /\ exists v2 w2 F2,
         load_tree w1 = (Ok v2, w2)
         /\ repr (w_heap w2) v2 default_tree_t F2
         /\ w_files w2 = w_files w1.
Proof.
  intros Hf.
  destruct (build_tree_doc default_tree_t (w_heap w))
    as (a & F & extra & Eb & R & L).
  rewrite default_tree_doc_eq in Eb.
  set (w0 := mkWorld (w_heap w ++ extra) (w_files w)).
  destruct (dump_tree_ok DATA_FILE (VRef a) default_tree_t F w0 R
              default_tree_encodable) as (j & bs & D & Hbs & Hs).
  set (w1 := mkWorld (w_heap w ++ extra) (<[DATA_FILE := bs]> (w_files w))).
  destruct (load_tree_doc j default_tree_t bs w1 D Hbs)
    as (a2 & F2 & extra2 & Hl & R2 & L2).
  { apply lookup_insert_eq. }
  exists (VRef a), w1, F.
  split.
  { unfold load_tree, bind at 1, path_exists. rewrite Hf.
    rewrite bool_decide_eq_false_2 by (intros [? ?]; discriminate).
    cbn [negb]. unfold bind at 1, default_tree, eval_display. rewrite Eb.
    unfold bind at 1. fold w0. change (save_tree (VRef a) w0) with
      (bind (open_w DATA_FILE) (fun _ => json_dump (VRef a) DATA_FILE) w0).
    rewrite Hs. reflexivity. }
  split; [exact R|]. split; [exact L|]. split.
  { cbn [w_files w1]. rewrite lookup_insert_eq. eauto. }
  split.
  { intros f Hne. cbn [w_files w1]. apply lookup_insert_ne. congruence. }
  exists (VRef a2), (mkWorld (w_heap w1 ++ extra2) (w_files w1)), F2.
  split; [exact Hl|]. split; [exact R2|reflexivity].
Qed.

Lemma load_tree_first_run_witness :
  exists v w1 F,
    load_tree empty_world = (Ok v, w1)
    /\ repr (w_heap w1) v default_tree_t F
    /\ (forall a, a ∈ F -> (length (w_heap empty_world) <= a)%nat)
    /\ is_Some (w_files w1 !! DATA_FILE)
    /\ (forall f, f <> DATA_FILE ->
                  w_files w1 !! f = w_files empty_world !! f)
    /\ exists v2 w2 F2,
         load_tree w1 = (Ok v2, w2)
         /\ repr (w_heap w2) v2 default_tree_t F2
         /\ w_files w2 = w_files w1.
Proof. apply (load_tree_first_run empty_world). reflexivity. Defined.

(** ** The text and the status line *)

Lemma is_leaf_guess (h : heap) (v : value) :
  is_leaf h v = true ->
  exists a d g, v = VRef a /\ h !! a = Some (ODict d)
                /\ dict_get d (lit "guess") = Some g.
Proof.
  unfold is_leaf, as_dict, dict_in. intros H.
  destruct v as [| | | |a]; try discriminate H.
  destruct (h !! a) as [[d|]|] eqn:Ha; try discriminate H.
  destruct (dict_get d (lit "guess")) as [g|] eqn:Hg; [|discriminate H].
  exists a, d, g. split; [reflexivity|]. split; [exact Ha|exact Hg].
Qed.

Lemma getitem_guess (w : World) (v : value) :
  is_leaf (w_heap w) v = true ->
  exists g, getitem v (lit "guess") w = (Ok g, w).
Proof.
  intros H. destruct (is_leaf_guess _ _ H) as (a & d & g & -> & Ha & Hg).
  exists g. unfold getitem. rewrite Ha, Hg. reflexivity.
Qed.

Lemma repr_as_dict (h : heap) (v : value) (t : TreeNode) (F : gset addr) :
  repr h v t F -> is_Some (as_dict h v).
Proof.
  destruct 1 as [a g Ha|a d q vy vn y n Fy Fn Ha _ _ _ _ _ _];
    unfold as_dict; rewrite Ha; eauto.
Qed.

Lemma as_dict_insert (h : heap) (v : value) (a : addr) (d : dict) :
  is_Some (as_dict h v) -> is_Some (as_dict (<[a := ODict d]> h) v).
Proof.
  unfold as_dict. destruct v as [| | | |b]; try (intros [? ?]; discriminate).
  destruct (h !! b) as [[d0|]|] eqn:Hb; try (intros [? ?]; discriminate).
  intros _. destruct (decide (a = b)) as [->|Hne].
  - rewrite (lookup_insert_obj _ _ _ _ Hb). eauto.
  - assert (<[a := ODict d]> h !! b = Some (ODict d0)) as ->
      by (rewrite list_lookup_insert_ne by exact Hne; exact Hb).
    eauto.
Qed.

(** On a dict [current_text] returns. *)
Lemma current_text_dict (self : GameState) (w : World) :
  is_Some (as_dict (w_heap w) (node self)) ->
  exists t, current_text (self, w) = (Ok t, (self, w)).
Proof.
  intros [d Hd]. unfold current_text.
  destruct (is_leaf (w_heap w) (node self)) eqn:El.
  - destruct (getitem_guess w _ El) as [g Hg]. exists (Prompt g).
    unfold bind, in_world. rewrite Hg. reflexivity.
  - rewrite Hd. eexists. reflexivity.
Qed.

(** With counters such that [0 <= wins <= played] the status line is
    refreshed without an exception. *)
Lemma update_status_counters (app : App) (w : World) (a : addr) (p wn l : Z) :
  stats app = VRef a ->
  w_heap w !! a = Some (ODict (stats_dict p wn l)) ->
  (0 <= wn <= p)%Z ->
  update_status (app, w) = (Ok tt, (app, w)).
Proof.
  intros Hst Ha Hb. unfold update_status, in_world, bind. rewrite Hst.
  rewrite (proj1 (accuracy_counters w a p wn l Ha Hb)). reflexivity.
Qed.

Lemma show_state_ok (app : App) (w : World) (a : addr) (p wn l : Z) :
  is_Some (as_dict (w_heap w) (node (state app))) ->
  stats app = VRef a ->
  w_heap w !! a = Some (ODict (stats_dict p wn l)) ->
  (0 <= wn <= p)%Z ->
  show_state (app, w) = (Ok tt, (app, w)).
Proof.
  intros Hn Hst Ha Hb. destruct (current_text_dict (state app) w Hn) as [t Ht].
  unfold show_state, bind, on_state. rewrite Ht.
  destruct app as [at0 st0 ss0]. cbn [app_tree state stats] in *.
  exact (update_status_counters (mkApp at0 st0 ss0) w a p wn l Hst Ha Hb).
Qed.

(** A new game on a tree whose root is a dict, with such counters. *)
Lemma new_game_ok (app : App) (w : World) (a : addr) (p wn l : Z) :
  is_Some (as_dict (w_heap w) (tree (state app))) ->
  stats app = VRef a ->
  w_heap w !! a = Some (ODict (stats_dict p wn l)) ->
  (0 <= wn <= p)%Z ->
  new_game (app, w)
  = (Ok tt,
     (mkApp (app_tree app) (GameState_init (tree (state app))) (stats app), w)).
Proof.
  intros Hn Hst Ha Hb. unfold new_game, bind.
  exact (show_state_ok
           (mkApp (app_tree app) (GameState_init (tree (state app))) (stats app))
           w a p wn l Hn Hst Ha Hb).
Qed.

(** ** Import, export and reset *)

Lemma repr_looks_like_tree (h : heap) (v : value) (t : TreeNode)
    (F : gset addr) :
  repr h v t F -> looks_like_tree h v = true.
Proof.
  destruct 1 as [a g Ha|a d q vy vn y n Fy Fn Ha Hp _ _ _ _ _];
    unfold looks_like_tree, as_dict; rewrite Ha.
  - reflexivity.
  - destruct (question_dict_get d q vy vn Hp) as (Hq & _).
    unfold dict_in at 1. rewrite Hq. reflexivity.
Qed.

(** [import_tree] once the file is read and the check passed. *)
Lemma import_tree_loaded (app : App) (w w1 : World) (fname : string)
    (v : value) :
  fname <> EmptyString ->
  json_load fname w = (Ok v, w1) ->
  looks_like_tree (w_heap w1) v = true ->
  import_tree fname (app, w)
  = match save_tree v w1 with
    | (Ok _, w2) =>
      match new_game (mkApp (app_tree app)
                            (mkGameState v (path (state app))
                                         (node (state app)))
                            (stats app), w2) with
      | (Ok _, s) => (Ok (Some (ShowInfo "Importado")), s)
      | (Raise e, s) => (Ok (Some (ShowError e)), s)
      end
    | (Raise e, w2) =>
      (Ok (Some (ShowError e)),
       (mkApp (app_tree app)
              (mkGameState v (path (state app)) (node (state app)))
              (stats app), w2))
    end.
Proof.
  intros Hne Hl Hlook. unfold import_tree.
  destruct (decide (fname = EmptyString)) as [E|_]; [contradiction|].
  unfold try_except, bind at 1, in_world at 1. rewrite Hl.
  unfold bind at 1, get. rewrite Hlook. cbn [negb].
  unfold bind at 1. unfold bind at 1, in_world at 1.
  destruct (save_tree v w1) as [[[]|e] w2]; [|reflexivity].
  unfold bind at 1.
  destruct (new_game _) as [[[]|e] s0]; reflexivity.
Qed.







(** X6. When the imported document is a tree with a string that cannot be
    encoded (a lone surrogate written as an escape), the check passes and
    [self.state.tree] is replaced before [save_tree] fails: the error is
    shown, the session keeps its old path and current node on the new tree,
    and the knowledge file holds only a part of the text: the chunks written
    before the failing one. *)
Theorem import_tree_unsaved (app : App) (w : World) (fname : string)
    (bs : list N) (text : str) (j : json) (t : TreeNode) :
  fname <> EmptyString ->
  w_files w !! fname = Some bs ->
  utf8_decode bs = Some text ->
  json_loads text = Ok j ->
  is_doc j t ->
  ~ encodable t ->
  exists v extra F k part,
    let h' := w_heap w ++ extra in
    let cs := (iterencode (S (length h')) h' [] 0 v).1 in
    import_tree fname (app, w)
    = (Ok (Some (ShowError UnicodeEncodeError)),
       (mkApp (app_tree app)
              (mkGameState v (path (state app)) (node (state app)))
              (stats app),
        mkWorld h' (<[DATA_FILE := part]> (w_files w))))
    /\ repr h' v t F
    /\ (forall a, a ∈ F -> (length (w_heap w) <= a)%nat)
    /\ (k < length cs)%nat
    /\ utf8_encode (concat (take k cs)) = Some part.
Proof.
  intros Hne Hf Hdec Hj D He.
  destruct (build_is_doc j t D (w_heap w)) as (a & F & extra & Eb & R & L).
  set (w1 := mkWorld (w_heap w ++ extra) (w_files w)).
  assert (json_load fname w = (Ok (VRef a), w1)) as Hl.
  { unfold json_load, bind, read_text. rewrite Hf, Hdec, Hj, Eb. reflexivity. }
  rewrite (import_tree_loaded app w w1 fname (VRef a) Hne Hl
             (repr_looks_like_tree _ _ _ _ R)).
  destruct (dump_tree_fail DATA_FILE (VRef a) t F w1 R He)
    as (k & part & Hk & Hpart & Hs).
  change (save_tree (VRef a) w1)
    with (bind (open_w DATA_FILE) (fun _ => json_dump (VRef a) DATA_FILE) w1).
  rewrite Hs.
  exists (VRef a), extra, F, k, part. cbv zeta.
  split; [reflexivity|]. split; [exact R|]. split; [exact L|].
  split; [exact Hk|exact Hpart].
Qed.

Lemma import_tree_unsaved_witness :
  (* {"guess": "\ud800"} *)
  let text := [123; 34; 103; 117; 101; 115; 115; 34; 58; 32; 34; 92; 117;
               100; 56; 48; 48; 34; 125] in
  let w := mkWorld (w_heap seed_world) {[ "otro.json"%string := text ]} in
  let app := mkApp seed_root (GameState_init seed_root) VNone in
  exists v extra F k part,
    let h' := w_heap w ++ extra in
    let cs := (iterencode (S (length h')) h' [] 0 v).1 in
    import_tree "otro.json" (app, w)
    = (Ok (Some (ShowError UnicodeEncodeError)),
       (mkApp (app_tree app)
              (mkGameState v (path (state app)) (node (state app)))
              (stats app),
        mkWorld h' (<[DATA_FILE := part]> (w_files w))))
    /\ repr h' v (Leaf [0xD800]) F
    /\ (forall a, a ∈ F -> (length (w_heap w) <= a)%nat)
    /\ (k < length cs)%nat
    /\ utf8_encode (concat (take k cs)) = Some part.
Proof.
  intros text w app.
  apply (import_tree_unsaved app w "otro.json" text text
           (JDict [(lit "guess", JStr [0xD800])]) (Leaf [0xD800])).
  - discriminate.
  - vm_compute. reflexivity.
  - vm_compute. reflexivity.
  - vm_compute. reflexivity.
  - constructor.
  - vm_compute. intros [x Hx]. discriminate Hx.
Defined.

Lemma write_chunks_files (fname f : string) (cs : list str) (w : World) :
  f <> fname ->
  w_files (write_chunks fname cs w).2 !! f = w_files w !! f.
Proof.
  intros Hne. revert w.
  induction cs as [|c cs IH]; intros w; [reflexivity|].
  cbn [write_chunks]. unfold bind, write_chunk.
  destruct (utf8_encode c) as [bs|]; [|reflexivity].
  rewrite IH. cbn [w_files]. apply lookup_insert_ne. congruence.
Qed.

(** Writing a value to a file changes no object and no other file. *)
Lemma dump_frame (fname : string) (v : value) (w : World) :
  let w' := (bind (open_w fname) (fun _ => json_dump v fname) w).2 in
  w_heap w' = w_heap w
  /\ forall f, f <> fname -> w_files w' !! f = w_files w !! f.
Proof.
  unfold bind at 1. unfold open_w, modify, json_dump. cbn [w_heap].
  destruct (iterencode _ _ _ _ _) as [cs e].
  set (w0 := mkWorld (w_heap w) (<[fname := []]> (w_files w))).
  pose proof (write_chunks_heap fname cs w0) as Hh.
  pose proof (fun f Hne => write_chunks_files fname f cs w0 Hne) as Hf.
  unfold bind. destruct (write_chunks fname cs w0) as [[[]|e'] w1];
    cbn [snd] in *.
  - destruct e as [e|]; unfold raise, ret; cbn [snd]; split;
      [exact Hh| |exact Hh|];
      intros f Hne; rewrite (Hf f Hne); apply lookup_insert_ne; congruence.
  - split; [exact Hh|].
    intros f Hne; rewrite (Hf f Hne); apply lookup_insert_ne; congruence.
Qed.

(** X7. Whatever its argument and whether it returns or raises,
    [save_tree] changes no object of the store and no file other than the
    knowledge file. *)
Theorem save_tree_frame (v : value) (w : World) :
  w_heap (save_tree v w).2 = w_heap w
  /\ forall f, f <> DATA_FILE ->
               w_files (save_tree v w).2 !! f = w_files w !! f.
Proof. exact (dump_frame DATA_FILE v w). Qed.

(** X8. [export_tree] never raises: it ends with no dialog (no file
    chosen), the information box or the error box, and changes neither the
    application, nor the store, nor any file other than the chosen one. *)
Theorem export_tree_frame (app : App) (w : World) (fname : string) :
  exists d w',
    export_tree fname (app, w) = (Ok d, (app, w'))
    /\ w_heap w' = w_heap w
    /\ forall f, f <> fname -> w_files w' !! f = w_files w !! f.
Proof.
  unfold export_tree.
  destruct (decide (fname = EmptyString)) as [E|_].
  - exists None, w. split; [reflexivity|]. split; reflexivity.
  - unfold try_except, bind at 1, in_world.
    destruct (dump_frame fname (tree (state app)) w) as [Hh Hf].
    destruct (bind (open_w fname)
                   (fun _ => json_dump (tree (state app)) fname) w)
      as [[[]|e] w'] eqn:Ed; cbn [snd] in Hh, Hf.
    + exists (Some (ShowInfo "Exportado")), w'. split; [reflexivity|].
      split; [exact Hh|exact Hf].
    + exists (Some (ShowError e)), w'. split; [reflexivity|].
      split; [exact Hh|exact Hf].
Qed.






(** ** Learning, seen from the root *)

(** [learn] on a session whose path descends to a leaf: the store holds
    the grafted tree, in the dicts of the old one and three new ones, and
    the objects outside the tree are as they were. *)
Lemma learn_repr (self : GameState) (w : World) (t : TreeNode) (F : gset addr)
    (true_name new_question : str) (flag : bool) :
  repr (w_heap w) (tree self) t F ->
  walk (w_heap w) (tree self) (path self) (node self) ->
  Guessing self w ->
  exists (old_guess : str) (h' : heap) (tree' : value) (F' : gset addr),
    subtree t ((path self).*2) = Some (Leaf old_guess)
    /\ learn true_name new_question flag (self, w)
       = ((save_tree tree' (mkWorld h' (w_files w))).1,
          (mkGameState tree' (path self) (VRef (length (w_heap w) + 2)%nat),
           (save_tree tree' (mkWorld h' (w_files w))).2))
    /\ repr h' tree'
            (graft t ((path self).*2)
               (Question (normalize_question new_question)
                  (Leaf (if flag then true_name else old_guess))
                  (Leaf (if flag then old_guess else true_name)))) F'
    /\ (forall x, x ∈ F' -> x ∈ F \/ (length (w_heap w) <= x)%nat)
    /\ (forall a o, w_heap w !! a = Some o -> a ∉ F -> h' !! a = Some o).
Proof.
  intros Hr Hw Hleaf.
  destruct (walk_subtree _ _ _ _ Hw t F Hr) as (t' & F0 & Hs & Hr' & HF0 & Hall).
  unfold Guessing in Hleaf. rewrite (repr_is_leaf _ _ _ _ Hr') in Hleaf.
  destruct t' as [g|]; [|discriminate Hleaf]. clear Hleaf.
  inversion Hr' as [c g' Hc En|]; subst g'.
  set (L := length (w_heap w)).
  set (q := normalize_question new_question).
  set (new_t := Question q (Leaf (if flag then true_name else g))
                         (Leaf (if flag then g else true_name))).
  set (o1 := ODict [(lit "guess", VStr (if flag then true_name else g))]).
  set (o2 := ODict [(lit "guess", VStr (if flag then g else true_name))]).
  set (o3 := ODict [(lit "q", VStr q); (lit "yes", VRef L);
                    (lit "no", VRef (L + 1)%nat)]).
  assert (repr ((w_heap w) ++ [o1; o2; o3]) (VRef (L + 2)%nat) new_t
               ({[(L + 2)%nat]} ∪ {[L]} ∪ {[(L + 1)%nat]})) as Hnew.
  { subst new_t o1 o2 o3 L. apply new_node_repr. }
  assert (forall x, x ∈ ({[(L + 2)%nat]} ∪ {[L]} ∪ {[(L + 1)%nat]} : gset addr)
                    -> (length (w_heap w) <= x)%nat) as Hfresh.
  { intros x Hx. subst L. set_solver by lia. }
  exists g.
  rewrite (learn_on_leaf self w c g true_name new_question flag
                         (eq_sym En) Hc).
  cbv zeta. fold L q o1 o2 o3.
  destruct (list.last (path self)) as [[parent side]|] eqn:Elast.
  - apply last_Some in Elast as [p Ep].
    rewrite Ep in Hw, Hall, Hs |- *.
    destruct (walk_last _ _ _ _ _ _ Hw) as (d & Hd & Hget & Hside).
    destruct (Hall parent side) as (a & -> & Ha).
    { apply elem_of_app. right. apply list_elem_of_singleton. reflexivity. }
    unfold as_dict in Hd.
    destruct ((w_heap w) !! a) as [[d'|]|] eqn:Hha; try discriminate.
    injection Hd as ->.
    assert ((w_heap w ++ [o1; o2; o3]) !! a = Some (ODict d)) as Hha3.
    { rewrite lookup_app_l by (eapply lookup_lt_Some, Hha). exact Hha. }
    unfold setitem. cbn [w_heap w_files]. rewrite Hha3.
    destruct (graft_update (w_heap w) [o1; o2; o3] (VRef (L + 2)%nat) new_t _
                a side (node self) Hnew Hfresh d p Hha (tree self) t F Hr Hw)
      as (F' & Hr4 & HF').
    set (h4 := <[a := ODict (dict_set d side (VRef (L + 2)%nat))]>
                 ((w_heap w) ++ [o1; o2; o3])) in *.
    exists h4, (tree self), F'.
    split; [exact Hs|]. split.
    { destruct (save_tree (tree self) (mkWorld h4 (w_files w))); reflexivity. }
    split; [exact Hr4|]. split.
    { intros x Hx. apply HF' in Hx. apply elem_of_union in Hx as [Hx|Hx];
        [left; exact Hx|right; apply Hfresh, Hx]. }
    intros a' o Ha' Hnot. subst h4.
    rewrite list_lookup_insert_ne by (intros ->; contradiction).
    rewrite lookup_app_l by (eapply lookup_lt_Some, Ha'). exact Ha'.
  - apply last_None in Elast. rewrite Elast in Hw, Hs |- *.
    inversion Hw; subst. cbn [fmap list_fmap] in *.
    rewrite graft_nil.
    exists ((w_heap w) ++ [o1; o2; o3]), (VRef (L + 2)%nat),
      ({[(L + 2)%nat]} ∪ {[L]} ∪ {[(L + 1)%nat]}).
    split; [exact Hs|]. split.
    { destruct (save_tree _ _); reflexivity. }
    split; [exact Hnew|]. split.
    { intros x Hx. right. apply Hfresh, Hx. }
    intros a' o Ha' _.
    rewrite lookup_app_l by (eapply lookup_lt_Some, Ha'). exact Ha'.
Qed.

Lemma subtree_graft (bs : list str) (new : TreeNode) :
  forall (t t0 : TreeNode),
    subtree t bs = Some t0 -> subtree (graft t bs new) bs = Some new.
Proof.
  induction bs as [|b bs IH]; intros t t0 Hs;
    [rewrite graft_nil; destruct new; reflexivity|].
  destruct t as [g|q y n]; [discriminate Hs|].
  cbn [subtree graft] in *.
  destruct (decide (b = lit "yes")) as [E|E]; cbn [subtree];
    destruct (decide (b = lit "yes")); try contradiction;
    eapply IH; exact Hs.
Qed.

Lemma subtree_app (bs bs' : list str) :
  forall (t t1 : TreeNode),
    subtree t bs = Some t1 -> subtree t (bs ++ bs') = subtree t1 bs'.
Proof.
  induction bs as [|b bs IH]; intros t t1 Hs.
  - destruct t; injection Hs as <-; reflexivity.
  - destruct t as [g|q y n]; [discriminate Hs|].
    cbn [subtree app] in *.
    destruct (decide (b = lit "yes")); apply IH; exact Hs.
Qed.

(** X11. After [learn] on a leaf reached by a path, a restarted session
    that repeats the answers of the path arrives at the new question; the
    answer given for the new name then leads to the leaf of the new name and
    the other answer to the leaf of the old guess.  This holds whether or
    not the tree could be saved. *)
Theorem learn_then_replay (self : GameState) (w : World) (t : TreeNode)
    (F : gset addr) (true_name new_question : str) (flag ans : bool) :
  repr (w_heap w) (tree self) t F ->
  walk (w_heap w) (tree self) (path self) (node self) ->
  Guessing self w ->
  exists old_guess r self' w' p v,
    subtree t ((path self).*2) = Some (Leaf old_guess)
    /\ learn true_name new_question flag (self, w) = (r, (self', w'))
    /\ bind restart
            (fun _ => answers ((path self).*2
                               ++ [if ans then lit "yes" else lit "no"]))
            (self', w')
       = (Ok tt, (mkGameState (tree self') p v, w'))
    /\ as_dict (w_heap w') v
       = Some [(lit "guess",
                VStr (if Bool.eqb ans flag then true_name else old_guess))].
Proof.
  intros Hr Hw Hleaf.
  destruct (learn_repr self w t F true_name new_question flag Hr Hw Hleaf)
    as (g & h' & tree' & F' & Hs & El & Hr' & _ & _).
  pose proof (save_tree_heap tree' (mkWorld h' (w_files w))) as Hh.
  destruct (save_tree tree' (mkWorld h' (w_files w))) as [r w'].
  cbn [fst snd w_heap] in El, Hh.
  set (self' := mkGameState tree' (path self)
                            (VRef (length (w_heap w) + 2)%nat)) in *.
  set (new_t := Question (normalize_question new_question)
                  (Leaf (if flag then true_name else g))
                  (Leaf (if flag then g else true_name))) in *.
  set (cs := (path self).*2 ++ [if ans then lit "yes" else lit "no"]).
  assert (subtree (graft t ((path self).*2) new_t) cs
          = Some (Leaf (if Bool.eqb ans flag then true_name else g))) as Hsub.
  { subst cs. rewrite (subtree_app _ _ _ new_t)
      by (eapply subtree_graft; exact Hs).
    subst new_t. destruct ans, flag; cbn [subtree Bool.eqb];
      try (destruct (decide (lit "yes" = lit "yes")); [|contradiction]);
      try (destruct (decide (lit "no" = lit "yes")) as [E|_];
           [exfalso; exact (no_is_not_yes E)|]);
      reflexivity. }
  rewrite <- Hh in Hr'.
  destruct (answers_subtree w' cs (mkGameState tree' [] tree') _ _ F'
              Hr' Hsub) as (p & v & F2 & Ea & Rv & _ & _ & _).
  exists g, r, self', w', p, v.
  split; [exact Hs|]. split; [exact El|]. split.
  - unfold bind, restart. cbn [tree self']. exact Ea.
  - eapply repr_leaf_dict. exact Rv.
Qed.

Lemma learn_then_replay_witness :
  let yes := lit "yes" in
  let self := mkGameState seed_root
                [(VRef 28%nat, yes); (VRef 12%nat, yes); (VRef 2%nat, yes)]
                (VRef 0%nat) in
  exists r self' w' p v,
    learn (lit "Marmu") (lit "¿Es un sueño") true (self, seed_world)
    = (r, (self', w'))
    /\ bind restart (fun _ => answers [yes; yes; yes; lit "no"]) (self', w')
       = (Ok tt, (mkGameState (tree self') p v, w'))
    /\ as_dict (w_heap w') v = Some [(lit "guess", VStr (lit "Radiancia"))].
Proof.
  intros yes self. destruct seed_world_repr as [F Hr].
  destruct (learn_then_replay self seed_world default_tree_t F
              (lit "Marmu") (lit "¿Es un sueño") true false)
    as (g & r & self' & w' & p & v & Hs & El & Ea & Hv).
  - exact Hr.
  - eapply walk_cons; [vm_compute; reflexivity|reflexivity|left; reflexivity
                       |vm_compute; reflexivity|].
    eapply walk_cons; [vm_compute; reflexivity|reflexivity|left; reflexivity
                       |vm_compute; reflexivity|].
    eapply walk_cons; [vm_compute; reflexivity|reflexivity|left; reflexivity
                       |vm_compute; reflexivity|].
    apply walk_nil.
  - vm_compute. reflexivity.
  - vm_compute in Hs. injection Hs as <-.
    exists r, self', w', p, v. split; [exact El|]. split; [exact Ea|exact Hv].
Defined.

(** ** The statistics file *)

Lemma enc_ok_intstr (z : Z) : enc_ok (intstr z).
Proof.
  assert (forall d, Forall (fun c => c < 128) (uint_chars d)) as Hd.
  { induction d; cbn [uint_chars]; constructor; try lia; assumption. }
  apply enc_ok_ascii. destruct z as [|p|p]; cbn [intstr].
  - repeat constructor; lia.
  - apply Hd.
  - constructor; [lia|apply Hd].
Qed.

(** The items of a dict of integers, encoded. *)
Lemma encode_items_ints (fuel : nat) (h : heap) (m : list addr) (lvl : nat)
    (l : list (str * Z)) :
  Forall (fun kn => enc_ok kn.1) l ->
  exists cs,
    encode_items (iterencode fuel h m (S lvl)) (44 :: newline_indent (S lvl))
                 false (int_dict l) = (cs, None)
    /\ Forall enc_ok cs
    /\ concat cs ++ newline_indent lvl
       = match l with
         | [] => newline_indent lvl
         | _ => 44 :: newline_indent (S lvl)
         end ++ dumps_members lvl (map (fun kn => (kn.1, JInt kn.2)) l).
Proof.
  induction 1 as [|[k n] l Hk _ (cs & E & Hok & Hcat)].
  - exists []. split; [reflexivity|]. split; [constructor|].
    cbn [map dumps_members concat app]. rewrite app_nil_r. reflexivity.
  - cbn [int_dict map encode_items fst snd].
    rewrite (iterencode_atom _ _ _ _ (VInt n) _ eq_refl).
    fold (int_dict l). rewrite E. cbn [out_cat yield fst snd app].
    eexists. split; [reflexivity|]. split.
    + repeat (apply Forall_cons; split); auto with enc.
      * apply enc_ok_basestring. exact Hk.
      * apply enc_ok_intstr.
    + cbn [concat dumps_members dumps]. app_norm.
      rewrite Hcat. destruct l; reflexivity.
Qed.

(** [json.dump] of a dict of integers yields the text of its document. *)
Lemma iterencode_int_dict (fuel : nat) (h : heap) (a : addr)
    (l : list (str * Z)) :
  h !! a = Some (ODict (int_dict l)) ->
  Forall (fun kn => enc_ok kn.1) l ->
  exists cs,
    iterencode (S fuel) h [] 0 (VRef a) = (cs, None)
    /\ Forall enc_ok cs
    /\ concat cs = dumps 0 (int_doc l).
Proof.
  intros Ha Hl. cbn [iterencode encode_atom]. rewrite Ha.
  destruct l as [|[k n] l]; cbn [int_dict map fst snd].
  - eexists. split; [reflexivity|]. split; [|reflexivity].
    repeat constructor. apply enc_ok_ascii. repeat constructor; lia.
  - rewrite bool_decide_eq_false_2 by apply not_elem_of_nil.
    apply Forall_cons in Hl as [Hk Hl].
    destruct (encode_items_ints fuel h [a] 0 l Hl) as (cs & E & Hok & Hcat).
    cbn [encode_items]. rewrite (iterencode_atom _ _ _ _ (VInt n) _ eq_refl).
    fold (int_dict l). rewrite E. cbn [out_cat yield fst snd app].
    eexists. split; [reflexivity|]. split.
    + repeat (apply Forall_cons; split); auto with enc.
      * apply enc_ok_basestring. exact Hk.
      * apply enc_ok_intstr.
      * apply Forall_app. split; [exact Hok|].
        repeat (apply Forall_cons; split); auto with enc.
    + unfold int_doc. cbn [map fst snd]. rewrite dumps_dict_eq.
      cbn [concat dumps_members dumps]. rewrite concat_app.
      cbn [concat]. rewrite ?app_nil_r. app_norm.
      rewrite (app_assoc (concat cs)), Hcat.
      destruct l; app_norm; reflexivity.
Qed.

Lemma dump_int_dict (fname : string) (a : addr) (l : list (str * Z))
    (w : World) :
  w_heap w !! a = Some (ODict (int_dict l)) ->
  Forall (fun kn => enc_ok kn.1) l ->
  exists bs,
    utf8_encode (dumps 0 (int_doc l)) = Some bs
    /\ bind (open_w fname) (fun _ => json_dump (VRef a) fname) w
       = (Ok tt, mkWorld (w_heap w) (<[fname := bs]> (w_files w))).
Proof.
  intros Ha Hl.
  destruct (iterencode_int_dict (length (w_heap w)) _ a l Ha Hl)
    as (cs & E & Hok & T).
  destruct (write_chunks_ok fname cs Hok
              (mkWorld (w_heap w) (<[fname := []]> (w_files w))) [])
    as (bs & Hbs & Hw).
  { cbn [w_files]. apply lookup_insert_eq. }
  exists bs. split; [rewrite <- T; exact Hbs|].
  unfold bind at 1. unfold open_w, modify, json_dump. cbn [w_heap].
  rewrite E. unfold bind. rewrite Hw. unfold ret. cbn [w_heap w_files app].
  rewrite insert_insert_eq. reflexivity.
Qed.

Lemma plain_int_doc (l : list (str * Z)) : plain (int_doc l) = true.
Proof.
  unfold int_doc. cbn [plain].
  induction l as [|kn l IH]; [reflexivity|exact IH].
Qed.

Lemma build_int_doc (l : list (str * Z)) (h : heap) :
  NoDup (l.*1) ->
  build (int_doc l) h = (VRef (length h), h ++ [ODict (int_dict l)]).
Proof.
  intros Hnd. unfold int_doc. rewrite build_dict_eq.
  assert (build_members (map (fun kn => (kn.1, JInt kn.2)) l) h
          = (int_dict l, h)) as ->.
  { induction l as [|[k n] l IH]; [reflexivity|].
    cbn [map build_members build fst snd]. rewrite IH; [reflexivity|].
    apply NoDup_cons in Hnd as [_ Hnd]. exact Hnd. }
  rewrite dict_of_pairs_nodup; [reflexivity|].
  unfold int_dict. rewrite <- list_fmap_compose.
  exact Hnd.
Qed.

Lemma stats_dict_int (p wn l : Z) :
  stats_dict p wn l
  = int_dict [(lit "played", p); (lit "wins", wn); (lit "learned", l)].
Proof. reflexivity. Qed.

Lemma stats_keys_ok (p wn l : Z) :
  Forall (fun kn : str * Z => enc_ok kn.1)
         [(lit "played", p); (lit "wins", wn); (lit "learned", l)]
  /\ NoDup ([(lit "played", p); (lit "wins", wn); (lit "learned", l)].*1).
Proof.
  split.
  - repeat constructor; cbn [fst]; vm_compute; eauto.
  - cbn [fmap list_fmap fst]. repeat constructor; vm_compute; set_solver.
Qed.

(** X12. A statistics dict of integers (with keys that can be encoded) is
    saved by [save_stats] without touching the store or any other file, and
    [load_stats] then returns a new dict with the same items in the same
    order.  (Limits of the interpreter are outside the model.) *)
Theorem save_load_stats (a : addr) (l : list (str * Z)) (w : World) :
  w_heap w !! a = Some (ODict (int_dict l)) ->
  NoDup (l.*1) ->
  Forall (fun kn => enc_ok kn.1) l ->
  exists w1 w2,
    save_stats (VRef a) w = (Ok tt, w1)
    /\ w_heap w1 = w_heap w
    /\ (forall f, f <> STATS_FILE -> w_files w1 !! f = w_files w !! f)
    /\ load_stats w1 = (Ok (VRef (length (w_heap w))), w2)
    /\ w_heap w2 = w_heap w ++ [ODict (int_dict l)]
    /\ w_files w2 = w_files w1.
Proof.
  intros Ha Hnd Hl.
  destruct (dump_int_dict STATS_FILE a l w Ha Hl) as (bs & Hbs & Hs).
  set (w1 := mkWorld (w_heap w) (<[STATS_FILE := bs]> (w_files w))) in *.
  exists w1, (mkWorld (w_heap w ++ [ODict (int_dict l)]) (w_files w1)).
  split; [exact Hs|]. split; [reflexivity|]. split.
  { intros f Hne. cbn [w_files w1]. apply lookup_insert_ne. congruence. }
  split; [|split; reflexivity].
  unfold load_stats, bind at 1, path_exists. cbn [w_files w1].
  rewrite lookup_insert_eq.
  rewrite bool_decide_eq_true_2 by eauto. cbn [negb].
  rewrite (json_load_dumps STATS_FILE (int_doc l) bs w1 (plain_int_doc l) Hbs)
    by apply lookup_insert_eq.
  rewrite (build_int_doc l _ Hnd). reflexivity.
Qed.

Lemma save_load_stats_witness :
  let w := mkWorld [ODict (stats_dict 7 5 2)] ∅ in
  exists w1 w2,
    save_stats (VRef 0%nat) w = (Ok tt, w1)
    /\ w_heap w1 = w_heap w
    /\ (forall f, f <> STATS_FILE -> w_files w1 !! f = w_files w !! f)
    /\ load_stats w1 = (Ok (VRef 1%nat), w2)
    /\ w_heap w2 = [ODict (stats_dict 7 5 2); ODict (stats_dict 7 5 2)]
    /\ w_files w2 = w_files w1.
Proof.
  intros w.
  apply (save_load_stats 0%nat
           [(lit "played", 7%Z); (lit "wins", 5%Z); (lit "learned", 2%Z)] w).
  - reflexivity.
  - apply stats_keys_ok.
  - apply stats_keys_ok.
Defined.

(** ** Learning is persisted *)

Lemma enc_ok_Forall (s : str) :
  enc_ok s <-> Forall (fun c => is_Some (utf8_encode_char c)) s.
Proof.
  induction s as [|c s IH].
  - split; [constructor|intros _; apply enc_ok_nil].
  - rewrite enc_ok_cons, Forall_cons, IH. reflexivity.
Qed.

Lemma lstrip_Forall (P : char -> Prop) (s : str) :
  Forall P s -> Forall P (lstrip s).
Proof.
  induction 1 as [|c s Hc Hs IH]; cbn [lstrip]; [constructor|].
  destruct (isspace c); [exact IH|constructor; assumption].
Qed.

Lemma strip_Forall (P : char -> Prop) (s : str) :
  Forall P s -> Forall P (strip s).
Proof.
  intros H. unfold strip, rstrip.
  apply Forall_rev, lstrip_Forall, Forall_rev, lstrip_Forall, H.
Qed.

Lemma enc_ok_strip (s : str) : enc_ok s -> enc_ok (strip s).
Proof. rewrite !enc_ok_Forall. apply strip_Forall. Qed.

Lemma enc_ok_normalize_question (q : str) :
  enc_ok q -> enc_ok (normalize_question q).
Proof.
  intros H. unfold normalize_question.
  destruct (negb _); [|apply enc_ok_strip, H].
  apply enc_ok_app. split; [apply enc_ok_strip, H|].
  vm_compute. eauto.
Qed.

Lemma encodable_graft (bs : list str) (new : TreeNode) :
  encodable new ->
  forall t, encodable t -> encodable (graft t bs new).
Proof.
  intros Hn. induction bs as [|b bs IH]; intros t Ht.
  - rewrite graft_nil. exact Hn.
  - destruct t as [g|q y n]; [exact Ht|].
    cbn [graft]. destruct Ht as (Hq & Hy & Hn').
    destruct (decide (b = lit "yes")); cbn [encodable]; auto.
Qed.

Lemma encodable_subtree (bs : list str) :
  forall t t', encodable t -> subtree t bs = Some t' -> encodable t'.
Proof.
  induction bs as [|b bs IH]; intros t t' Ht Hs.
  - destruct t; injection Hs as <-; exact Ht.
  - destruct t as [g|q y n]; [discriminate Hs|].
    cbn [subtree] in Hs. destruct Ht as (Hq & Hy & Hn).
    destruct (decide (b = lit "yes"));
      [exact (IH y t' Hy Hs)|exact (IH n t' Hn Hs)].
Qed.

(** X13. On a tree with encodable strings, [learn] with an encodable name
    and question returns normally and the knowledge file then holds the
    grafted tree: [load_tree] reads it back. *)
Theorem learn_persists (self : GameState) (w : World) (t : TreeNode)
    (F : gset addr) (true_name new_question : str) (flag : bool) :
  repr (w_heap w) (tree self) t F ->
  walk (w_heap w) (tree self) (path self) (node self) ->
  Guessing self w ->
  encodable t ->
  enc_ok true_name ->
  enc_ok new_question ->
  exists old_guess self' w' v2 w2 F2,
    subtree t ((path self).*2) = Some (Leaf old_guess)
    /\ learn true_name new_question flag (self, w) = (Ok tt, (self', w'))
    /\ load_tree w' = (Ok v2, w2)
    /\ repr (w_heap w2) v2
            (graft t ((path self).*2)
               (Question (normalize_question new_question)
                  (Leaf (if flag then true_name else old_guess))
                  (Leaf (if flag then old_guess else true_name)))) F2.
Proof.
  intros Hr Hw Hleaf Het Hen Heq.
  destruct (learn_repr self w t F true_name new_question flag Hr Hw Hleaf)
    as (g & h' & tree' & F' & Hs & El & Hr' & _ & _).
  assert (encodable (graft t ((path self).*2)
            (Question (normalize_question new_question)
               (Leaf (if flag then true_name else g))
               (Leaf (if flag then g else true_name))))) as Heg.
  { apply encodable_graft; [|exact Het].
    pose proof (encodable_subtree _ _ _ Het Hs) as Hg. cbn [encodable] in *.
    split; [apply enc_ok_normalize_question, Heq|].
    destruct flag; auto. }
  destruct (dump_tree_ok DATA_FILE tree' _ F' (mkWorld h' (w_files w)) Hr' Heg)
    as (j & bs & D & Hbs & Hsv).
  change (bind (open_w DATA_FILE) (fun _ => json_dump tree' DATA_FILE))
    with (save_tree tree') in Hsv.
  rewrite Hsv in El. cbn [fst snd w_heap w_files] in El.
  destruct (load_tree_doc j _ bs
              (mkWorld h' (<[DATA_FILE := bs]> (w_files w))) D Hbs)
    as (a2 & F2 & extra & Hl & R2 & _).
  { apply lookup_insert_eq. }
  eexists g, _, _, (VRef a2), _, F2.
  split; [exact Hs|]. split; [exact El|]. split; [exact Hl|exact R2].
Qed.

Lemma learn_persists_witness :
  let yes := lit "yes" in
  let self := mkGameState seed_root
                [(VRef 28%nat, yes); (VRef 12%nat, yes); (VRef 2%nat, yes)]
                (VRef 0%nat) in
  exists self' w' v2 w2 F2,
    learn (lit "Marmu") (lit "¿Es un sueño") false (self, seed_world)
    = (Ok tt, (self', w'))
    /\ load_tree w' = (Ok v2, w2)
    /\ repr (w_heap w2) v2
            (graft default_tree_t [yes; yes; yes]
               (Question (lit "¿Es un sueño?") (Leaf (lit "Radiancia"))
                         (Leaf (lit "Marmu")))) F2.
Proof.
  intros yes self. destruct seed_world_repr as [F Hr].
  destruct (learn_persists self seed_world default_tree_t F
              (lit "Marmu") (lit "¿Es un sueño") false)
    as (g & self' & w' & v2 & w2 & F2 & Hs & El & Hl & R2).
  - exact Hr.
  - eapply walk_cons; [vm_compute; reflexivity|reflexivity|left; reflexivity
                       |vm_compute; reflexivity|].
    eapply walk_cons; [vm_compute; reflexivity|reflexivity|left; reflexivity
                       |vm_compute; reflexivity|].
    eapply walk_cons; [vm_compute; reflexivity|reflexivity|left; reflexivity
                       |vm_compute; reflexivity|].
    apply walk_nil.
  - vm_compute. reflexivity.
  - exact default_tree_encodable.
  - vm_compute. eauto.
  - vm_compute. eauto.
  - vm_compute in Hs. injection Hs as <-.
    exists self', w', v2, w2, F2. split; [exact El|]. split; [exact Hl|].
    exact R2.
Defined.

(** ** The session invariant *)

Lemma walk_snoc (h : heap) (v : value) (p : list (value * str)) (v' : value) :
  walk h v p v' ->
  forall (d : dict) (b : str) (child : value),
    as_dict h v' = Some d ->
    dict_in (lit "guess") d = false ->
    b = lit "yes" \/ b = lit "no" ->
    dict_get d b = Some child ->
    walk h v (p ++ [(v', b)]) child.
Proof.
  induction 1 as [v|v d0 b0 c0 p v' Hd0 Hg0 Hb0 Hc0 Hw IH];
    intros d b child Hd Hg Hb Hc; cbn [app].
  - eapply walk_cons; eauto. constructor.
  - eapply walk_cons; eauto.
Qed.

Lemma branch_of_cases (c : str) : branch_of c = lit "yes" \/ branch_of c = lit "no".
Proof. unfold branch_of. destruct (decide (c = lit "yes")); auto. Qed.

(** One answer in a session on a tree. *)
Lemma answer_session (self : GameState) (w : World) (t : TreeNode) (c : str) :
  session self w t ->
  exists self',
    answer c (self, w) = (Ok tt, (self', w))
    /\ session self' w t
    /\ tree self' = tree self
    /\ ((Guessing self w /\ self' = self)
        \/ (~ Guessing self w
            /\ path self' = path self ++ [(node self, branch_of c)])).
Proof.
  intros (F & Hr & Hw).
  destruct (walk_subtree _ _ _ _ Hw t F Hr) as (t' & F' & Hs & Hr' & _ & _).
  pose proof (repr_is_leaf _ _ _ _ Hr') as Hleaf.
  inversion Hr' as [a g Ha Ev|a d q vy vn y n Fy Fn Ha Hp Hy Hn Hay Han Hd Ev];
    subst t'.
  - exists self. unfold answer. rewrite Hleaf.
    split; [reflexivity|]. split; [exists F; auto|]. split; [reflexivity|].
    left. split; [exact Hleaf|reflexivity].
  - rewrite Ev.
    pose proof (question_dict_get d q vy vn Hp) as (Hq & Hgy & Hgn & Hg).
    assert (as_dict (w_heap w) (node self) = Some d) as Hd'.
    { rewrite <- Ev. unfold as_dict. rewrite Ha. reflexivity. }
    assert (exists child, dict_get d (branch_of c) = Some child) as [child Hc].
    { unfold branch_of. destruct (decide (c = lit "yes")); eauto. }
    exists (mkGameState (tree self) (path self ++ [(node self, branch_of c)])
                        child).
    split.
    { unfold answer. rewrite Hleaf, Hd'. fold (branch_of c). cbn [path tree].
      rewrite Hc. reflexivity. }
    split.
    { exists F. cbn [tree path node]. split; [exact Hr|].
      eapply walk_snoc; eauto using branch_of_cases. }
    split; [reflexivity|]. right. split; [|reflexivity].
    unfold Guessing. rewrite Hleaf. discriminate.
Qed.

(** X14. On a well-formed tree any sequence of answers returns normally
    and leaves the world unchanged; the tree of the session is the same, the
    old path is the beginning of the new one, which grew by at most one
    entry per answer, and the new path is again a descent from the root to
    the current node. *)
Theorem answers_keep_session (cs : list str) :
  forall (self : GameState) (w : World) (t : TreeNode),
    session self w t ->
    exists self',
      answers cs (self, w) = (Ok tt, (self', w))
      /\ session self' w t
      /\ tree self' = tree self
      /\ path self `prefix_of` path self'
      /\ (length (path self') <= length (path self) + length cs)%nat.
Proof.
  induction cs as [|c cs IH]; intros self w t Hs.
  - exists self. split; [reflexivity|]. split; [exact Hs|].
    split; [reflexivity|]. split; [reflexivity|]. lia.
  - destruct (answer_session self w t c Hs) as (s1 & E1 & Hs1 & Ht1 & Hp1).
    destruct (IH s1 w t Hs1) as (s2 & E2 & Hs2 & Ht2 & Hp2 & Hl2).
    exists s2. cbn [answers]. unfold bind. rewrite E1, E2.
    split; [reflexivity|]. split; [exact Hs2|].
    split; [congruence|].
    destruct Hp1 as [[_ ->]|[_ Hp1]].
    + split; [exact Hp2|]. cbn [length]. lia.
    + rewrite Hp1 in Hp2, Hl2. rewrite length_app in Hl2. cbn [length] in *.
      split; [|lia].
      etransitivity; [|exact Hp2]. apply prefix_app_r. reflexivity.
Qed.

Lemma answers_keep_session_witness :
  exists self',
    answers [lit "yes"; lit "quizás"; lit "no"; lit "yes"; lit "yes"]
            (GameState_init seed_root, seed_world)
    = (Ok tt, (self', seed_world))
    /\ session self' seed_world default_tree_t
    /\ tree self' = seed_root
    /\ [] `prefix_of` path self'
    /\ (length (path self') <= 0 + 5)%nat.
Proof.
  apply (answers_keep_session
           [lit "yes"; lit "quizás"; lit "no"; lit "yes"; lit "yes"]
           (GameState_init seed_root) seed_world default_tree_t).
  destruct seed_world_repr as [F Hr]. exists F. split; [exact Hr|].
  apply walk_nil.
Defined.

(** ** Answers outside a well-formed tree *)

(** [answer] on a dict that has neither [guess] nor the branch: the
    default of [get] is a new empty dict. *)
Lemma answer_missing (self : GameState) (w : World) (d : dict) (c : str) :
  as_dict (w_heap w) (node self) = Some d ->
  dict_in (lit "guess") d = false ->
  dict_get d (branch_of c) = None ->
  answer c (self, w)
  = (Ok tt, (mkGameState (tree self)
                         (path self ++ [(node self, branch_of c)])
                         (VRef (length (w_heap w))),
             mkWorld (w_heap w ++ [ODict []]) (w_files w))).
Proof.
  intros Hd Hg Hc. unfold answer, is_leaf. rewrite Hd, Hg.
  fold (branch_of c). cbn [path tree]. rewrite Hc. reflexivity.
Qed.

Lemma answers_cons (c : str) (cs : list str) (s : GameState * World) :
  answers (c :: cs) s
  = match answer c s with
    | (Ok _, s') => answers cs s'
    | (Raise e, s') => (Raise e, s')
    end.
Proof. reflexivity. Qed.

(** X15. On a dict that has no [guess] and lacks the branch of the
    answer, [answer] does not raise: the session moves to a new empty dict,
    and every further answer moves to another new empty dict, one path
    entry per answer. *)
Theorem answer_missing_branch (cs : list str) :
  forall (self : GameState) (w : World) (d : dict) (c : str),
    as_dict (w_heap w) (node self) = Some d ->
    dict_in (lit "guess") d = false ->
    dict_get d (branch_of c) = None ->
    exists p,
      answers (c :: cs) (self, w)
      = (Ok tt,
         (mkGameState (tree self) (path self ++ p)
                      (VRef (length (w_heap w) + length cs)%nat),
          mkWorld (w_heap w ++ replicate (S (length cs)) (ODict []))
                  (w_files w)))
      /\ length p = S (length cs)
      /\ p.*2 = branch_of <$> (c :: cs).
Proof.
  induction cs as [|c' cs IH]; intros self w d c Hd Hg Hc.
  - exists [(node self, branch_of c)].
    rewrite answers_cons, (answer_missing self w d c Hd Hg Hc).
    cbn [answers]. unfold ret. rewrite Nat.add_0_r. repeat split.
  - rewrite answers_cons, (answer_missing self w d c Hd Hg Hc).
    set (self1 := mkGameState (tree self)
                    (path self ++ [(node self, branch_of c)])
                    (VRef (length (w_heap w)))).
    set (w1 := mkWorld (w_heap w ++ [ODict []]) (w_files w)).
    destruct (IH self1 w1 [] c') as (p & E & Hl & Hb).
    { unfold as_dict. cbn [node self1 w_heap w1].
      rewrite lookup_app_r, Nat.sub_diag by lia. reflexivity. }
    { reflexivity. }
    { reflexivity. }
    exists ((node self, branch_of c) :: p).
    rewrite E. cbn [tree path node self1 w_heap w_files w1].
    rewrite <- !app_assoc, length_app. cbn [length app replicate].
    replace (length (w_heap w) + 1 + length cs)%nat
      with (length (w_heap w) + S (length cs))%nat by lia.
    split; [reflexivity|]. split; [lia|].
    cbn [fmap list_fmap snd] in *. rewrite Hb. reflexivity.
Qed.

Lemma answer_missing_branch_witness :
  let w := mkWorld [ODict [(lit "q", VStr (lit "¿Vuela?"))]] ∅ in
  let self := GameState_init (VRef 0%nat) in
  exists p,
    answers [lit "yes"; lit "no"] (self, w)
    = (Ok tt,
       (mkGameState (VRef 0%nat) ([] ++ p) (VRef (1 + 1)%nat),
        mkWorld (w_heap w ++ replicate 2 (ODict [])) ∅))
    /\ length p = 2%nat
    /\ p.*2 = branch_of <$> [lit "yes"; lit "no"].
Proof.
  intros w self.
  apply (answer_missing_branch [lit "no"] self w
           [(lit "q", VStr (lit "¿Vuela?"))] (lit "yes")).
  - reflexivity.
  - reflexivity.
  - reflexivity.
Defined.

Lemma build_not_dict (j : json) (h : heap) :
  match j with JDict _ => False | _ => True end ->
  as_dict (build j h).2 (build j h).1 = None.
Proof.
  destruct j as [| | | |l|d]; try reflexivity; [|contradiction].
  intros _. rewrite build_list_eq.
  destruct (build_elems l h) as [vs h']. unfold alloc, as_dict. cbn [fst snd].
  rewrite lookup_app_r, Nat.sub_diag by lia. reflexivity.
Qed.

(** X16. [load_tree] does not check what the knowledge file holds: a JSON
    document that is not an object is returned as the tree; it is not a
    leaf, and the first [answer] raises [AttributeError] after the path was
    extended. *)
Theorem load_tree_not_object (w : World) (bs : list N) (text : str) (j : json)
    (c : str) :
  w_files w !! DATA_FILE = Some bs ->
  utf8_decode bs = Some text ->
  json_loads text = Ok j ->
  match j with JDict _ => False | _ => True end ->
  exists v w1,
    load_tree w = (Ok v, w1)
    /\ is_leaf (w_heap w1) v = false
    /\ answer c (GameState_init v, w1)
       = (Raise AttributeError,
          (mkGameState v [(v, branch_of c)] v, w1)).
Proof.
  intros Hf Hdec Hj Hnd.
  pose proof (build_not_dict j (w_heap w) Hnd) as Hb.
  destruct (build j (w_heap w)) as [v h'] eqn:Eb. cbn [fst snd] in Hb.
  exists v, (mkWorld h' (w_files w)). split; [|split].
  - unfold load_tree, bind at 1, path_exists. rewrite Hf.
    rewrite bool_decide_eq_true_2 by eauto. cbn [negb].
    unfold json_load, bind, read_text. rewrite Hf, Hdec, Hj, Eb. reflexivity.
  - unfold is_leaf. cbn [w_heap]. rewrite Hb. reflexivity.
  - unfold answer, is_leaf.
    cbn [node tree path GameState_init w_heap].
    rewrite Hb. reflexivity.
Qed.

Lemma load_tree_not_object_witness :
  let w := mkWorld [] {[ DATA_FILE := [91; 93] ]} in
  exists v w1,
    load_tree w = (Ok v, w1)
    /\ is_leaf (w_heap w1) v = false
    /\ answer (lit "yes") (GameState_init v, w1)
       = (Raise AttributeError,
          (mkGameState v [(v, branch_of (lit "yes"))] v, w1)).
Proof.
  intros w.
  apply (load_tree_not_object w [91; 93] [91; 93] (JList []) (lit "yes")).
  - reflexivity.
  - reflexivity.
  - reflexivity.
  - exact I.
Defined.

(** ** The counters *)

(** X17. The counters of a learning, lines 348-349, on a statistics dict
    without the key [learned]: [played] is incremented, [learned] is created
    with the value 1 and the other items are unchanged. *)
Theorem count_learned_default (w : World) (a : addr) (d : dict) (p : Z) :
  w_heap w !! a = Some (ODict d) ->
  dict_get d (lit "played") = Some (VInt p) ->
  dict_get d (lit "learned") = None ->
  exists d',
    count_learned (VRef a) w
    = (Ok tt, mkWorld (<[a := ODict d']> (w_heap w)) (w_files w))
    /\ dict_get d' (lit "played") = Some (VInt (p + 1))
    /\ dict_get d' (lit "learned") = Some (VInt 1)
    /\ forall k, k <> lit "played" -> k <> lit "learned" ->
                 dict_get d' k = dict_get d k.
Proof.
  intros Ha Hp Hl.
  exists (dict_set (dict_set d (lit "played") (VInt (p + 1))) (lit "learned")
                   (VInt 1)).
  split.
  - unfold count_learned, bind at 1.
    rewrite (incr_spec w a d (lit "played") p Ha Hp).
    unfold bind, get_or_zero, as_dict. cbn [w_heap w_files].
    rewrite (lookup_insert_obj _ _ _ _ Ha).
    rewrite dict_get_set.
    destruct (decide (lit "played" = lit "learned")) as [E|_];
      [vm_compute in E; discriminate E|].
    rewrite Hl. cbn [from_option id add1]. unfold ret, setitem.
    cbn [w_heap w_files]. rewrite (lookup_insert_obj _ _ _ _ Ha).
    rewrite list_insert_insert_eq. reflexivity.
  - rewrite !dict_get_set.
    destruct (decide (lit "learned" = lit "played")) as [E|_];
      [vm_compute in E; discriminate E|].
    destruct (decide (lit "played" = lit "played")); [|contradiction].
    destruct (decide (lit "learned" = lit "learned")); [|contradiction].
    split; [reflexivity|]. split; [reflexivity|].
    intros k Hk1 Hk2. rewrite !dict_get_set.
    destruct (decide (lit "learned" = k)); [congruence|].
    destruct (decide (lit "played" = k)); [congruence|]. reflexivity.
Qed.

Lemma count_learned_default_witness :
  let d := [(lit "played", VInt 4); (lit "wins", VInt 4)] in
  exists d',
    count_learned (VRef 0%nat) (mkWorld [ODict d] ∅)
    = (Ok tt, mkWorld (<[0%nat := ODict d']> [ODict d]) ∅)
    /\ dict_get d' (lit "played") = Some (VInt (4 + 1))
    /\ dict_get d' (lit "learned") = Some (VInt 1)
    /\ forall k, k <> lit "played" -> k <> lit "learned" ->
                 dict_get d' k = dict_get d k.
Proof.
  intros d.
  apply (count_learned_default (mkWorld [ODict d] ∅) 0%nat d 4%Z).
  - reflexivity.
  - reflexivity.
  - reflexivity.
Defined.

(** X18. A correct guess with a statistics dict that has [played] but
    lacks [wins]: [on_button] raises [KeyError] once [played] is
    incremented in the store; nothing is saved and no new game starts. *)
Theorem on_button_missing_wins (app : App) (w : World) (r : Replies)
    (a : addr) (d : dict) (p : Z) :
  Guessing (state app) w ->
  stats app = VRef a ->
  w_heap w !! a = Some (ODict d) ->
  dict_get d (lit "played") = Some (VInt p) ->
  dict_get d (lit "wins") = None ->
  on_button (lit "yes") r (app, w)
  = (Raise KeyError,
     (app, mkWorld (<[a := ODict (dict_set d (lit "played") (VInt (p + 1)))]>
                      (w_heap w))
                   (w_files w))).
Proof.
  intros Hleaf Hst Ha Hp Hw. unfold Guessing in Hleaf.
  destruct (getitem_guess w _ Hleaf) as [g Hg].
  unfold on_button. rewrite Hleaf. unfold bind at 1, in_world at 1.
  rewrite Hg. destruct (decide (lit "yes" = lit "yes")); [|contradiction].
  unfold bind at 1, in_world at 1. rewrite Hst.
  unfold count_win, bind at 1.
  rewrite (incr_spec w a d (lit "played") p Ha Hp).
  unfold incr, bind, getitem. cbn [w_heap w_files].
  rewrite (lookup_insert_obj _ _ _ _ Ha). rewrite dict_get_set.
  destruct (decide (lit "played" = lit "wins")) as [E|_];
    [vm_compute in E; discriminate E|].
  rewrite Hw. reflexivity.
Qed.

Lemma on_button_missing_wins_witness :
  let d := [(lit "played", VInt 4)] in
  let h := [ODict [(lit "guess", VStr (lit "Zote"))]; ODict d] in
  let app := mkApp (VRef 0%nat) (GameState_init (VRef 0%nat)) (VRef 1%nat) in
  on_button (lit "yes") (mkReplies None None false) (app, mkWorld h ∅)
  = (Raise KeyError,
     (app, mkWorld (<[1%nat := ODict (dict_set d (lit "played")
                                               (VInt (4 + 1)))]> h) ∅)).
Proof.
  intros d h app.
  apply (on_button_missing_wins app (mkWorld h ∅) (mkReplies None None false)
           1%nat d 4%Z).
  - reflexivity.
  - reflexivity.
  - reflexivity.
  - reflexivity.
  - reflexivity.
Defined.

(** X19. With statistics that are a dict of three integer counters such
    that [0 <= wins <= played], [_update_status] raises no exception, and
    the accuracy it computes is a finite float whose value lies between 0
    and 100. *)
Theorem accuracy_bounds (app : App) (w : World) (a : addr) (p wn l : Z) :
  stats app = VRef a ->
  w_heap w !! a = Some (ODict (stats_dict p wn l)) ->
  (0 <= wn <= p)%Z ->
  update_status (app, w) = (Ok tt, (app, w))
  /\ exists (x : float) (q : Q),
       accuracy (stats app) w = (Ok x, w)
       /\ float_value x = Some q /\ (0 <= q)%Q /\ (q <= 100)%Q.
Proof.
  intros Hst Ha Hb.
  split; [exact (update_status_counters app w a p wn l Hst Ha Hb)|].
  destruct (accuracy_counters w a p wn l Ha Hb) as [Hacc Hbelow].
  destruct (float_below_value _ Hbelow) as (q & Hq & H0 & H100).
  exists (accuracy_spec p wn), q. rewrite Hst. auto.
Qed.

Lemma accuracy_bounds_witness :
  let app := mkApp VNone (GameState_init VNone) (VRef 0%nat) in
  let w := mkWorld [ODict (stats_dict 3 2 1)] ∅ in
  update_status (app, w) = (Ok tt, (app, w))
  /\ exists (x : float) (q : Q),
       accuracy (stats app) w = (Ok x, w)
       /\ float_value x = Some q /\ (0 <= q)%Q /\ (q <= 100)%Q.
Proof.
  intros app w. apply (accuracy_bounds app w 0%nat 3%Z 2%Z 1%Z).
  - reflexivity.
  - reflexivity.
  - lia.
Defined.

(** ** The buttons *)

Lemma save_stats_ok (a : addr) (p wn l : Z) (w : World) :
  w_heap w !! a = Some (ODict (stats_dict p wn l)) ->
  exists bs,
    utf8_encode
      (dumps 0 (int_doc [(lit "played", p); (lit "wins", wn);
                         (lit "learned", l)])) = Some bs
    /\ save_stats (VRef a) w
       = (Ok tt, mkWorld (w_heap w) (<[STATS_FILE := bs]> (w_files w))).
Proof.
  intros Ha.
  exact (dump_int_dict STATS_FILE a
           [(lit "played", p); (lit "wins", wn); (lit "learned", l)] w Ha
           (proj1 (stats_keys_ok p wn l))).
Qed.

(** X20. With a tree whose root is a dict and statistics that are a dict
    of three integer counters such that [0 <= wins <= played], "yes" on a
    leaf: [played] and [wins] are incremented, the statistics file holds
    the text of the new counters, the session is a new game on the same
    tree, and neither the tree nor the knowledge file is touched. *)
Theorem on_button_win (app : App) (w : World) (r : Replies) (a : addr)
    (p wn l : Z) :
  Guessing (state app) w ->
  is_Some (as_dict (w_heap w) (tree (state app))) ->
  stats app = VRef a ->
  w_heap w !! a = Some (ODict (stats_dict p wn l)) ->
  (0 <= wn <= p)%Z ->
  exists bs,
    utf8_encode
      (dumps 0 (int_doc [(lit "played", (p + 1)%Z); (lit "wins", (wn + 1)%Z);
                         (lit "learned", l)])) = Some bs
    /\ on_button (lit "yes") r (app, w)
       = (Ok (Some (ShowInfo "¡Adiviné!")),
          (mkApp (app_tree app) (GameState_init (tree (state app)))
                 (stats app),
           mkWorld (<[a := ODict (stats_dict (p + 1) (wn + 1) l)]> (w_heap w))
                   (<[STATS_FILE := bs]> (w_files w)))).
Proof.
  intros Hleaf Hroot Hst Ha Hb. unfold Guessing in Hleaf.
  destruct (getitem_guess w _ Hleaf) as [g Hg].
  set (w1 := mkWorld (<[a := ODict (stats_dict (p + 1) (wn + 1) l)]> (w_heap w))
                     (w_files w)).
  destruct (save_stats_ok a (p + 1) (wn + 1) l w1) as (bs & Hbs & Hs).
  { apply (lookup_insert_obj _ _ _ _ Ha). }
  exists bs. split; [exact Hbs|].
  unfold on_button. rewrite Hleaf. unfold bind at 1, in_world at 1.
  rewrite Hg. destruct (decide (lit "yes" = lit "yes")); [|contradiction].
  unfold bind at 1, in_world at 1. rewrite Hst.
  rewrite (count_win_spec w a p wn l Ha). fold w1.
  unfold bind at 1, in_world at 1. rewrite Hs.
  unfold bind at 1.
  rewrite (new_game_ok app _ a (p + 1) (wn + 1) l).
  - rewrite ?Hst. reflexivity.
  - cbn [w_heap w1]. apply as_dict_insert, Hroot.
  - exact Hst.
  - cbn [w_heap w1]. apply (lookup_insert_obj _ _ _ _ Ha).
  - lia.
Qed.

Lemma on_button_win_witness :
  let h := [ODict [(lit "guess", VStr (lit "Zote"))]; ODict (stats_dict 4 3 1)] in
  let app := mkApp (VRef 0%nat) (GameState_init (VRef 0%nat)) (VRef 1%nat) in
  exists bs,
    utf8_encode
      (dumps 0 (int_doc [(lit "played", (4 + 1)%Z); (lit "wins", (3 + 1)%Z);
                         (lit "learned", 1%Z)])) = Some bs
    /\ on_button (lit "yes") (mkReplies None None false) (app, mkWorld h ∅)
       = (Ok (Some (ShowInfo "¡Adiviné!")),
          (mkApp (VRef 0%nat) (GameState_init (VRef 0%nat)) (VRef 1%nat),
           mkWorld (<[1%nat := ODict (stats_dict (4 + 1) (3 + 1) 1)]> h)
                   (<[STATS_FILE := bs]> ∅))).
Proof.
  intros h app.
  apply (on_button_win app (mkWorld h ∅) (mkReplies None None false) 1%nat
           4%Z 3%Z 1%Z).
  - reflexivity.
  - eexists. reflexivity.
  - reflexivity.
  - reflexivity.
  - lia.
Defined.

(** X21. Another answer than "yes" on a leaf, with the dialog cancelled
    (no name or no question, or an empty one): nothing changes, the game is
    not counted. *)
Theorem on_button_cancel (app : App) (w : World) (c : str) (r : Replies) :
  Guessing (state app) w ->
  c <> lit "yes" ->
  falsy (reply_name r) || falsy (reply_question r) = true ->
  on_button c r (app, w) = (Ok None, (app, w)).
Proof.
  intros Hleaf Hc Hr. unfold Guessing in Hleaf.
  destruct (getitem_guess w _ Hleaf) as [g Hg].
  unfold on_button. rewrite Hleaf. unfold bind at 1, in_world at 1.
  rewrite Hg. destruct (decide (c = lit "yes")); [contradiction|].
  unfold learn_dialog.
  destruct (falsy (reply_name r)); [reflexivity|].
  cbn [orb] in Hr. rewrite Hr. reflexivity.
Qed.

Lemma on_button_cancel_witness :
  let h := [ODict [(lit "guess", VStr (lit "Zote"))]; ODict (stats_dict 4 3 1)] in
  let app := mkApp (VRef 0%nat) (GameState_init (VRef 0%nat)) (VRef 1%nat) in
  on_button (lit "no") (mkReplies (Some (lit "Tiso")) (Some []) true)
            (app, mkWorld h ∅)
  = (Ok None, (app, mkWorld h ∅)).
Proof.
  intros h app.
  apply (on_button_cancel app (mkWorld h ∅) (lit "no")
           (mkReplies (Some (lit "Tiso")) (Some []) true)).
  - reflexivity.
  - exact no_is_not_yes.
  - reflexivity.
Defined.



Lemma data_not_stats : DATA_FILE <> STATS_FILE.
Proof. discriminate. Qed.



(** ** The first start *)

Lemma load_tree_missing (w : World) :
  w_files w !! DATA_FILE = None ->
  exists a F extra j bs,
    load_tree w
    = (Ok (VRef a),
       mkWorld (w_heap w ++ extra) (<[DATA_FILE := bs]> (w_files w)))
    /\ repr (w_heap w ++ extra) (VRef a) default_tree_t F
    /\ (forall x, x ∈ F -> (length (w_heap w) <= x)%nat)
    /\ is_doc j default_tree_t
    /\ utf8_encode (dumps 0 j) = Some bs.
Proof.
  intros Hf.
  destruct (build_tree_doc default_tree_t (w_heap w))
    as (a & F & extra & Eb & R & L).
  rewrite default_tree_doc_eq in Eb.
  set (w0 := mkWorld (w_heap w ++ extra) (w_files w)).
  destruct (dump_tree_ok DATA_FILE (VRef a) default_tree_t F w0 R
              default_tree_encodable) as (j & bs & D & Hbs & Hs).
  exists a, F, extra, j, bs. split; [|auto].
  unfold load_tree, bind at 1, path_exists. rewrite Hf.
  rewrite bool_decide_eq_false_2 by (intros [? ?]; discriminate).
  cbn [negb]. unfold bind at 1, default_tree, eval_display. rewrite Eb.
  unfold bind at 1. fold w0. change (save_tree (VRef a) w0) with
    (bind (open_w DATA_FILE) (fun _ => json_dump (VRef a) DATA_FILE) w0).
  rewrite Hs. reflexivity.
Qed.

Lemma load_stats_missing (w : World) :
  w_files w !! STATS_FILE = None ->
  exists bs,
    load_stats w
    = (Ok (VRef (length (w_heap w))),
       mkWorld (w_heap w ++ [ODict (stats_dict 0 0 0)])
               (<[STATS_FILE := bs]> (w_files w)))
    /\ utf8_encode
         (dumps 0 (int_doc [(lit "played", 0%Z); (lit "wins", 0%Z);
                            (lit "learned", 0%Z)])) = Some bs.
Proof.
  intros Hf.
  set (w0 := mkWorld (w_heap w ++ [ODict (stats_dict 0 0 0)]) (w_files w)).
  destruct (save_stats_ok (length (w_heap w)) 0 0 0 w0) as (bs & Hbs & Hs).
  { cbn [w_heap w0]. rewrite lookup_app_r, Nat.sub_diag by lia. reflexivity. }
  exists bs. split; [|exact Hbs].
  unfold load_stats, bind at 1, path_exists. rewrite Hf.
  rewrite bool_decide_eq_false_2 by (intros [? ?]; discriminate).
  cbn [negb]. unfold bind at 1, eval_display.
  change (JDict [(lit "played", JInt 0); (lit "wins", JInt 0);
                 (lit "learned", JInt 0)])
    with (int_doc [(lit "played", 0%Z); (lit "wins", 0%Z);
                   (lit "learned", 0%Z)]).
  rewrite (build_int_doc _ _ (proj2 (stats_keys_ok 0 0 0))).
  rewrite <- stats_dict_int. fold w0. unfold bind at 1. rewrite Hs.
  reflexivity.
Qed.

Lemma load_stats_file (w : World) (bs : list N) (p wn l : Z) :
  w_files w !! STATS_FILE = Some bs ->
  utf8_encode
    (dumps 0 (int_doc [(lit "played", p); (lit "wins", wn);
                       (lit "learned", l)])) = Some bs ->
  load_stats w
  = (Ok (VRef (length (w_heap w))),
     mkWorld (w_heap w ++ [ODict (stats_dict p wn l)]) (w_files w)).
Proof.
  intros Hf Hbs.
  unfold load_stats, bind at 1, path_exists. rewrite Hf.
  rewrite bool_decide_eq_true_2 by eauto. cbn [negb].
  rewrite (json_load_dumps STATS_FILE _ bs w (plain_int_doc _) Hbs Hf).
  rewrite (build_int_doc _ _ (proj2 (stats_keys_ok p wn l))). reflexivity.
Qed.

(** X23. The first start, with neither file: the application starts on
    the default tree with all counters at zero, the objects already in the
    store are unchanged; the next start reads the same tree and the same
    counters from the two files and writes nothing. *)
Theorem App_init_first_run (w : World) :
  w_files w !! DATA_FILE = None ->
  w_files w !! STATS_FILE = None ->
  exists app w1 F a,
    App_init w = (Ok app, w1)
    /\ state app = GameState_init (app_tree app)
    /\ repr (w_heap w1) (app_tree app) default_tree_t F
    /\ stats app = VRef a
    /\ w_heap w1 !! a = Some (ODict (stats_dict 0 0 0))
    /\ (forall x o, w_heap w !! x = Some o -> w_heap w1 !! x = Some o)
    /\ exists app2 w2 F2 a2,
         App_init w1 = (Ok app2, w2)
         /\ state app2 = GameState_init (app_tree app2)
         /\ repr (w_heap w2) (app_tree app2) default_tree_t F2
         /\ stats app2 = VRef a2
         /\ w_heap w2 !! a2 = Some (ODict (stats_dict 0 0 0))
         /\ w_files w2 = w_files w1.
Proof.
  intros Hd Hs.
  destruct (load_tree_missing w Hd)
    as (a & F & extra & j & bs & El & R & _ & D & Hbs).
  set (w0 := mkWorld (w_heap w ++ extra) (<[DATA_FILE := bs]> (w_files w)))
    in *.
  destruct (load_stats_missing w0) as (bs' & Els & Hbs').
  { cbn [w_files w0]. rewrite lookup_insert_ne by exact data_not_stats.
    exact Hs. }
  cbn [w_heap w_files w0] in Els.
  set (w1 := mkWorld ((w_heap w ++ extra) ++ [ODict (stats_dict 0 0 0)])
                     (<[STATS_FILE := bs']> (<[DATA_FILE := bs]> (w_files w))))
    in *.
  destruct (load_tree_doc j default_tree_t bs w1 D Hbs)
    as (a2 & F2 & extra2 & El2 & R2 & _).
  { cbn [w_files w1].
    rewrite lookup_insert_ne by (symmetry; exact data_not_stats).
    apply lookup_insert_eq. }
  set (w1' := mkWorld (w_heap w1 ++ extra2) (w_files w1)) in *.
  pose proof (load_stats_file w1' bs' 0 0 0 (lookup_insert_eq _ _ _) Hbs')
    as Els2.
  exists (mkApp (VRef a) (GameState_init (VRef a))
                (VRef (length (w_heap w ++ extra)))), w1, F,
    (length (w_heap w ++ extra)).
  split.
  { unfold App_init, bind at 1. rewrite El. unfold bind at 1. rewrite Els.
    rewrite (show_state_ok _ w1 (length (w_heap w ++ extra)) 0 0 0).
    - reflexivity.
    - cbn [state node GameState_init w_heap w1].
      exact (repr_as_dict _ _ _ _ (repr_app _ _ _ _ _ R)).
    - reflexivity.
    - cbn [w_heap w1]. rewrite lookup_app_r, Nat.sub_diag by lia. reflexivity.
    - lia. }
  split; [reflexivity|]. split; [apply repr_app, R|]. split; [reflexivity|].
  split.
  { cbn [w_heap w1]. rewrite lookup_app_r, Nat.sub_diag by lia. reflexivity. }
  split.
  { intros x o Hx. cbn [w_heap w1]. rewrite <- app_assoc.
    rewrite lookup_app_l; [exact Hx|]. eapply lookup_lt_Some, Hx. }
  exists (mkApp (VRef a2) (GameState_init (VRef a2))
                (VRef (length (w_heap w1')))),
    (mkWorld (w_heap w1' ++ [ODict (stats_dict 0 0 0)]) (w_files w1')),
    F2, (length (w_heap w1')).
  split.
  { unfold App_init, bind at 1. rewrite El2. unfold bind at 1. fold w1'.
    rewrite Els2.
    rewrite (show_state_ok _ _ (length (w_heap w1')) 0 0 0).
    - reflexivity.
    - cbn [state node GameState_init w_heap].
      exact (repr_as_dict _ _ _ _ (repr_app _ _ _ _ _ R2)).
    - reflexivity.
    - cbn [w_heap]. rewrite lookup_app_r, Nat.sub_diag by lia. reflexivity.
    - lia. }
  split; [reflexivity|]. split; [apply repr_app, R2|]. split; [reflexivity|].
  split; [|reflexivity].
  cbn [w_heap]. rewrite lookup_app_r, Nat.sub_diag by lia. reflexivity.
Qed.

Lemma App_init_first_run_witness :
  exists app w1 F a,
    App_init empty_world = (Ok app, w1)
    /\ state app = GameState_init (app_tree app)
    /\ repr (w_heap w1) (app_tree app) default_tree_t F
    /\ stats app = VRef a
    /\ w_heap w1 !! a = Some (ODict (stats_dict 0 0 0))
    /\ (forall x o, w_heap empty_world !! x = Some o ->
                    w_heap w1 !! x = Some o)
    /\ exists app2 w2 F2 a2,
         App_init w1 = (Ok app2, w2)
         /\ state app2 = GameState_init (app_tree app2)
         /\ repr (w_heap w2) (app_tree app2) default_tree_t F2
         /\ stats app2 = VRef a2
         /\ w_heap w2 !! a2 = Some (ODict (stats_dict 0 0 0))
         /\ w_files w2 = w_files w1.
Proof. apply (App_init_first_run empty_world); reflexivity. Defined.

(** ** Leaves and questions *)

(** X24. On a node of a well-formed tree [is_leaf] is the presence of the
    key [guess], which excludes the key [q]: it is true on a guess node and
    false on a question node. *)
Theorem is_leaf_well_formed (h : heap) (v : value) (t : TreeNode)
    (F : gset addr) :
  repr h v t F ->
  exists d,
    as_dict h v = Some d
    /\ is_leaf h v = dict_in (lit "guess") d
    /\ dict_in (lit "guess") d = negb (dict_in (lit "q") d)
    /\ is_leaf h v = match t with Leaf _ => true | Question _ _ _ => false end.
Proof.
  intros R. pose proof (repr_is_leaf _ _ _ _ R) as Hl.
  destruct R as [a g Ha|a d q vy vn y n Fy Fn Ha Hp _ _ _ _ _].
  - exists [(lit "guess", VStr g)]. unfold is_leaf, as_dict in *. rewrite Ha.
    repeat split.
  - exists d. destruct (question_dict_get d q vy vn Hp) as (Hq & _ & _ & Hg).
    unfold is_leaf, as_dict in *. rewrite Ha in *.
    split; [reflexivity|]. split; [reflexivity|]. split; [|exact Hl].
    rewrite Hg. unfold dict_in. rewrite Hq. reflexivity.
Qed.

Lemma is_leaf_well_formed_witness :
  exists F d,
    repr (w_heap seed_world) seed_root default_tree_t F
    /\ as_dict (w_heap seed_world) seed_root = Some d
    /\ is_leaf (w_heap seed_world) seed_root = dict_in (lit "guess") d
    /\ dict_in (lit "guess") d = negb (dict_in (lit "q") d)
    /\ is_leaf (w_heap seed_world) seed_root = false.
Proof.
  destruct seed_world_repr as [F R]. exists F.
  destruct (is_leaf_well_formed (w_heap seed_world) seed_root default_tree_t
                                F R) as (d & H).
  exists d. split; [exact R|exact H].
Defined.

(** ** The text of a new question *)

(** X25. A normalized question ends with "?", is not empty and has no
    white space around it; a question of white space only becomes "?", and
    only such a question has an empty stripped text. *)
Theorem normalize_question_shape (s : str) :
  endswith (normalize_question s) (lit "?") = true
  /\ strip (normalize_question s) = normalize_question s
  /\ normalize_question s <> []
  /\ (if forallb isspace s then normalize_question s = lit "?"
      else strip s <> []).
Proof.
  split; [apply normalize_question_endswith|].
  split; [apply normalize_question_strip_fixed|].
  split.
  - pose proof (normalize_question_endswith s) as H.
    change (lit "?") with [63] in H. apply endswith_last in H.
    intros E. rewrite E in H. discriminate H.
  - destruct (forallb isspace s) eqn:E.
    + unfold normalize_question, strip. rewrite (lstrip_all_space s E).
      reflexivity.
    + intros Hs. apply not_true_iff_false in E. apply E.
      apply forallb_forall. intros c Hc.
      unfold strip, rstrip in Hs.
      assert (lstrip (rev (lstrip s)) = []) as H1.
      { rewrite <- (rev_involutive (lstrip _)). rewrite Hs. reflexivity. }
      clear Hs.
      assert (forall x, lstrip x = [] -> forallb isspace x = true) as Hall.
      { induction x as [|c0 x IH]; [reflexivity|]. cbn [lstrip forallb].
        destruct (isspace c0); [exact IH|discriminate]. }
      pose proof (Hall _ H1) as H2. rewrite forallb_forall in H2.
      assert (forall y, In y (lstrip s) -> isspace y = true) as H3.
      { intros y Hy. apply H2. apply in_rev in Hy. exact Hy. }
      assert (lstrip s = []) as H4.
      { pose proof (lstrip_head s) as Hh. destruct (lstrip s) as [|c0 r];
          [reflexivity|]. rewrite (H3 c0 (or_introl eq_refl)) in Hh.
        discriminate Hh. }
      pose proof (Hall _ H4) as H5. rewrite forallb_forall in H5.
      apply H5, Hc.
Qed.

(** ** Overwriting *)

Lemma write_chunks_same (fname : string) (cs : list str) :
  forall (w w' : World),
    w_files w !! fname = w_files w' !! fname ->
    (write_chunks fname cs w).1 = (write_chunks fname cs w').1
    /\ w_files (write_chunks fname cs w).2 !! fname
       = w_files (write_chunks fname cs w').2 !! fname.
Proof.
  induction cs as [|c cs IH]; intros w w' Hf; [split; [reflexivity|exact Hf]|].
  cbn [write_chunks]. unfold bind, write_chunk.
  destruct (utf8_encode c) as [bs|]; [|split; [reflexivity|exact Hf]].
  apply IH. cbn [w_files]. rewrite !lookup_insert_eq, Hf. reflexivity.
Qed.

(** X26. [save_tree] overwrites: its result and the content of the
    knowledge file afterwards depend on the store only, not on what the
    files held before. *)
Theorem save_tree_overwrites (v : value) (w w' : World) :
  w_heap w = w_heap w' ->
  (save_tree v w).1 = (save_tree v w').1
  /\ w_files (save_tree v w).2 !! DATA_FILE
     = w_files (save_tree v w').2 !! DATA_FILE.
Proof.
  intros Hh. unfold save_tree, bind, open_w, modify, json_dump.
  cbn [w_heap]. rewrite Hh.
  destruct (iterencode _ _ _ _ _) as [cs e].
  destruct (write_chunks_same DATA_FILE cs
              (mkWorld (w_heap w') (<[DATA_FILE := []]> (w_files w)))
              (mkWorld (w_heap w') (<[DATA_FILE := []]> (w_files w'))))
    as [H1 H2].
  { cbn [w_files]. rewrite !lookup_insert_eq. reflexivity. }
  unfold bind.
  destruct (write_chunks DATA_FILE cs
              (mkWorld (w_heap w') (<[DATA_FILE := []]> (w_files w))))
    as [[[]|e1] w1];
    destruct (write_chunks DATA_FILE cs
                (mkWorld (w_heap w') (<[DATA_FILE := []]> (w_files w'))))
    as [[[]|e2] w2]; cbn [fst snd] in *; try discriminate H1.
  - destruct e; unfold raise, ret; cbn [fst snd]; split; auto.
  - split; [exact H1|exact H2].
Qed.

Lemma save_tree_overwrites_witness :
  let w := mkWorld (w_heap seed_world) {[ DATA_FILE := [123; 125] ]} in
  (save_tree seed_root seed_world).1 = (save_tree seed_root w).1
  /\ w_files (save_tree seed_root seed_world).2 !! DATA_FILE
     = w_files (save_tree seed_root w).2 !! DATA_FILE.
Proof.
  intros w. apply (save_tree_overwrites seed_root seed_world w). reflexivity.
Defined.
